(** * Sheaf solver of bonsaiOS: cyclic-group characters and the unified learner

    A shallow embedding of [kernel/sheaf_solver] (types.hpp, types.cpp,
    cyclic_group.cpp, unified_sheaf_learner.cpp) and the properties its
    specification states, followed by properties of the same code and of
    the freestanding kernel [edk2_bootloader/Kernel] (sheaf.c, kmain.c) that
    the sources themselves show.

    Conventions of the embedding.
    - [real_t] (a C++ [double]) is read as a real number and [complex_t] as a
      pair of reals: arithmetic is exact, rounding is not modelled (for the
      values of a double that are no real number see the residual below).  The
      constant [PI] of types.hpp, the double nearest to pi, is read as pi.
    - [size_t] is read as [nat]; the indices of an allocated matrix never
      reach the wrap-around of a 64-bit word.
    - A C++ exception becomes an [Err] result.  Behaviour the language leaves
      undefined (an index outside an Eigen object or a [std::vector], an
      integer remainder by zero, the read of a coefficient that was never
      written) becomes [Err (Undefined _)].
    - cyclic_group.cpp and types.cpp are compiled either with the macro
      [USE_EIGEN3] or without it.  Where the two branches of a function
      compute the same coefficients the model has one definition for both;
      where they differ ([reconstruct_from_characters], which checks the
      shapes of the projections only through Eigen, and
      [learn_character_weights]) the model takes the macro as a boolean.
      unified_sheaf_learner.cpp compiles with [USE_EIGEN3] only: without it
      [GluingSystemResult result;] asks [BasicMatrix] and [BasicVector] for a
      default constructor they do not have.  The learner is therefore
      modelled as compiled with [USE_EIGEN3], and the text of its [#else]
      branches is left out.
    - The residual of [fit] is a [double] that may be infinite or NaN, as are
      the coefficients it is computed from; everywhere else the data are
      finite.
    - Console output of the verbose mode is not modelled. *)

From Stdlib Require Import Reals Lra Lia.
From stdpp Require Import gmap strings list.

(** ** Errors *)

Inductive UndefinedBehaviour : Type :=
| OutOfBounds        (* index outside a matrix, vector, block or segment *)
| DivideByZero       (* [k % rows] with [rows == 0] *)
| UninitialisedRead. (* coefficient read before any write *)

Inductive Error : Type :=
| InvalidOrder       (* std::invalid_argument("Group order must be positive") *)
| IndexOutOfRange    (* std::out_of_range("Character index out of range") *)
| EmptyInput         (* std::invalid_argument("Empty projections") *)
| InvalidInput       (* std::invalid_argument("Invalid samples or targets") *)
| UnknownPatch       (* std::out_of_range thrown by unordered_map::at *)
| NotFitted          (* std::runtime_error("Model not fitted") *)
| Undefined (u : UndefinedBehaviour).

Inductive Result (A : Type) : Type :=
| Ok (a : A)
| Err (e : Error).
Arguments Ok {A} a.
Arguments Err {A} e.

#[global] Instance Result_ret : MRet Result := @Ok.
#[global] Instance Result_bind : MBind Result :=
  fun A B f m => match m with Ok a => f a | Err e => Err e end.
#[global] Instance Result_fmap : FMap Result :=
  fun A B f m => match m with Ok a => Ok (f a) | Err e => Err e end.

Definition is_Ok {A} (r : Result A) : Prop := exists a, r = Ok a.

(** Left fold of a monadic step, the shape of a [for] loop whose body may
    throw. *)
Fixpoint foldlM {M : Type -> Type} `{!MBind M, !MRet M} {A B}
    (f : A -> B -> M A) (a : A) (l : list B) : M A :=
  match l with
  | [] => mret a
  | x :: l' => a' ← f a x; foldlM f a' l'
  end.

(** ** Scalars: [real_t] and [complex_t] *)

Abbreviation real_t := R (only parsing).
Definition complex_t : Type := (R * R)%type.

Definition EPSILON : real_t := (1 / 10 ^ 12)%R.

Definition C0 : complex_t := (0, 0)%R.
Definition C1 : complex_t := (1, 0)%R.
Definition Cadd (x y : complex_t) : complex_t := (x.1 + y.1, x.2 + y.2)%R.
Definition Csub (x y : complex_t) : complex_t := (x.1 - y.1, x.2 - y.2)%R.
Definition Cmul (x y : complex_t) : complex_t :=
  (x.1 * y.1 - x.2 * y.2, x.1 * y.2 + x.2 * y.1)%R.
Definition Cconj (x : complex_t) : complex_t := (x.1, - x.2)%R.
(** [z / d] for a complex [z] and a real [d]. *)
Definition Cdivr (x : complex_t) (d : real_t) : complex_t := (x.1 / d, x.2 / d)%R.
(** [std::norm]: the squared magnitude. *)
Definition Cnorm2 (x : complex_t) : real_t := (x.1 * x.1 + x.2 * x.2)%R.
(** [std::polar(rho, theta)]. *)
Definition polar (rho theta : real_t) : complex_t :=
  (rho * cos theta, rho * sin theta)%R.
(** [std::pow(z, static_cast<double>(m))] for an unsigned integer [m]: with
    exact arithmetic the [m]-fold product. *)
Fixpoint Cpow (z : complex_t) (m : nat) : complex_t :=
  match m with
  | 0 => C1
  | S m' => Cmul z (Cpow z m')
  end.

(** Sum of [f 0 .. f (n-1)]. *)
Fixpoint Csum (f : nat -> complex_t) (n : nat) : complex_t :=
  match n with
  | 0 => C0
  | S n' => Cadd (Csum f n') (f n')
  end.

Definition Rltb (x y : R) : bool := if Rlt_dec x y then true else false.

(** *** The values of a [double] that are no real number

    The residual that [fit] reports goes through two comparisons with
    [EPSILON], and a comparison of doubles is not one of real numbers: a
    double may be an infinity or NaN, and every comparison with NaN is false.
    The residual is therefore a [double], a real number, an infinity or NaN,
    and so are the coefficients of the vector whose squared norm it is.  On
    finite values the arithmetic stays exact: neither rounding nor overflow
    is modelled, and the sign of a zero is not kept. *)
Inductive double : Type :=
| Finite (x : R)
| PosInf
| NegInf
| NaN.

(** [a < b] and [a <= b]. *)
Definition double_lt (a b : double) : bool :=
  match a, b with
  | Finite x, Finite y => Rltb x y
  | Finite _, PosInf => true
  | NegInf, Finite _ => true
  | NegInf, PosInf => true
  | _, _ => false
  end.


(** [a + b]: NaN for a NaN operand and for infinities of opposite sign. *)
Definition double_add (a b : double) : double :=
  match a, b with
  | Finite x, Finite y => Finite (x + y)
  | NaN, _ => NaN
  | _, NaN => NaN
  | PosInf, NegInf => NaN
  | NegInf, PosInf => NaN
  | PosInf, _ => PosInf
  | _, PosInf => PosInf
  | NegInf, _ => NegInf
  | _, NegInf => NegInf
  end.

(** The infinity of the sign of [x], NaN for [x = 0]. *)
Definition signed_infinity (x : R) : double :=
  if Rlt_dec 0 x then PosInf else if Rlt_dec x 0 then NegInf else NaN.

(** [a * b]: NaN for a NaN operand and for zero times an infinity. *)
Definition double_mul (a b : double) : double :=
  match a, b with
  | Finite x, Finite y => Finite (x * y)
  | NaN, _ => NaN
  | _, NaN => NaN
  | Finite x, PosInf => signed_infinity x
  | PosInf, Finite x => signed_infinity x
  | Finite x, NegInf => signed_infinity (- x)
  | NegInf, Finite x => signed_infinity (- x)
  | PosInf, PosInf => PosInf
  | NegInf, NegInf => PosInf
  | PosInf, NegInf => NegInf
  | NegInf, PosInf => NegInf
  end.

(** A [std::complex<double>] whose parts may be infinite or NaN, and the
    one with the finite parts of a [complex_t]. *)
Definition double_complex : Type := (double * double)%type.

Definition of_complex_t (z : complex_t) : double_complex := (Finite z.1, Finite z.2).

(** ** Dense matrices and vectors

    [Mat T] is a [rows] x [cols] array of coefficients of type [T], kept as the
    list of its rows.  [Matrix] is Eigen's [MatrixXcd] (or
    [BasicMatrix<complex_t>]); [Vector] is [VectorXcd].  A buffer that was
    allocated and only partly written has coefficients of type
    [option complex_t], [None] marking a coefficient never written. *)

Record Mat (T : Type) : Type := mkMat {
  rows : nat;
  cols : nat;
  coeffs : list (list T)
}.
Arguments mkMat {T} rows cols coeffs.
Arguments rows {T} m.
Arguments cols {T} m.
Arguments coeffs {T} m.

Abbreviation Matrix := (Mat complex_t).
Abbreviation Vector := (list complex_t).
Abbreviation RawMatrix := (Mat (option complex_t)).
Abbreviation RawVector := (list (option complex_t)).

Definition Mat_wf {T} (M : Mat T) : Prop :=
  length (coeffs M) = rows M /\ Forall (fun r => length r = cols M) (coeffs M).

(** The matrix with coefficient [f i j] at row [i], column [j]. *)
Definition Mbuild {T} (r c : nat) (f : nat -> nat -> T) : Mat T :=
  mkMat r c (map (fun i => map (f i) (seq 0 c)) (seq 0 r)).

(** [M.row(i)]. *)
Definition Mrow {T} (M : Mat T) (i : nat) : list T := default [] (coeffs M !! i).

(** [M(i, j)] with the index check of Eigen's assertions. *)
Definition Mat_at {T} (M : Mat T) (i j : nat) : Result T :=
  if (i <? rows M) && (j <? cols M) then
    match Mrow M i !! j with
    | Some x => Ok x
    | None => Err (Undefined OutOfBounds)
    end
  else Err (Undefined OutOfBounds).

(** [v(i)] with the index check. *)
Definition Vec_at {T} (v : list T) (i : nat) : Result T :=
  match v !! i with
  | Some x => Ok x
  | None => Err (Undefined OutOfBounds)
  end.

(** [M(i, j)] where the index is known to be in range. *)
Definition Mget (M : Matrix) (i j : nat) : complex_t := default C0 (Mrow M i !! j).
Definition Vget (v : Vector) (i : nat) : complex_t := default C0 (v !! i).

Definition Mzero (r c : nat) : Matrix := Mbuild r c (fun _ _ => C0).
Definition Madd (A B : Matrix) : Matrix :=
  Mbuild (rows A) (cols A) (fun i j => Cadd (Mget A i j) (Mget B i j)).
Definition Mscale (w : complex_t) (A : Matrix) : Matrix :=
  Mbuild (rows A) (cols A) (fun i j => Cmul w (Mget A i j)).
Definition Mdivr (A : Matrix) (d : real_t) : Matrix :=
  Mbuild (rows A) (cols A) (fun i j => Cdivr (Mget A i j) d).

(** Two matrices of the same shape with the same coefficients. *)
Definition Meq (A B : Matrix) : Prop :=
  rows A = rows B /\ cols A = cols B /\
  forall i j, i < rows A -> j < cols A -> Mget A i j = Mget B i j.

(** ** cyclic_group.cpp *)

Record CyclicGroupCharacters : Type := mkGroup {
  n_ : nat;
  omega_ : complex_t;
  characters_ : Matrix
}.

(** [compute_character_table]: entry [(j, k)] is [pow(omega_, j * k)]. *)
Definition compute_character_table (n : nat) (omega : complex_t) : Matrix :=
  Mbuild n n (fun j k => Cpow omega (j * k)).

(** The constructor: the members are initialised, then [n == 0] throws. *)
Definition new_CyclicGroupCharacters (n : nat) : Result CyclicGroupCharacters :=
  let omega := polar 1%R (2 * PI / INR n)%R in
  if n =? 0 then Err InvalidOrder
  else Ok (mkGroup n omega (compute_character_table n omega)).

Definition character (g : CyclicGroupCharacters) (j k : nat) : Result complex_t :=
  if (n_ g <=? j) || (n_ g <=? k) then Err IndexOutOfRange
  else Mat_at (characters_ g) j k.

(** [rotate]: row [i] of the result is row [(i + rows - k % rows) % rows] of
    [V]; [k == 0] returns [V] before [rows] is looked at. *)
Definition rotate (V : Matrix) (k : nat) : Result Matrix :=
  if k =? 0 then Ok V
  else
    let rows := rows V in
    let cols := cols V in
    if rows =? 0 then Err (Undefined DivideByZero)
    else
      let k := k mod rows in
      Ok (mkMat rows cols
            (map (fun i => Mrow V ((i + rows - k) mod rows)) (seq 0 rows))).

(** [project_onto_character]: the loop adds [conj(character(j, k)) *
    rotate(V, k)] for [k < min(seq_len, n_)], then divides by that minimum. *)
Definition project_onto_character (g : CyclicGroupCharacters) (V : Matrix) (j : nat)
  : Result Matrix :=
  if n_ g <=? j then Err IndexOutOfRange
  else
    let seq_len := rows V in
    let d_model := cols V in
    let n := seq_len `min` n_ g in
    proj ← foldlM (fun proj k =>
                     chi ← character g j k;
                     let weight := Cconj chi in
                     V_rotated ← rotate V k;
                     Ok (Madd proj (Mscale weight V_rotated)))
                  (Mzero seq_len d_model) (seq 0 n);
    Ok (Mdivr proj (INR n)).

Definition decompose_into_characters (g : CyclicGroupCharacters) (V : Matrix)
  : Result (list Matrix) :=
  let n := rows V `min` n_ g in
  mapM (project_onto_character g V) (seq 0 n).

(** [M(i, j)] of a [BasicMatrix], the matrix of the build without
    [USE_EIGEN3]: cell [i * cols + j] of its storage, with no check of [i] or
    [j] against the shape (types.cpp); outside the storage the access is
    undefined. *)
Definition Basic_at (M : Matrix) (i j : nat) : Result complex_t :=
  let k := i * cols M + j in
  if k <? rows M * cols M then Mat_at M (k / cols M) (k mod cols M)
  else Err (Undefined OutOfBounds).

(** [reconstruct_from_characters]: [result += coefficients(j) * projections[j]]
    for [j] below both lengths.  With [USE_EIGEN3] the sum is Eigen's, which
    asserts that the shapes agree.  Without it the loops run over the rows
    and columns of [projections[0]] and read [projections[j](i, c)] with no
    check of the shape of [projections[j]]. *)
Definition reconstruct_from_characters (USE_EIGEN3 : bool)
    (coefficients : Vector) (projections : list Matrix) : Result Matrix :=
  match projections with
  | [] => Err EmptyInput
  | P0 :: _ =>
      if USE_EIGEN3 then
        foldlM (fun result j =>
                  coef ← Vec_at coefficients j;
                  P ← Vec_at projections j;
                  if (rows P =? rows result) && (cols P =? cols result)
                  then Ok (Madd result (Mscale coef P))
                  else Err (Undefined OutOfBounds))
               (Mzero (rows P0) (cols P0))
               (seq 0 (length projections `min` length coefficients))
      else
        let rows := rows P0 in
        let cols := cols P0 in
        foldlM (fun result j =>
                  coef ← Vec_at coefficients j;
                  P ← Vec_at projections j;
                  cells ← mapM (fun i =>
                      mapM (fun c =>
                              x ← Basic_at P i c;
                              Ok (Cadd (Mget result i c) (Cmul coef x)))
                           (seq 0 cols))
                    (seq 0 rows);
                  Ok (mkMat rows cols cells))
               (Mzero rows cols)
               (seq 0 (length projections `min` length coefficients))
  end.

(** [M(k / M.cols(), k % M.cols())]: coefficient [k] of the flattened [M]. *)
Definition flat_at (M : Matrix) (k : nat) : Result complex_t :=
  if cols M =? 0 then Err (Undefined DivideByZero)
  else Mat_at M (k / cols M) (k mod cols M).

(** The assembly of the system of [learn_character_weights], the same text in
    both branches: for sample [i], column [j] of [A] receives the flattened
    projection [projs[j]] and [b] the flattened target, [d] scalars each,
    with [d] the size of the first sample. *)
Definition design_system (g : CyclicGroupCharacters)
    (V_samples targets : list Matrix) : Result (Matrix * Vector) :=
  let n_samples := length V_samples in
  V0 ← Vec_at V_samples 0;
  let d := rows V0 * cols V0 in
  blocks ← mapM (fun i =>
      Vi ← Vec_at V_samples i;
      projs ← decompose_into_characters g Vi;
      columns ← mapM (fun j =>
          mapM (fun k =>
                  if cols Vi =? 0 then Err (Undefined DivideByZero)
                  else P ← Vec_at projs j; Mat_at P (k / cols Vi) (k mod cols Vi))
               (seq 0 d))
        (seq 0 (n_ g));
      Ti ← Vec_at targets i;
      b_i ← mapM (flat_at Ti) (seq 0 d);
      Ok (map (fun k => map (fun col => Vget col k) columns) (seq 0 d), b_i))
    (seq 0 n_samples);
  Ok (mkMat (n_samples * d) (n_ g) (concat (map fst blocks)),
      concat (map snd blocks)).

(** [learn_character_weights].  With [USE_EIGEN3] the coefficients are
    [A.bdcSvd(...).solve(b)], Eigen's least-squares solve, taken here as the
    parameter [bdcSvd_solve]; without it the function returns [n_] zeros. *)
Definition learn_character_weights (USE_EIGEN3 : bool)
    (bdcSvd_solve : Matrix -> Vector -> Vector)
    (g : CyclicGroupCharacters) (V_samples targets : list Matrix) : Result Vector :=
  if (length V_samples =? 0) || negb (length V_samples =? length targets)
  then Err InvalidInput
  else
    '(A, b) ← design_system g V_samples targets;
    if USE_EIGEN3 then Ok (bdcSvd_solve A b)
    else Ok (replicate (n_ g) C0).

(** ** types.hpp: problems and solutions *)

Record PatchConfig : Type := mkPatchConfig {
  n_positions : nat;
  n_characters : nat;
  d_model : nat
}.

Record Patch : Type := mkPatch {
  name : string;
  V_samples : list Matrix;
  targets : list Matrix;
  config : PatchConfig
}.

Record GluingConstraint : Type := mkGluing {
  patch_1 : string;
  patch_2 : string;
  constraint_data_1 : Matrix;
  constraint_data_2 : Matrix
}.

Record SheafSolution : Type := mkSolution {
  weights : gmap string Matrix;
  residual_error : double;
  converged : bool
}.

Record SheafProblem : Type := mkProblem {
  patches : list Patch;
  gluings : list GluingConstraint
}.

(** ** unified_sheaf_learner.cpp *)

Record UnifiedSheafLearner : Type := mkLearner {
  verbose_ : bool;
  fitted_ : bool;
  solution_ : SheafSolution;
  patch_configs_ : gmap string PatchConfig
}.

(** The constructor: [fitted_(false)], [solution_{}], an empty registry. *)
Definition new_UnifiedSheafLearner (verbose : bool) : UnifiedSheafLearner :=
  mkLearner verbose false (mkSolution ∅ (Finite 0) false) ∅.

(** [LocalSystemsResult]; its member [targets] is [local_targets] here, the
    name [targets] being taken by [Patch]. *)
Record LocalSystemsResult : Type := mkLocal {
  matrices : list RawMatrix;
  local_targets : list Vector;
  patch_offsets : gmap string nat;
  patch_n_weights : gmap string nat
}.

Record GluingSystemResult : Type := mkGluingSystem {
  A_gluing : RawMatrix;
  b_gluing : Vector
}.

(** Member functions that are not [const] run in [LM]: they read and write the
    learner, and what they wrote before an exception stays written. *)
Definition LM (A : Type) : Type :=
  UnifiedSheafLearner -> Result A * UnifiedSheafLearner.

#[global] Instance LM_ret : MRet LM := fun A a s => (Ok a, s).
#[global] Instance LM_bind : MBind LM :=
  fun A B f m s =>
    match m s with
    | (Ok a, s') => f a s'
    | (Err e, s') => (Err e, s')
    end.

Definition lift {A} (r : Result A) : LM A := fun s => (r, s).

(** [patch_configs_[key] = cfg]. *)
Definition registry_assign (key : string) (cfg : PatchConfig) : LM unit :=
  fun s => (Ok tt, mkLearner (verbose_ s) (fitted_ s) (solution_ s)
                             (<[key := cfg]> (patch_configs_ s))).

(** [patch_configs_[key]] read through [operator[]]: an absent key is first
    inserted with a value-initialised [PatchConfig]. *)
Definition registry_index (key : string) : LM PatchConfig :=
  fun s =>
    match patch_configs_ s !! key with
    | Some cfg => (Ok cfg, s)
    | None =>
        let cfg := mkPatchConfig 0 0 0 in
        (Ok cfg, mkLearner (verbose_ s) (fitted_ s) (solution_ s)
                           (<[key := cfg]> (patch_configs_ s)))
    end.

(** [m.at(key)] of an [unordered_map]. *)
Definition map_at {V} (m : gmap string V) (key : string) : Result V :=
  match m !! key with
  | Some v => Ok v
  | None => Err UnknownPatch
  end.

(** The value of a coefficient that is read. *)
Definition read_cell (c : option complex_t) : Result complex_t :=
  match c with
  | Some x => Ok x
  | None => Err (Undefined UninitialisedRead)
  end.

(** [get_feature_row]: [feature_row] is allocated with [n_positions *
    n_characters] coefficients, and coefficient [p * n_characters + j] is
    written with [projs[j](p, 0)] when [j < projs.size()]. *)
Definition feature_cell (projs : list Matrix) (config : PatchConfig) (p : nat)
    (feature_row : RawVector) (j : nat) : Result RawVector :=
  if j <? length projs then
    let col_idx := p * n_characters config + j in
    P ← Vec_at projs j;
    x ← Mat_at P p 0;
    Ok (<[col_idx := Some x]> feature_row)
  else Ok feature_row.

Definition feature_loops (projs : list Matrix) (config : PatchConfig)
  : Result RawVector :=
  foldlM (fun feature_row p =>
            foldlM (feature_cell projs config p) feature_row
                   (seq 0 (n_characters config)))
         (replicate (n_positions config * n_characters config) None)
         (seq 0 (n_positions config)).

Definition get_feature_row (V : Matrix) (config : PatchConfig)
    (group : CyclicGroupCharacters) : Result RawVector :=
  projs ← decompose_into_characters group V;
  feature_loops projs config.

(** [build_local_systems]: the body of its loop over the patches, then the
    function.  The accumulator is [result] with [current_col_offset]. *)
Definition add_local_system
    (acc : LocalSystemsResult * nat) (patch : Patch) : LM (LocalSystemsResult * nat) :=
  let '(result, current_col_offset) := acc in
  let n_samples := length (V_samples patch) in
  let n_weights := n_positions (config patch) * n_characters (config patch) in
  _ ← registry_assign (name patch) (config patch);
  group ← lift (new_CyclicGroupCharacters (n_positions (config patch)));
  systems ← lift (
    rows_b ← mapM (fun i =>
        Vi ← Vec_at (V_samples patch) i;
        feature_row ← get_feature_row Vi (config patch) group;
        Ti ← Vec_at (targets patch) i;
        t ← Mat_at Ti 0 0;
        Ok (feature_row, t))
      (seq 0 n_samples);
    let A_patch := mkMat n_samples n_weights (map fst rows_b) in
    let b_patch := map snd rows_b in
    Ok (matrices result ++ [A_patch], local_targets result ++ [b_patch]));
  mret (mkLocal systems.1 systems.2
          (<[name patch := current_col_offset]> (patch_offsets result))
          (<[name patch := n_weights]> (patch_n_weights result)),
        current_col_offset + n_weights).

Definition build_local_systems (problem : SheafProblem)
  : LM LocalSystemsResult :=
  '(result, _) ← foldlM add_local_system
                        (mkLocal [] [] ∅ ∅, 0) (patches problem);
  mret result.

(** [row.segment(offset, f.size()) = f.transpose()] and the same with [-=] on
    one row of the gluing matrix. *)
Definition segment_assign (row : RawVector) (offset : nat) (f : RawVector)
  : Result RawVector :=
  if offset + length f <=? length row
  then Ok (take offset row ++ f ++ drop (offset + length f) row)
  else Err (Undefined OutOfBounds).

Definition segment_subtract (row : RawVector) (offset : nat) (f : RawVector)
  : Result RawVector :=
  if offset + length f <=? length row then
    mid ← mapM (fun '(a, b) => x ← read_cell a; y ← read_cell b; Ok (Some (Csub x y)))
               (zip (take (length f) (drop offset row)) f);
    Ok (take offset row ++ mid ++ drop (offset + length f) row)
  else Err (Undefined OutOfBounds).

(** [build_gluing_system]: the body of its loop, which fills one row of the
    freshly allocated [A_gluing], then the function. *)
Definition gluing_row (local_info : LocalSystemsResult)
    (total_weights : nat) (gluing : GluingConstraint) : LM RawVector :=
  config1 ← registry_index (patch_1 gluing);
  config2 ← registry_index (patch_2 gluing);
  group1 ← lift (new_CyclicGroupCharacters (n_positions config1));
  group2 ← lift (new_CyclicGroupCharacters (n_positions config2));
  feature1 ← lift (get_feature_row (constraint_data_1 gluing) config1 group1);
  feature2 ← lift (get_feature_row (constraint_data_2 gluing) config2 group2);
  offset1 ← lift (map_at (patch_offsets local_info) (patch_1 gluing));
  offset2 ← lift (map_at (patch_offsets local_info) (patch_2 gluing));
  row ← lift (segment_assign (replicate total_weights None) offset1 feature1);
  lift (segment_subtract row offset2 feature2).

Definition build_gluing_system (problem : SheafProblem)
    (local_info : LocalSystemsResult) : LM GluingSystemResult :=
  if length (gluings problem) =? 0 then mret (mkGluingSystem (mkMat 0 0 []) [])
  else
    let total_weights :=
      map_fold (fun _ n_weights acc => acc + n_weights) 0 (patch_n_weights local_info) in
    gluing_rows ← mapM (gluing_row local_info total_weights)
                       (gluings problem);
    mret (mkGluingSystem
            (mkMat (length (gluings problem)) total_weights gluing_rows)
            (replicate (length (gluings problem)) C0)).

(** Linear algebra of [fit]. *)
Definition Madjoint (A : Matrix) : Matrix :=
  Mbuild (cols A) (rows A) (fun i j => Cconj (Mget A j i)).
Definition Mmul (A B : Matrix) : Matrix :=
  Mbuild (rows A) (cols B)
    (fun i j => Csum (fun k => Cmul (Mget A i k) (Mget B k j)) (cols A)).
Definition Mvec (A : Matrix) (v : Vector) : Vector :=
  map (fun i => Csum (fun k => Cmul (Mget A i k) (Vget v k)) (cols A))
      (seq 0 (rows A)).
Definition add_diagonal (A : Matrix) (lambda : real_t) : Matrix :=
  Mbuild (rows A) (cols A)
    (fun i j => if i =? j then Cadd (Mget A i j) (lambda, 0%R) else Mget A i j).
Definition Vsub (u v : Vector) : Vector :=
  map (fun '(x, y) => Csub x y) (zip u v).
Definition squaredNorm (v : Vector) : real_t :=
  foldr (fun x acc => (Cnorm2 x + acc)%R) 0%R v.
(** The same sum of [real^2 + imag^2] over coefficients that may be infinite
    or NaN. *)
Definition squaredNorm_double (v : list double_complex) : double :=
  foldr (fun x acc =>
           double_add (double_add (double_mul x.1 x.1) (double_mul x.2 x.2)) acc)
        (Finite 0) v.
(** Eigen's [a.dot(b)]: conjugate-linear in [a]. *)
Definition dot (a b : Vector) : complex_t :=
  foldr (fun '(x, y) acc => Cadd (Cmul (Cconj x) y) acc) C0 (zip a b).

Definition read_matrix (A : RawMatrix) : Result Matrix :=
  rs ← mapM (mapM read_cell) (coeffs A);
  Ok (mkMat (rows A) (cols A) rs).

(** [v.segment(offset, n)]. *)
Definition segment (v : Vector) (offset n : nat) : Result Vector :=
  if offset + n <=? length v then Ok (take n (drop offset v))
  else Err (Undefined OutOfBounds).

(** A row of a block written into the wider, freshly allocated [A_sheaf]. *)
Definition pad_row (total_cols : nat) (row : RawVector) : RawVector :=
  row ++ replicate (total_cols - length row) None.

(** Step 3 of [fit]: [A_sheaf] has the rows of all local matrices and of the
    gluing matrix and as many columns as the first local matrix; every block
    is written from column 0. *)
Definition assemble_global_system (local_result : LocalSystemsResult)
    (gluing_result : GluingSystemResult) : Result (RawMatrix * Vector) :=
  let local_rows := foldl (fun acc mat => acc + rows mat) 0 (matrices local_result) in
  let total_rows := local_rows + rows (A_gluing gluing_result) in
  let total_cols :=
    match matrices local_result with
    | [] => 0
    | mat :: _ => cols mat
    end in
  '(A_rows, b_sheaf) ← foldlM (fun '(A_rows, b_sheaf) i =>
      mat ← Vec_at (matrices local_result) i;
      vec ← Vec_at (local_targets local_result) i;
      if cols mat <=? total_cols
      then Ok (A_rows ++ map (pad_row total_cols) (coeffs mat), b_sheaf ++ vec)
      else Err (Undefined OutOfBounds))
    ([], []) (seq 0 (length (matrices local_result)));
  if 0 <? rows (A_gluing gluing_result) then
    if cols (A_gluing gluing_result) <=? total_cols
    then Ok (mkMat total_rows total_cols
               (A_rows ++ map (pad_row total_cols) (coeffs (A_gluing gluing_result))),
             b_sheaf ++ b_gluing gluing_result)
    else Err (Undefined OutOfBounds)
  else Ok (mkMat total_rows total_cols A_rows, b_sheaf).

(** [unpack_solution]. *)
Definition unpack_solution (w_solution : Vector)
    (local_info : LocalSystemsResult) (residual_error : double) : LM SheafSolution :=
  let converged := double_lt residual_error (Finite EPSILON) in
  sol_weights ←
    foldlM (fun (sol_weights : gmap string Matrix) '(name, offset) =>
        n_weights ← lift (map_at (patch_n_weights local_info) name);
        config ← registry_index name;
        weights_flat ← lift (segment w_solution offset n_weights);
        rs ← lift (mapM (fun p =>
                mapM (fun j => Vec_at weights_flat (p * n_characters config + j))
                     (seq 0 (n_characters config)))
              (seq 0 (n_positions config)));
        mret (<[name := mkMat (n_positions config) (n_characters config) rs]> sol_weights))
      ∅ (map_to_list (patch_offsets local_info));
  mret (mkSolution sol_weights residual_error converged).

Definition set_solution (sol : SheafSolution) : LM unit :=
  fun s => (Ok tt, mkLearner (verbose_ s) (fitted_ s) sol (patch_configs_ s)).
Definition set_fitted (b : bool) : LM unit :=
  fun s => (Ok tt, mkLearner (verbose_ s) b (solution_ s) (patch_configs_ s)).

Definition lambda_ridge : real_t := (1 / 10 ^ 8)%R.

(** Step 4 of [fit]: the regularised normal equations, solved by Eigen's
    Cholesky factorisation [A_H_A.llt().solve(A_H_b)], the parameter
    [llt_solve]. *)
Definition solve_normal_equations (llt_solve : Matrix -> Vector -> Vector)
    (A_sheaf : Matrix) (b_sheaf : Vector) : Vector :=
  let A_H_A := add_diagonal (Mmul (Madjoint A_sheaf) A_sheaf) lambda_ridge in
  let A_H_b := Mvec (Madjoint A_sheaf) b_sheaf in
  llt_solve A_H_A A_H_b.

(** [|A w - b|^2], the residual of a least-squares system in exact
    arithmetic. *)
Definition raw_residual (A_sheaf : Matrix) (w_solution b_sheaf : Vector) : real_t :=
  squaredNorm (Vsub (Mvec A_sheaf w_solution) b_sheaf).

(** The residual of [fit] from the vector [residuals] on: its squared norm,
    set to 0 when it compares below [EPSILON]. *)
Definition snap_residual (residuals : list double_complex) : double :=
  let residual_error := squaredNorm_double residuals in
  if double_lt residual_error (Finite EPSILON) then Finite 0 else residual_error.

(** [fit]. *)
Definition fit (llt_solve : Matrix -> Vector -> Vector)
    (problem : SheafProblem) : LM SheafSolution :=
  local_result ← build_local_systems problem;
  gluing_result ← build_gluing_system problem local_result;
  '(A_raw, b_sheaf) ← lift (assemble_global_system local_result gluing_result);
  A_sheaf ← lift (read_matrix A_raw);
  let w_solution := solve_normal_equations llt_solve A_sheaf b_sheaf in
  let residuals := Vsub (Mvec A_sheaf w_solution) b_sheaf in
  let residual_error := snap_residual (map of_complex_t residuals) in
  sol ← unpack_solution w_solution local_result residual_error;
  _ ← set_solution sol;
  _ ← set_fitted true;
  mret sol.

(** [predict]. *)
Definition predict (s : UnifiedSheafLearner)
    (patch_name : string) (V : Matrix) : Result Matrix :=
  if negb (fitted_ s) then Err NotFitted
  else
    config ← map_at (patch_configs_ s) patch_name;
    W ← map_at (weights (solution_ s)) patch_name;
    group ← new_CyclicGroupCharacters (n_positions config);
    feature_row ← get_feature_row V config group;
    rs ← mapM (fun p => mapM (fun j => Mat_at W p j) (seq 0 (n_characters config)))
              (seq 0 (n_positions config));
    let weights_flat := concat rs in
    features ← mapM read_cell feature_row;
    let prediction := dot features weights_flat in
    Ok (mkMat 1 1 [[prediction]]).

(** ** Quantities and invariants of the statements *)

(** [(1/n) * sum_k character(j, k) * conj(character(j', k))], every entry read
    through [character]. *)
Definition character_inner_product (g : CyclicGroupCharacters) (j j' : nat)
  : Result complex_t :=
  total ← foldlM (fun acc k =>
                    a ← character g j k;
                    b ← character g j' k;
                    Ok (Cadd acc (Cmul a (Cconj b))))
                 C0 (seq 0 (n_ g));
  Ok (Cdivr total (INR (n_ g))).

(** [reconstruct_from_characters(ones(n), decompose_into_characters(V))]. *)
Definition round_trip (USE_EIGEN3 : bool) (g : CyclicGroupCharacters) (V : Matrix)
  : Result Matrix :=
  projs ← decompose_into_characters g V;
  reconstruct_from_characters USE_EIGEN3 (replicate (n_ g) C1) projs.

(** The state of a feature row inside the loops of [get_feature_row] for
    [m] projections: it has [n_positions * n_characters] coefficients, and
    coefficient [(p, j)] has been written exactly when [p < t] and [j < m], or
    when [extra p j]. *)
Definition written_up_to (config : PatchConfig) (m t : nat)
    (extra : nat -> nat -> Prop) (fr : RawVector) : Prop :=
  length fr = n_positions config * n_characters config /\
  forall p j, p < n_positions config -> j < n_characters config ->
    exists cell, fr !! (p * n_characters config + j) = Some cell /\
      (is_Some cell <-> (p < t /\ j < m) \/ extra p j).

(** The names a problem mentions: of its patches and in its gluings. *)
Definition patch_names (problem : SheafProblem) (key : string) : Prop :=
  exists patch, patch ∈ patches problem /\ name patch = key.
Definition gluing_names (problem : SheafProblem) (key : string) : Prop :=
  exists gluing, gluing ∈ gluings problem /\
    (patch_1 gluing = key \/ patch_2 gluing = key).
Definition problem_names (problem : SheafProblem) (key : string) : Prop :=
  patch_names problem key \/ gluing_names problem key.

(** What a step of [fit] before its last two assignments may change in the
    learner: nothing but the registry, and in the registry only entries of
    the keys in [K], none of which is removed. *)
Definition frame (K : string -> Prop) (s s' : UnifiedSheafLearner) : Prop :=
  verbose_ s' = verbose_ s /\ fitted_ s' = fitted_ s /\ solution_ s' = solution_ s /\
  (forall key, is_Some (patch_configs_ s !! key) -> is_Some (patch_configs_ s' !! key)) /\
  (forall key, ~ K key -> patch_configs_ s' !! key = patch_configs_ s !! key).

(** [m] respects [frame K] from every state, and a value it returns
    satisfies [Q]. *)
Definition lm_frame {A} (K : string -> Prop) (Q : A -> Prop) (m : LM A) : Prop :=
  forall s, frame K s (m s).2 /\ forall a, (m s).1 = Ok a -> Q a.

(** The registry of [s] has, under [key], the configuration of a patch of the
    problem with that name. *)
Definition registered (problem : SheafProblem) (key : string)
    (s : UnifiedSheafLearner) : Prop :=
  exists patch, patch ∈ patches problem /\ name patch = key /\
    patch_configs_ s !! key = Some (config patch).

(** What the writes of [fit] make of the registry from [s] to [s']: an entry
    is as before, or it holds the configuration of a patch of its name, or it
    is the value-initialised configuration that [operator[]] inserted for a
    key without entry.  [lm_written m]: the registry changes so across [m],
    whether [m] returns or throws. *)
Definition registry_written (problem : SheafProblem)
    (s s' : UnifiedSheafLearner) : Prop :=
  forall key,
    patch_configs_ s' !! key = patch_configs_ s !! key \/
    registered problem key s' \/
    (patch_configs_ s !! key = None /\
     patch_configs_ s' !! key = Some (mkPatchConfig 0 0 0)).

Definition lm_written {A} (problem : SheafProblem) (m : LM A) : Prop :=
  forall s, registry_written problem s (m s).2.

(** ** Concrete inputs used below *)

(** The group of order [n], as the constructor builds it for [n > 0]. *)
Definition group_of_order (n : nat) : CyclicGroupCharacters :=
  mkGroup n (polar 1%R (2 * PI / INR n)%R)
    (compute_character_table n (polar 1%R (2 * PI / INR n)%R)).

(** The signal [1, 0] of length 2. *)
Definition signal_1_0 : Matrix := mkMat 2 1 [[C1]; [C0]].

(** The signal [1, 0, ..., 0] of length [L]. *)
Definition unit_signal (L : nat) : Matrix :=
  Mbuild L 1 (fun i _ => if i =? 0 then C1 else C0).

(** The signal [1] of length 1. *)
Definition signal_1 : Matrix := mkMat 1 1 [[C1]].

(** A patch of one position and one character. *)
Definition config_1_1 : PatchConfig := mkPatchConfig 1 1 1.

(** A stand-in for Eigen's Cholesky solve where a closed statement needs one:
    it returns the zero vector. *)
Definition null_solver : Matrix -> Vector -> Vector :=
  fun A _ => replicate (cols A) C0.

(** One patch with one position, one character, the sample [1] and the
    target [1]. *)
Definition patch_block_a_1 : Patch :=
  mkPatch "block_a" [signal_1] [signal_1] config_1_1.

Definition problem_single : SheafProblem := mkProblem [patch_block_a_1] [].

(** The same patch and a gluing constraint that names a patch, ["ghost"],
    which the problem does not have. *)
Definition problem_ghost : SheafProblem :=
  mkProblem [patch_block_a_1] [mkGluing "block_a" "ghost" signal_1 signal_1].

(** A patch whose group order is zero. *)
Definition problem_bad_order : SheafProblem :=
  mkProblem [mkPatch "p" [] [] (mkPatchConfig 0 0 0)] [].

(** Scenario A of the specification: patch ["block_a"] with 3 positions and 2
    characters, patch ["block_b"] with 2 positions and 2 characters, one
    gluing constraint between them.  The specification gives the samples and
    targets as numbers and not as matrices, so the signals are left open. *)
Definition scenario_A (Va Ta Vb Tb : list Matrix) (d1 d2 : Matrix) : SheafProblem :=
  mkProblem
    [mkPatch "block_a" Va Ta (mkPatchConfig 3 2 1);
     mkPatch "block_b" Vb Tb (mkPatchConfig 2 2 1)]
    [mkGluing "block_a" "block_b" d1 d2].

(** ** Quantities of the column layout *)

(** [n_weights] of [build_local_systems]: the number of columns of a patch. *)
Definition patch_width (patch : Patch) : nat :=
  n_positions (config patch) * n_characters (config patch).

(** The value of [current_col_offset] after the loop of [build_local_systems]
    has gone through the patches [ps]. *)
Definition col_offset_after (ps : list Patch) : nat :=
  sum_list (patch_width <$> ps).

(** The registry only grows from [s] to [s']: an entry of [s] is an entry of
    [s'] with the same configuration.  [lm_extends m]: the registry only
    grows across [m]. *)
Definition registry_extends (s s' : UnifiedSheafLearner) : Prop :=
  forall key cfg, patch_configs_ s !! key = Some cfg ->
                  patch_configs_ s' !! key = Some cfg.

Definition lm_extends {A} (m : LM A) : Prop :=
  forall s, registry_extends s (m s).2.

(** ** types.cpp: [BasicMatrix]

    The matrix of the build without [USE_EIGEN3]: a [std::vector] with
    the coefficients in row-major order.  The constructor value-initialises
    the coefficients ([zero]); [operator()] indexes [data_] without any
    check, and an index outside the vector is undefined behaviour. *)

Record BasicMatrix (T : Type) : Type := mkBasicMatrix {
  data_ : list T;
  rows_ : nat;
  cols_ : nat
}.
Arguments mkBasicMatrix {T} data_ rows_ cols_.
Arguments data_ {T} b.
Arguments rows_ {T} b.
Arguments cols_ {T} b.

(** [BasicMatrix(rows, cols)]. *)
Definition new_BasicMatrix {T} (zero : T) (rows cols : nat) : BasicMatrix T :=
  mkBasicMatrix (replicate (rows * cols) zero) rows cols.

(** [M(i, j)] read: [data_[i * cols_ + j]]. *)
Definition BasicMatrix_get {T} (M : BasicMatrix T) (i j : nat) : Result T :=
  Vec_at (data_ M) (i * cols_ M + j).

(** [M(i, j) = x]: the same cell written. *)
Definition BasicMatrix_set {T} (M : BasicMatrix T) (i j : nat) (x : T)
  : Result (BasicMatrix T) :=
  if i * cols_ M + j <? length (data_ M)
  then Ok (mkBasicMatrix (<[i * cols_ M + j := x]> (data_ M)) (rows_ M) (cols_ M))
  else Err (Undefined OutOfBounds).

(** ** edk2_bootloader/Kernel: sheaf.c

    The freestanding solver of the kernel.  [real_t] is read as a real number
    as above: sums, quotients and comparisons are those of exact arithmetic
    on finite values, and what depends on the rounding of a double (a mean
    that is not one of the targets it averages, say) is outside the model.
    [int] is read as an integer that stays within its range, a fixed-size
    array as the list of its elements.  A function that can run into
    undefined behaviour (an index outside an array) returns an [option],
    [None] standing for that behaviour. *)

Module Kernel.

Definition MAX_PATCHES : nat := 4.
Definition MAX_SAMPLES_PER_PATCH : nat := 8.

(** [real_t data[2][2]]. *)
Record Matrix2x2 : Type := mkMatrix2x2 {
  data_0_0 : R;
  data_0_1 : R;
  data_1_0 : R;
  data_1_1 : R
}.

Record PatchConfig : Type := mkPatchConfig {
  n_positions : Z;
  n_chars : Z
}.

Record Patch : Type := mkPatch {
  name : string;
  samples : list R;
  targets : list R;
  n_samples : Z;
  config : PatchConfig
}.

Record SheafProblem : Type := mkSheafProblem {
  patches : list Patch;
  n_patches : Z;
  residual : R;
  converged : Z
}.

(** [a[i]] for an array of [MAX] elements. *)
Definition array_at {T} (MAX : nat) (a : list T) (i : nat) : option T :=
  if i <? MAX then a !! i else None.

(** The values of [i] in [for (int i = 0; i < n; i++)]. *)
Definition int_range (n : Z) : list nat := seq 0 (Z.to_nat n).

Definition abs_val (x : R) : R := if Rlt_dec x 0 then (- x)%R else x.

(** [sqrt_approx]: ten Newton steps from [x / 2]. *)
Definition sqrt_approx (x : R) : R :=
  if Rle_dec x 0 then 0%R
  else Nat.iter 10 (fun guess => ((guess + x / guess) / 2)%R) (x / 2)%R.

(** [solve_2x2]: the status and the contents of [x] on return. *)
Definition solve_2x2 (A : Matrix2x2) (b x : R * R) : Z * (R * R) :=
  let det := (data_0_0 A * data_1_1 A - data_0_1 A * data_1_0 A)%R in
  if Rlt_dec (abs_val det) (1 / 10 ^ 10) then ((-1)%Z, x)
  else (0%Z, (((b.1 * data_1_1 A - b.2 * data_0_1 A) / det)%R,
              ((data_0_0 A * b.2 - data_1_0 A * b.1) / det)%R)).

(** The body of the loop of [sheaf_solve] over the patches: the mean of the
    targets, then the sum of the squared deviations from it, both in exact
    arithmetic. *)
Definition patch_error (patch : Patch) : option R :=
  sum ← foldlM (fun mean_target i =>
                  t ← array_at MAX_SAMPLES_PER_PATCH (targets patch) i;
                  Some (mean_target + t)%R)
               0%R (int_range (n_samples patch));
  let mean_target := (sum / IZR (n_samples patch))%R in
  foldlM (fun patch_error i =>
            t ← array_at MAX_SAMPLES_PER_PATCH (targets patch) i;
            let diff := (t - mean_target)%R in
            Some (patch_error + diff * diff)%R)
         0%R (int_range (n_samples patch)).

(** [sheaf_solve]: the value returned and the problem on return. *)
Definition sheaf_solve (problem : SheafProblem) : option (Z * SheafProblem) :=
  total_error ← foldlM (fun total_error p =>
                          patch ← array_at MAX_PATCHES (patches problem) p;
                          e ← patch_error patch;
                          Some (total_error + e)%R)
                       0%R (int_range (n_patches problem));
  let residual := sqrt_approx total_error in
  let converged := if Rlt_dec residual (1 / 10 ^ 6) then 1%Z else 0%Z in
  Some (0%Z, mkSheafProblem (patches problem) (n_patches problem) residual converged).

(** [sheaf_demo_register_allocation]: the fields it assigns; the others keep
    what the memory held. *)
Definition sheaf_demo_register_allocation (problem : SheafProblem) : SheafProblem :=
  let block_a (old : Patch) :=
    mkPatch "block_a"
      (<[2 := 3%R]> (<[1 := 2%R]> (<[0 := 1%R]> (samples old))))
      (<[2 := 3%R]> (<[1 := 2%R]> (<[0 := 1%R]> (targets old))))
      3 (mkPatchConfig 3 2) in
  let block_b (old : Patch) :=
    mkPatch "block_b"
      (<[1 := 4%R]> (<[0 := 2%R]> (samples old)))
      (<[1 := 1%R]> (<[0 := 2%R]> (targets old)))
      2 (mkPatchConfig 2 2) in
  mkSheafProblem (alter block_b 1 (alter block_a 0 (patches problem)))
                 2 (residual problem) (converged problem).

(** The targets that [sheaf_solve] reads in a patch, their mean, the sum of
    their squared deviations from it, and the sum of these over the patches
    that are read. *)
Definition targets_read (patch : Patch) : list R :=
  take (Z.to_nat (n_samples patch)) (targets patch).
Definition target_mean (patch : Patch) : R :=
  (foldl Rplus 0 (targets_read patch) / IZR (n_samples patch))%R.
Definition squared_deviation (patch : Patch) : R :=
  foldl (fun acc t => (acc + (t - target_mean patch) * (t - target_mean patch))%R)
        0%R (targets_read patch).
Definition patches_read (problem : SheafProblem) : list Patch :=
  take (Z.to_nat (n_patches problem)) (patches problem).
Definition total_error (problem : SheafProblem) : R :=
  foldl (fun acc patch => (acc + squared_deviation patch)%R) 0%R (patches_read problem).

(** A problem whose arrays have their declared sizes. *)
Definition allocated (problem : SheafProblem) : Prop :=
  length (patches problem) = MAX_PATCHES /\
  Forall (fun patch => length (samples patch) = MAX_SAMPLES_PER_PATCH /\
                       length (targets patch) = MAX_SAMPLES_PER_PATCH)
         (patches problem).

(** *** kmain.c

    A C string is a list of characters in memory, read up to the first
    [NUL]; the memory after the list holds [NUL].  What the console sends
    through the UART is the list of the characters passed to [uart_putc];
    what it receives is the list of the characters that [uart_getc] returns.
    The polling loops on the UART status register are not modelled. *)

Definition NUL : Ascii.ascii := Ascii.ascii_of_nat 0.
Definition BS : Ascii.ascii := Ascii.ascii_of_nat 8.
Definition LF : Ascii.ascii := Ascii.ascii_of_nat 10.
Definition CR : Ascii.ascii := Ascii.ascii_of_nat 13.
Definition SPACE : Ascii.ascii := Ascii.ascii_of_nat 32.
Definition DEL : Ascii.ascii := Ascii.ascii_of_nat 127.

(** A string literal of the source without its escape sequences, and the
    literal followed by ['\n']. *)
Definition lit (s : string) : list Ascii.ascii := String.list_ascii_of_string s.
Definition ln (s : string) : list Ascii.ascii := lit s ++ [LF].

(** [*s], [s + 1] and [*(unsigned char * )s]. *)
Definition deref (s : list Ascii.ascii) : Ascii.ascii := hd NUL s.
Definition next (s : list Ascii.ascii) : list Ascii.ascii := tl s.
Definition uchar (c : Ascii.ascii) : Z := Z.of_nat (Ascii.nat_of_ascii c).

(** [uart_puts]: the characters sent, a ['\r'] before every ['\n']. *)
Fixpoint uart_puts (s : list Ascii.ascii) : list Ascii.ascii :=
  match s with
  | c :: s' =>
      if Ascii.eqb c NUL then []
      else if Ascii.eqb c LF then CR :: c :: uart_puts s'
      else c :: uart_puts s'
  | [] => []
  end.

Fixpoint str_cmp (s1 s2 : list Ascii.ascii) : Z :=
  match s1 with
  | c1 :: s1' =>
      if negb (Ascii.eqb c1 NUL) && Ascii.eqb c1 (deref s2)
      then str_cmp s1' (next s2)
      else (uchar c1 - uchar (deref s2))%Z
  | [] => (uchar NUL - uchar (deref s2))%Z
  end.

Fixpoint str_len (s : list Ascii.ascii) : Z :=
  match s with
  | c :: s' => if Ascii.eqb c NUL then 0%Z else (str_len s' + 1)%Z
  | [] => 0%Z
  end.

Definition INT_MAX : Z := 2147483647.

(** [(int) x]: the fraction is dropped; a value outside the range of [int]
    makes the conversion undefined. *)
Definition int_of_double (x : R) : option Z :=
  let z := if Rle_dec 0 x then Int_part x else (- Int_part (- x))%Z in
  if ((- INT_MAX - 1 <=? z) && (z <=? INT_MAX))%Z then Some z else None.

(** The loop [while (temp > 0) { buf[idx++] = '0' + (temp % 10); temp /= 10; }]:
    [buf] is the list of the characters written so far and [room] the
    number of cells of the array that are left; writing without room is out
    of the array. *)
Fixpoint print_digits (room : nat) (temp : Z) (buf : list Ascii.ascii) : option (list Ascii.ascii) :=
  if (0 <? temp)%Z then
    match room with
    | 0 => None
    | S room' =>
        print_digits room' (Z.quot temp 10)
          (buf ++ [Ascii.ascii_of_nat (48 + Z.to_nat (Z.rem temp 10))])
    end
  else Some buf.

(** [process_command]: the characters it sends.  [memory] is what the
    storage of the local variable [problem] holds on entry. *)
Definition process_command (memory : SheafProblem) (cmd : list Ascii.ascii)
  : option (list Ascii.ascii) :=
  if (str_cmp cmd (lit "help") =? 0)%Z then
    Some (uart_puts (ln "BonsaiOS Commands:") ++
          uart_puts (ln "  help   - Show this help") ++
          uart_puts (ln "  echo   - Echo back input") ++
          uart_puts (ln "  sheaf  - Run sheaf solver demo") ++
          uart_puts (ln "  status - Show system status"))
  else if (str_cmp cmd (lit "echo") =? 0)%Z then
    Some (uart_puts (lit "Echo: ") ++ uart_puts cmd ++ uart_puts (ln ""))
  else if (str_cmp cmd (lit "sheaf") =? 0)%Z then
    let problem := sheaf_demo_register_allocation memory in
    '(result, problem) ← sheaf_solve problem;
    report ←
      (if (result =? 0)%Z then
         residual_int ← int_of_double (residual problem * 1000);
         digits ←
           (if (residual_int =? 0)%Z then Some (uart_puts (lit "0.000"))
            else
              buf ← (if (residual_int =? 0)%Z then Some (lit "0")
                     else print_digits 16 residual_int []);
              Some (rev buf));
         Some (uart_puts (ln "  [OK] Solver converged") ++
               uart_puts (lit "  Residual (obstruction): ") ++
               digits ++
               uart_puts (ln "") ++
               (if (converged problem =? 0)%Z
                then uart_puts (ln "  [WARN] Non-optimal (constraints conflict)")
                else uart_puts (ln "  [OK] Optimal allocation found!")))
       else Some (uart_puts (ln "  [ERR] Solver failed")));
    Some (uart_puts (LF :: ln "=== Sheaf Solver Demo: Register Allocation ===" ++ [LF]) ++
          uart_puts (ln "Problem: Allocate registers across 2 basic blocks") ++
          uart_puts (ln "  Patch 1 (block_a): 3 variables (x,y,z)") ++
          uart_puts (ln "  Patch 2 (block_b): 2 variables (y,w)") ++
          uart_puts (ln "  Gluing: Variable 'y' shared between blocks" ++ [LF]) ++
          uart_puts (ln "Running algebraic solver...") ++
          report ++
          uart_puts (LF :: ln "This demonstrates wreath-sheaf algebraic OS design.") ++
          uart_puts (ln "Future: GPU-accelerated scheduling & compilation."))
  else if (str_cmp cmd (lit "status") =? 0)%Z then
    Some (uart_puts (ln "System Status:") ++
          uart_puts (ln "  Kernel: Running") ++
          uart_puts (ln "  UART: Active") ++
          uart_puts (ln "  Wreath-sheaf: Initialized"))
  else if (0 <? str_len cmd)%Z then
    Some (uart_puts (lit "Unknown command: '") ++
          uart_puts cmd ++
          uart_puts (ln "'") ++
          uart_puts (ln "Type 'help' for available commands."))
  else Some [].

(** The line editor of [kmain], from one character received to the end of
    the line: it returns [cmd_buffer], the characters not yet received and
    the characters sent, or it waits for a character that does not come. *)
Inductive LineResult : Type :=
| Line (cmd_buffer : list Ascii.ascii) (rest : list Ascii.ascii) (out : list Ascii.ascii)
| Waiting (out : list Ascii.ascii).

Definition CMD_BUFFER_SIZE : nat := 64.

Fixpoint read_line (input : list Ascii.ascii) (cmd_buffer : list Ascii.ascii) (cmd_idx : nat)
    (out : list Ascii.ascii) : option LineResult :=
  match input with
  | [] => Some (Waiting out)
  | c :: input' =>
      if Ascii.eqb c CR || Ascii.eqb c LF then
        if cmd_idx <? CMD_BUFFER_SIZE
        then Some (Line (<[cmd_idx := NUL]> cmd_buffer) input' (out ++ uart_puts (ln "")))
        else None
      else if Ascii.eqb c DEL || Ascii.eqb c BS then
        if 0 <? cmd_idx
        then read_line input' cmd_buffer (cmd_idx - 1)
               (out ++ uart_puts [BS; SPACE; BS])
        else read_line input' cmd_buffer cmd_idx out
      else if (32 <=? Ascii.nat_of_ascii c) && (Ascii.nat_of_ascii c <? 127) && (cmd_idx <? 63) then
        if cmd_idx <? CMD_BUFFER_SIZE
        then read_line input' (<[cmd_idx := c]> cmd_buffer) (S cmd_idx) (out ++ [c])
        else None
      else read_line input' cmd_buffer cmd_idx out
  end.

(** The banner of [kmain]. *)
Definition banner : list Ascii.ascii :=
  uart_puts [LF; LF] ++
  uart_puts (ln "       _") ++
  uart_puts (ln "      /\") ++
  uart_puts (ln "     /**\     BonsaiOS Kernel v0.2") ++
  uart_puts (ln "    /****\    Wreath-sheaf: algebraic OS") ++
  uart_puts (ln "   /******\") ++
  uart_puts (ln "  /********\") ++
  uart_puts (ln "     ||") ++
  uart_puts [LF] ++
  uart_puts (ln "  [OK] Kernel running") ++
  uart_puts (ln "  [OK] UART initialized") ++
  uart_puts (ln "  [OK] Console ready") ++
  uart_puts (LF :: ln "Type 'help' for commands.").

(** The command loop of [kmain] on the characters [input]: the characters
    sent until the console waits for a character that does not come.  Every
    turn of the loop receives at least one character, so [length input + 1]
    turns exhaust the input; [OutOfTurns] is the answer for fewer. *)
Inductive Console : Type :=
| WaitingForInput (out : list Ascii.ascii)
| OutOfTurns.

Fixpoint command_loop (turns : nat) (memory : SheafProblem)
    (cmd_buffer : list Ascii.ascii) (input : list Ascii.ascii) (out : list Ascii.ascii)
  : option Console :=
  match turns with
  | 0 => Some OutOfTurns
  | S turns' =>
      line ← read_line input cmd_buffer 0 (out ++ uart_puts (LF :: lit "bonsai> "));
      match line with
      | Waiting out' => Some (WaitingForInput out')
      | Line cmd_buffer' rest out' =>
          sent ← process_command memory cmd_buffer';
          command_loop turns' memory cmd_buffer' rest (out' ++ sent)
      end
  end.

Definition kmain (memory : SheafProblem) (cmd_buffer : list Ascii.ascii) (input : list Ascii.ascii)
  : option Console :=
  command_loop (S (length input)) memory cmd_buffer input banner.

(** The characters of a C string: those before the first [NUL]. *)
Fixpoint c_string (s : list Ascii.ascii) : list Ascii.ascii :=
  match s with
  | c :: s' => if Ascii.eqb c NUL then [] else c :: c_string s'
  | [] => []
  end.

(** The value of the decimal digits [buf], lowest digit first. *)
Definition decimal_value (buf : list Ascii.ascii) : Z :=
  foldr (fun c acc => (Z.of_nat (Ascii.nat_of_ascii c) - 48 + 10 * acc)%Z) 0%Z buf.

Definition printable (c : Ascii.ascii) : Prop := 32 <= Ascii.nat_of_ascii c < 127.

End Kernel.

(** A problem in zero-filled memory, and the problem of the demo written
    into it. *)
Definition blank_patch : Kernel.Patch :=
  Kernel.mkPatch "" (replicate Kernel.MAX_SAMPLES_PER_PATCH 0%R)
    (replicate Kernel.MAX_SAMPLES_PER_PATCH 0%R) 0 (Kernel.mkPatchConfig 0 0).
Definition blank_problem : Kernel.SheafProblem :=
  Kernel.mkSheafProblem (replicate Kernel.MAX_PATCHES blank_patch) 0 0%R 0.

(** ** Properties of [rotate] *)

Lemma rotate_zero (V : Matrix) : rotate V 0 = Ok V.
Proof. reflexivity. Qed.

Lemma rotate_Ok_inv (V R : Matrix) (k : nat) :
  rotate V k = Ok R ->
  k = 0 /\ R = V \/
  k <> 0 /\ rows V <> 0 /\
  R = mkMat (rows V) (cols V)
        (map (fun i => Mrow V ((i + rows V - k mod rows V) mod rows V))
             (seq 0 (rows V))).
Proof.
  unfold rotate. destruct (Nat.eqb_spec k 0) as [->|Hk].
  - intros [= <-]. by left.
  - destruct (Nat.eqb_spec (rows V) 0) as [Hr|Hr]; [done|].
    intros [= <-]. by right.
Qed.

Lemma Mrow_map_seq {T} (r c : nat) (f : nat -> list T) (i : nat) :
  i < r -> Mrow (mkMat r c (map f (seq 0 r))) i = f i.
Proof.
  intros Hi. unfold Mrow. simpl.
  change (map f (seq 0 r)) with (f <$> seq 0 r).
  by rewrite list_lookup_fmap, lookup_seq_lt.
Qed.

(** C10. [rotate V k] returns a matrix exactly when [rows V > 0] or [k = 0]
    (otherwise it reaches [k % 0]); the matrix returned has the shape of [V],
    its row [i] is row [(i + rows V - k mod rows V) mod rows V] of [V], and
    for [k = 0] it is [V] itself. *)
Theorem rotate_spec (V : Matrix) (k : nat) :
  (is_Ok (rotate V k) <-> (0 < rows V \/ k = 0)) /\
  (forall R, rotate V k = Ok R ->
     rows R = rows V /\ cols R = cols V /\
     forall i, i < rows V ->
       Mrow R i = Mrow V ((i + rows V - k mod rows V) mod rows V)) /\
  (k = 0 -> rotate V k = Ok V).
Proof.
  split; [|split].
  - split.
    + intros [R HR]. apply rotate_Ok_inv in HR as [[-> _]|(_ & Hr & _)]; [by right|left; lia].
    + unfold rotate, is_Ok. intros [Hr| ->]; [|eauto].
      destruct (Nat.eqb_spec k 0); [eauto|].
      destruct (Nat.eqb_spec (rows V) 0); [lia|eauto].
  - intros R HR. apply rotate_Ok_inv in HR as [[-> ->]|(Hk & Hr & ->)].
    + repeat split. intros i Hi. rewrite Nat.Div0.mod_0_l, Nat.sub_0_r.
      f_equal. rewrite <- (Nat.mul_1_l (rows V)) at 1.
      rewrite Nat.Div0.mod_add. by rewrite Nat.mod_small.
    + simpl. repeat split. intros i Hi. by rewrite Mrow_map_seq.
  - intros ->. apply rotate_zero.
Qed.

(** ** Complex arithmetic *)

Section ComplexAlgebra.
Local Open Scope R_scope.

Lemma complex_eq (x y : complex_t) : x.1 = y.1 -> x.2 = y.2 -> x = y.
Proof. destruct x, y; simpl; congruence. Qed.

Ltac cring := apply complex_eq; simpl; try ring.

Lemma Cadd_0_l z : Cadd C0 z = z.
Proof. cring. Qed.
Lemma Cadd_0_r z : Cadd z C0 = z.
Proof. cring. Qed.
Lemma Cadd_comm x y : Cadd x y = Cadd y x.
Proof. cring. Qed.
Lemma Cadd_assoc x y z : Cadd x (Cadd y z) = Cadd (Cadd x y) z.
Proof. cring. Qed.
Lemma Cmul_1_l z : Cmul C1 z = z.
Proof. cring. Qed.
Lemma Cmul_1_r z : Cmul z C1 = z.
Proof. cring. Qed.
Lemma Cmul_0_l z : Cmul C0 z = C0.
Proof. cring. Qed.
Lemma Cmul_0_r z : Cmul z C0 = C0.
Proof. cring. Qed.
Lemma Cmul_comm x y : Cmul x y = Cmul y x.
Proof. cring. Qed.
Lemma Cmul_assoc x y z : Cmul x (Cmul y z) = Cmul (Cmul x y) z.
Proof. cring. Qed.
Lemma Cmul_add_distr_l x y z : Cmul x (Cadd y z) = Cadd (Cmul x y) (Cmul x z).
Proof. cring. Qed.
Lemma Cmul_add_distr_r x y z : Cmul (Cadd x y) z = Cadd (Cmul x z) (Cmul y z).
Proof. cring. Qed.
Lemma Cdivr_add x y d : Cdivr (Cadd x y) d = Cadd (Cdivr x d) (Cdivr y d).
Proof. apply complex_eq; simpl; unfold Rdiv; ring. Qed.
Lemma Cdivr_mul_r x y d : Cdivr (Cmul x y) d = Cmul x (Cdivr y d).
Proof. apply complex_eq; simpl; unfold Rdiv; ring. Qed.

(** A product of complex numbers vanishes only if a factor does. *)
Lemma Cmul_integral x y : Cmul x y = C0 -> x <> C0 -> y = C0.
Proof.
  destruct x as [a b], y as [c d]. unfold Cmul, C0. simpl.
  intros [= H1 H2] Hx.
  assert (Hn : 0 < a * a + b * b).
  { destruct (Req_dec a 0) as [->|Ha]; [|nra].
    destruct (Req_dec b 0) as [->|Hb]; [by destruct Hx|nra]. }
  assert (Hc : c * (a * a + b * b) = 0).
  { replace (c * (a * a + b * b))
      with (a * (a * c - b * d) + b * (a * d + b * c)) by ring.
    rewrite H1, H2. ring. }
  assert (Hd : d * (a * a + b * b) = 0).
  { replace (d * (a * a + b * b))
      with (a * (a * d + b * c) - b * (a * c - b * d)) by ring.
    rewrite H1, H2. ring. }
  apply Rmult_integral in Hc as [Hc|Hc], Hd as [Hd|Hd]; try lra.
  by subst.
Qed.

Lemma polar_add a b : Cmul (polar 1 a) (polar 1 b) = polar 1 (a + b).
Proof.
  unfold polar. apply complex_eq; simpl; [rewrite cos_plus|rewrite sin_plus]; ring.
Qed.

Lemma polar_0 : polar 1 0 = C1.
Proof. apply complex_eq; simpl; rewrite ?cos_0, ?sin_0; ring. Qed.

Lemma polar_conj a : Cconj (polar 1 a) = polar 1 (- a).
Proof.
  apply complex_eq; simpl; rewrite ?cos_neg, ?sin_neg; ring.
Qed.

(** De Moivre: [pow(polar(1, theta), m) = polar(1, m * theta)]. *)
Lemma Cpow_polar theta m : Cpow (polar 1 theta) m = polar 1 (INR m * theta).
Proof.
  induction m as [|m IH].
  - simpl. rewrite Rmult_0_l. by rewrite polar_0.
  - change (Cpow (polar 1 theta) (S m))
      with (Cmul (polar 1 theta) (Cpow (polar 1 theta) m)).
    rewrite IH, polar_add, S_INR. f_equal; ring.
Qed.

Lemma polar_period (k : nat) : polar 1 (INR k * (2 * PI)) = C1.
Proof.
  replace (INR k * (2 * PI)) with (0 + 2 * INR k * PI) by ring.
  apply complex_eq; simpl; rewrite ?cos_period, ?sin_period, ?cos_0, ?sin_0; ring.
Qed.

Lemma polar_period_diff (a b : nat) : polar 1 ((INR a - INR b) * (2 * PI)) = C1.
Proof.
  replace ((INR a - INR b) * (2 * PI))
    with (INR a * (2 * PI) + - (INR b * (2 * PI))) by ring.
  rewrite <- polar_add, <- polar_conj, !polar_period. cring.
Qed.

(** Strictly between two full turns the cosine stays below 1. *)
Lemma cos_lt_1 x : 0 < x -> x < 2 * PI -> cos x < 1.
Proof.
  intros H0 H1. replace x with (2 * (x / 2)) by field.
  rewrite cos_2a_sin.
  assert (Hs : 0 < sin (x / 2)) by (apply sin_gt_0; lra).
  nra.
Qed.

Lemma polar_neq_1 x : 0 < Rabs x -> Rabs x < 2 * PI -> polar 1 x <> C1.
Proof.
  intros H0 H1. unfold polar, C1. intros [= Hc _].
  assert (cos (Rabs x) < 1) by (by apply cos_lt_1).
  unfold Rabs in *. destruct (Rcase_abs x); [rewrite cos_neg in *|]; lra.
Qed.

Lemma Csum_ext f g n : (forall k, (k < n)%nat -> f k = g k) -> Csum f n = Csum g n.
Proof.
  induction n as [|n IH]; intros H; [done|].
  simpl. rewrite IH, H; auto.
Qed.

Lemma Csum_const_0 n : Csum (fun _ => C0) n = C0.
Proof. induction n as [|n IH]; [done|]. simpl. rewrite IH. cring. Qed.

Lemma Csum_const_1 n : Csum (fun _ => C1) n = (INR n, 0).
Proof.
  induction n as [|n IH]; [done|].
  change (Csum (fun _ => C1) (S n)) with (Cadd (Csum (fun _ => C1) n) C1).
  rewrite IH, S_INR. cring.
Qed.

Lemma Csum_add f g n : Csum (fun k => Cadd (f k) (g k)) n = Cadd (Csum f n) (Csum g n).
Proof. induction n as [|n IH]; simpl; [cring|]. rewrite IH. cring. Qed.

Lemma Csum_scale c f n : Csum (fun k => Cmul c (f k)) n = Cmul c (Csum f n).
Proof. induction n as [|n IH]; simpl; [cring|]. rewrite IH. cring. Qed.

Lemma Csum_divr f d n : Csum (fun k => Cdivr (f k) d) n = Cdivr (Csum f n) d.
Proof.
  induction n as [|n IH]; simpl.
  - apply complex_eq; simpl; unfold Rdiv; ring.
  - rewrite IH. by rewrite Cdivr_add.
Qed.

Lemma Csum_swap (f : nat -> nat -> complex_t) n m :
  Csum (fun i => Csum (fun j => f i j) m) n = Csum (fun j => Csum (fun i => f i j) n) m.
Proof.
  induction n as [|n IH]; simpl.
  - by rewrite Csum_const_0.
  - rewrite IH. by rewrite <- Csum_add.
Qed.

(** Only the term of index [k0] survives. *)
Lemma Csum_single f n k0 :
  (k0 < n)%nat -> (forall k, (k < n)%nat -> k <> k0 -> f k = C0) -> Csum f n = f k0.
Proof.
  induction n as [|n IH]; intros Hk H; [lia|]. simpl.
  destruct (decide (k0 = n)) as [->|Hne].
  - rewrite (Csum_ext f (fun _ => C0)), Csum_const_0; [cring|].
    intros k Hkn. apply H; lia.
  - rewrite IH, (H n); [cring|lia|done|lia|]. intros k ? ?. apply H; [lia|done].
Qed.

(** The geometric sum telescopes. *)
Lemma Csum_geometric z n :
  Cmul (Csub z C1) (Csum (Cpow z) n) = Csub (Cpow z n) C1.
Proof.
  induction n as [|n IH]; simpl; [cring|].
  rewrite Cmul_add_distr_l, IH. cring.
Qed.

Lemma Csub_eq_0 x y : Csub x y = C0 -> x = y.
Proof.
  destruct x, y. unfold Csub, C0. simpl. intros [= H1 H2]. f_equal; lra.
Qed.

(** The powers of a root of unity other than 1 sum to zero. *)
Lemma Csum_root_of_unity z n : Cpow z n = C1 -> z <> C1 -> Csum (Cpow z) n = C0.
Proof.
  intros Hn Hz. apply (Cmul_integral (Csub z C1)).
  - rewrite Csum_geometric, Hn. cring.
  - intros H. by apply Hz, Csub_eq_0.
Qed.

(** The sum of [n] consecutive powers of [polar(1, d * 2 pi / n)], for an
    integer [d] = [a - b] with [|d| < n]. *)
Lemma Csum_characters (n a b : nat) :
  (a < n)%nat -> (b < n)%nat ->
  Csum (fun k => polar 1 (INR k * ((INR a - INR b) * (2 * PI / INR n)))) n
  = if decide (a = b) then (INR n, 0) else C0.
Proof.
  intros Ha Hb.
  assert (Hn : 0 < INR n) by (apply lt_0_INR; lia).
  rewrite (Csum_ext _ (Cpow (polar 1 ((INR a - INR b) * (2 * PI / INR n))))).
  2:{ intros k _. by rewrite Cpow_polar. }
  destruct (decide (a = b)) as [->|Hab].
  - rewrite (Csum_ext _ (fun _ => C1)); [apply Csum_const_1|].
    intros k _. rewrite Cpow_polar.
    replace (INR k * ((INR b - INR b) * (2 * PI / INR n))) with 0 by ring.
    apply polar_0.
  - apply Csum_root_of_unity.
    + rewrite Cpow_polar.
      replace (INR n * ((INR a - INR b) * (2 * PI / INR n)))
        with ((INR a - INR b) * (2 * PI)) by (field; lra).
      apply polar_period_diff.
    + assert (HPI := PI_RGT_0).
      assert (Hd : 0 < Rabs (INR a - INR b) < INR n).
      { apply lt_INR in Ha, Hb. assert (0 <= INR a) by apply pos_INR.
        assert (0 <= INR b) by apply pos_INR.
        assert (INR a <> INR b) by (intros ?%INR_eq; done).
        unfold Rabs. destruct (Rcase_abs _); lra. }
      assert (Hq : 0 < 2 * PI / INR n) by (apply Rdiv_lt_0_compat; lra).
      apply polar_neq_1; rewrite Rabs_mult, (Rabs_pos_eq (2 * PI / INR n)) by lra.
      * apply Rmult_lt_0_compat; lra.
      * replace (2 * PI) with (INR n * (2 * PI / INR n)) at 2 by (field; lra).
        apply Rmult_lt_compat_r; lra.
Qed.

End ComplexAlgebra.

(** ** Matrices built from their coefficients *)

Lemma Mrow_Mbuild {T} r c (f : nat -> nat -> T) i :
  i < r -> Mrow (Mbuild r c f) i = map (f i) (seq 0 c).
Proof. intros Hi. unfold Mbuild. by rewrite Mrow_map_seq. Qed.

Lemma lookup_map_seq {T} (f : nat -> T) c j : j < c -> map f (seq 0 c) !! j = Some (f j).
Proof.
  intros Hj. change (map f (seq 0 c)) with (f <$> seq 0 c).
  by rewrite list_lookup_fmap, lookup_seq_lt.
Qed.

Lemma Mget_Mbuild r c f i j : i < r -> j < c -> Mget (Mbuild r c f) i j = f i j.
Proof.
  intros Hi Hj. unfold Mget. by rewrite Mrow_Mbuild, lookup_map_seq.
Qed.

Lemma Mat_at_Mbuild {T} r c (f : nat -> nat -> T) i j :
  i < r -> j < c -> Mat_at (Mbuild r c f) i j = Ok (f i j).
Proof.
  intros Hi Hj. unfold Mat_at.
  rewrite Mrow_Mbuild, lookup_map_seq by done. simpl.
  apply Nat.ltb_lt in Hi, Hj. by rewrite Hi, Hj.
Qed.

Lemma Mbuild_wf {T} r c (f : nat -> nat -> T) : Mat_wf (Mbuild r c f).
Proof.
  split; simpl.
  - by rewrite length_map, length_seq.
  - apply Forall_forall. intros row [i [-> _]]%list_elem_of_fmap.
    by rewrite length_map, length_seq.
Qed.

(** Well-formed matrices of one shape with the same coefficients are equal. *)
Lemma Meq_eq (A B : Matrix) : Mat_wf A -> Mat_wf B -> Meq A B -> A = B.
Proof.
  destruct A as [ra ca la], B as [rb cb lb].
  intros [HA1 HA2] [HB1 HB2] (Hr & Hc & H). simpl in *.
  destruct Hr, Hc. f_equal. apply list_eq. intros i.
  destruct (decide (i < ra)) as [Hi|Hi].
  2:{ rewrite !lookup_ge_None_2; [done|lia|lia]. }
  destruct (lookup_lt_is_Some_2 la i) as [x Hx]; [lia|].
  destruct (lookup_lt_is_Some_2 lb i) as [y Hy]; [lia|].
  rewrite Hx, Hy. f_equal.
  assert (Hlx : length x = ca).
  { eapply Forall_forall in HA2; [done|]. by eapply list_elem_of_lookup_2. }
  assert (Hly : length y = ca).
  { eapply Forall_forall in HB2; [done|]. by eapply list_elem_of_lookup_2. }
  apply list_eq. intros j.
  destruct (decide (j < ca)) as [Hj|Hj].
  2:{ rewrite !lookup_ge_None_2; [done|lia|lia]. }
  specialize (H i j Hi Hj). unfold Mget, Mrow in H. simpl in H.
  rewrite Hx, Hy in H. simpl in H.
  destruct (lookup_lt_is_Some_2 x j) as [u Hu]; [lia|].
  destruct (lookup_lt_is_Some_2 y j) as [v Hv]; [lia|].
  rewrite Hu, Hv in *. simpl in H. by subst.
Qed.

(** ** Loops *)

Lemma foldlM_app {A B} (f : A -> B -> Result A) a l1 l2 :
  foldlM f a (l1 ++ l2) = a' ← foldlM f a l1; foldlM f a' l2.
Proof.
  revert a. induction l1 as [|x l1 IH]; intros a; [done|].
  simpl. destruct (f a x); [apply IH|done].
Qed.

(** A loop that adds [t k] to its accumulator leaves the sum of the [t k]. *)
Lemma foldlM_Csum (f : complex_t -> nat -> Result complex_t) t n a :
  (forall k acc, k < n -> f acc k = Ok (Cadd acc (t k))) ->
  foldlM f a (seq 0 n) = Ok (Cadd a (Csum t n)).
Proof.
  induction n as [|n IH]; intros H.
  - simpl. by rewrite Cadd_0_r.
  - rewrite seq_S, foldlM_app, IH by (intros; apply H; lia). simpl.
    rewrite H by lia. simpl. by rewrite Cadd_assoc.
Qed.

(** ** The character table *)

Lemma new_CyclicGroupCharacters_Ok n :
  0 < n ->
  new_CyclicGroupCharacters n
  = Ok (mkGroup n (polar 1 (2 * PI / INR n))
          (compute_character_table n (polar 1 (2 * PI / INR n)))).
Proof. intros Hn. unfold new_CyclicGroupCharacters. by destruct n; [lia|]. Qed.

Lemma new_CyclicGroupCharacters_inv n g :
  new_CyclicGroupCharacters n = Ok g ->
  0 < n /\ g = mkGroup n (polar 1 (2 * PI / INR n))
                 (compute_character_table n (polar 1 (2 * PI / INR n))).
Proof.
  unfold new_CyclicGroupCharacters. destruct n; simpl; [done|].
  intros [= <-]. split; [lia|done].
Qed.

Lemma character_value n g j k :
  new_CyclicGroupCharacters n = Ok g -> j < n -> k < n ->
  character g j k = Ok (polar 1 (INR (j * k) * (2 * PI / INR n))%R).
Proof.
  intros [Hn ->]%new_CyclicGroupCharacters_inv Hj Hk.
  unfold character, compute_character_table. simpl.
  destruct (Nat.leb_spec n j); [lia|]. destruct (Nat.leb_spec n k); [lia|]. simpl.
  rewrite Mat_at_Mbuild by done. by rewrite Cpow_polar.
Qed.

(** C7. Orthogonality of the characters: for a group of order [n > 0] and
    indices [j, j' < n], the sum over [k < n] of
    [character(j, k) * conj(character(j', k))], divided by [n], is 1 when
    [j = j'] and 0 otherwise. *)
Theorem character_orthogonality (n : nat) (g : CyclicGroupCharacters) (j j' : nat) :
  new_CyclicGroupCharacters n = Ok g -> j < n -> j' < n ->
  character_inner_product g j j' = Ok (if decide (j = j') then C1 else C0).
Proof.
  intros Hg Hj Hj'. unfold character_inner_product.
  destruct (new_CyclicGroupCharacters_inv _ _ Hg) as [Hn Eg].
  assert (En : n_ g = n) by (by rewrite Eg). rewrite En.
  rewrite (foldlM_Csum _
    (fun k => polar 1 (INR k * ((INR j - INR j') * (2 * PI / INR n)))%R)).
  - simpl. rewrite Cadd_0_l, Csum_characters by done.
    f_equal. destruct (decide (j = j')); apply complex_eq; simpl.
    + field. apply not_0_INR. lia.
    + unfold Rdiv. ring.
    + unfold Rdiv. ring.
    + unfold Rdiv. ring.
  - intros k acc Hk.
    rewrite (character_value n g j k), (character_value n g j' k) by done. simpl.
    rewrite polar_conj, polar_add. do 3 f_equal.
    rewrite !mult_INR. ring.
Qed.

Lemma character_orthogonality_witness :
  character_inner_product (group_of_order 2) 0 1 = Ok C0.
Proof.
  apply (character_orthogonality 2 (group_of_order 2) 0 1); [reflexivity|lia|lia].
Defined.

(** ** Projection onto a character *)

(** A loop that adds the matrix [t k] to its accumulator leaves the sum. *)
Lemma foldlM_Msum (f : Matrix -> nat -> Result Matrix) (t : nat -> nat -> nat -> complex_t)
    (r c n : nat) (a : Matrix) :
  (forall k acc, k < n -> rows acc = r -> cols acc = c ->
     exists acc', f acc k = Ok acc' /\ rows acc' = r /\ cols acc' = c /\
       forall i j, i < r -> j < c -> Mget acc' i j = Cadd (Mget acc i j) (t k i j)) ->
  rows a = r -> cols a = c ->
  exists M, foldlM f a (seq 0 n) = Ok M /\ rows M = r /\ cols M = c /\
    forall i j, i < r -> j < c ->
      Mget M i j = Cadd (Mget a i j) (Csum (fun k => t k i j) n).
Proof.
  intros H Hr Hc. induction n as [|n IH].
  - exists a. repeat split; try done. intros. simpl. by rewrite Cadd_0_r.
  - destruct IH as (M & HM & HMr & HMc & HMe); [intros; apply H; auto with lia|].
    destruct (H n M) as (M' & HM' & HMr' & HMc' & HMe'); [lia|done|done|].
    exists M'. rewrite seq_S, foldlM_app, HM. simpl. rewrite HM'.
    repeat split; try done. intros i j Hi Hj.
    rewrite HMe', HMe by done. simpl. by rewrite Cadd_assoc.
Qed.

Lemma rotate_total (V : Matrix) (k : nat) :
  k < rows V -> exists R, rotate V k = Ok R /\ rows R = rows V /\ cols R = cols V.
Proof.
  intros Hk. unfold rotate. destruct (Nat.eqb_spec k 0); [by exists V|].
  destruct (Nat.eqb_spec (rows V) 0); [lia|]. eexists. by split.
Qed.

(** Row [i] of [rotate(V, k)] is row [rot_index (rows V) k i] of [V]. *)
Lemma rotate_entries (V R : Matrix) (k i c : nat) :
  rotate V k = Ok R -> i < rows V ->
  Mget R i c = Mget V ((i + rows V - k mod rows V) mod rows V) c.
Proof.
  intros [[-> ->]|(Hk & Hr & ->)]%rotate_Ok_inv Hi.
  - rewrite Nat.Div0.mod_0_l, Nat.sub_0_r.
    rewrite <- (Nat.mul_1_l (rows V)) at 1.
    rewrite Nat.Div0.mod_add. by rewrite Nat.mod_small.
  - unfold Mget. by rewrite Mrow_map_seq.
Qed.

(** The loop of [project_onto_character], unrolled: the characters and the
    rotations it reads, and the sum it leaves. *)
Lemma project_onto_character_sum (n : nat) (g : CyclicGroupCharacters)
    (V : Matrix) (j : nat) :
  new_CyclicGroupCharacters n = Ok g -> j < n ->
  exists (P : Matrix) (chi : nat -> complex_t) (V_rotated : nat -> Matrix),
    project_onto_character g V j = Ok P /\
    rows P = rows V /\ cols P = cols V /\
    (forall k, k < rows V `min` n ->
       character g j k = Ok (chi k) /\ rotate V k = Ok (V_rotated k) /\
       chi k = polar 1 (INR (j * k) * (2 * PI / INR n))%R) /\
    forall i c, i < rows V -> c < cols V ->
      Mget P i c =
      Cdivr (Csum (fun k => Cmul (Cconj (chi k)) (Mget (V_rotated k) i c))
                  (rows V `min` n))
            (INR (rows V `min` n)).
Proof.
  intros Hg Hj.
  destruct (new_CyclicGroupCharacters_inv _ _ Hg) as [Hn Eg].
  assert (En : n_ g = n) by (by rewrite Eg).
  set (m := rows V `min` n).
  set (chi := fun k => polar 1 (INR (j * k) * (2 * PI / INR n))%R).
  set (V_rotated := fun k => match rotate V k with Ok R => R | Err _ => V end).
  assert (Hstep : forall k, k < m ->
            character g j k = Ok (chi k) /\ rotate V k = Ok (V_rotated k) /\
            rows (V_rotated k) = rows V /\ cols (V_rotated k) = cols V).
  { intros k Hk. split; [apply (character_value n); [done|done|lia]|].
    destruct (rotate_total V k) as (R & HR & ? & ?); [lia|].
    unfold V_rotated. by rewrite HR. }
  destruct (foldlM_Msum
    (fun proj k =>
       chi ← character g j k;
       let weight := Cconj chi in
       V_rotated ← rotate V k;
       Ok (Madd proj (Mscale weight V_rotated)))
    (fun k i c => Cmul (Cconj (chi k)) (Mget (V_rotated k) i c))
    (rows V) (cols V) m (Mzero (rows V) (cols V)))
    as (M & HM & HMr & HMc & HMe); [|done|done|].
  { intros k acc Hk Hr Hc. destruct (Hstep k Hk) as (-> & -> & Hr' & Hc'). simpl.
    eexists. split; [done|]. split; [done|]. split; [done|].
    intros i c Hi Hc2. unfold Madd. rewrite Hr, Hc, Mget_Mbuild by done.
    f_equal. unfold Mscale. rewrite Hr', Hc'. by rewrite Mget_Mbuild. }
  exists (Mdivr M (INR m)), chi, V_rotated.
  split; [|split; [done|split; [done|split]]].
  - unfold project_onto_character. rewrite En.
    destruct (Nat.leb_spec n j); [lia|]. cbv zeta in *. fold m. by rewrite HM.
  - intros k Hk. destruct (Hstep k Hk) as (? & ? & _). done.
  - intros i c Hi Hc. unfold Mdivr. rewrite HMr, HMc, Mget_Mbuild by done.
    rewrite HMe by done. unfold Mzero. rewrite Mget_Mbuild by done.
    by rewrite Cadd_0_l.
Qed.

(** C8. For a group of order [n], an index [j < n] and any signal [V],
    [project_onto_character(V, j)] is the matrix of the shape of [V] equal to
    [(1/m) * sum_{k<m} conj(character(j, k)) * rotate(V, k)] with
    [m = min(rows V, n)]: [m] terms, divided by [m]. *)
Theorem project_onto_character_spec (n : nat) (g : CyclicGroupCharacters)
    (V : Matrix) (j : nat) :
  new_CyclicGroupCharacters n = Ok g -> j < n ->
  exists (P : Matrix) (chi : nat -> complex_t) (V_rotated : nat -> Matrix),
    project_onto_character g V j = Ok P /\
    rows P = rows V /\ cols P = cols V /\
    (forall k, k < rows V `min` n ->
       character g j k = Ok (chi k) /\ rotate V k = Ok (V_rotated k)) /\
    forall i c, i < rows V -> c < cols V ->
      Mget P i c =
      Cdivr (Csum (fun k => Cmul (Cconj (chi k)) (Mget (V_rotated k) i c))
                  (rows V `min` n))
            (INR (rows V `min` n)).
Proof.
  intros Hg Hj.
  destruct (project_onto_character_sum n g V j Hg Hj)
    as (P & chi & V_rotated & HP & Hr & Hc & Hk & He).
  exists P, chi, V_rotated. repeat split; try done; by apply Hk.
Qed.

Lemma project_onto_character_spec_witness :
  exists (P : Matrix) (chi : nat -> complex_t) (V_rotated : nat -> Matrix),
    project_onto_character (group_of_order 4) signal_1_0 1 = Ok P /\
    rows P = rows signal_1_0 /\ cols P = cols signal_1_0 /\
    (forall k, k < rows signal_1_0 `min` 4 ->
       character (group_of_order 4) 1 k = Ok (chi k) /\
       rotate signal_1_0 k = Ok (V_rotated k)) /\
    forall i c, i < rows signal_1_0 -> c < cols signal_1_0 ->
      Mget P i c =
      Cdivr (Csum (fun k => Cmul (Cconj (chi k)) (Mget (V_rotated k) i c))
                  (rows signal_1_0 `min` 4))
            (INR (rows signal_1_0 `min` 4)).
Proof.
  apply (project_onto_character_spec 4 (group_of_order 4) signal_1_0 1);
    [reflexivity|lia].
Defined.

(** ** Decomposition and reconstruction *)

Lemma mapM_seq_Ok {A} (f : nat -> Result A) (F : nat -> A) s n :
  (forall k, s <= k < s + n -> f k = Ok (F k)) ->
  mapM f (seq s n) = Ok (map F (seq s n)).
Proof.
  revert s. induction n as [|n IH]; intros s H; [done|].
  simpl. rewrite H by lia. simpl. rewrite IH by (intros; apply H; lia). done.
Qed.

Lemma foldlM_invariant {A B} (Q : A -> Prop) (f : A -> B -> Result A) l a r :
  (forall acc x acc', f acc x = Ok acc' -> Q acc') -> Q a ->
  foldlM f a l = Ok r -> Q r.
Proof.
  intros H. revert a. induction l as [|x l IH]; simpl; intros a Ha.
  - by intros [= <-].
  - destruct (f a x) as [a'|] eqn:E; [|done]. simpl. apply IH. by eapply H.
Qed.

Lemma Csum_scale_r c f n : Csum (fun k => Cmul (f k) c) n = Cmul (Csum f n) c.
Proof.
  induction n as [|n IH]; simpl; [by rewrite Cmul_0_l|].
  by rewrite IH, Cmul_add_distr_r.
Qed.

(** The coefficients of a projection in closed form. *)
Lemma project_onto_character_entries (n : nat) (g : CyclicGroupCharacters)
    (V : Matrix) (j : nat) :
  new_CyclicGroupCharacters n = Ok g -> j < n ->
  exists P : Matrix,
    project_onto_character g V j = Ok P /\
    rows P = rows V /\ cols P = cols V /\
    forall i c, i < rows V -> c < cols V ->
      Mget P i c =
      Cdivr (Csum (fun k =>
                     Cmul (polar 1 (- (INR (j * k) * (2 * PI / INR n))))
                          (Mget V ((i + rows V - k mod rows V) mod rows V) c))
                  (rows V `min` n))
            (INR (rows V `min` n)).
Proof.
  intros Hg Hj.
  destruct (project_onto_character_sum n g V j Hg Hj)
    as (P & chi & V_rotated & HP & Hr & Hc & Hk & He).
  exists P. repeat split; try done. intros i c Hi Hc'.
  rewrite He by done. f_equal. apply Csum_ext. intros k Hkm.
  destruct (Hk k Hkm) as (_ & Hrot & ->).
  rewrite polar_conj. f_equal. by apply rotate_entries.
Qed.

Lemma Mat_at_wf (M : Matrix) i j :
  Mat_wf M -> i < rows M -> j < cols M -> Mat_at M i j = Ok (Mget M i j).
Proof.
  intros [H1 H2] Hi Hj. unfold Mat_at, Mget, Mrow.
  apply Nat.ltb_lt in Hi as Hi', Hj as Hj'. rewrite Hi', Hj'. simpl.
  destruct (lookup_lt_is_Some_2 (coeffs M) i) as [row Hrow]; [lia|].
  rewrite Hrow. simpl.
  assert (length row = cols M).
  { eapply Forall_lookup_1 in H2; [|done]. done. }
  destruct (lookup_lt_is_Some_2 row j) as [x Hx]; [lia|]. by rewrite Hx.
Qed.

Lemma project_onto_character_wf g V j P :
  project_onto_character g V j = Ok P -> Mat_wf P.
Proof.
  unfold project_onto_character. destruct (n_ g <=? j); [done|]. cbv zeta.
  destruct (foldlM _ _ _); simpl; [|done]. intros [= <-]. apply Mbuild_wf.
Qed.

(** Inside the shape of a well-formed matrix the unchecked access of a
    [BasicMatrix] is the checked one. *)
Lemma Basic_at_wf (M : Matrix) i j :
  Mat_wf M -> i < rows M -> j < cols M -> Basic_at M i j = Ok (Mget M i j).
Proof.
  intros HM Hi Hj. unfold Basic_at. cbv zeta.
  assert (Hk : i * cols M + j < rows M * cols M) by nia.
  apply Nat.ltb_lt in Hk. rewrite Hk.
  rewrite Nat.div_add_l, Nat.div_small, Nat.add_0_r by lia.
  rewrite Nat.add_comm, Nat.Div0.mod_add, Nat.mod_small by lia.
  by apply Mat_at_wf.
Qed.

(** One turn of the loop over [j] in [reconstruct_from_characters] without
    [USE_EIGEN3], when the cells it reads exist. *)
Lemma reconstruct_cells (coef : complex_t) (P result : Matrix) (r c : nat)
    (cell : nat -> nat -> complex_t) :
  (forall i c', i < r -> c' < c -> Basic_at P i c' = Ok (cell i c')) ->
  mapM (fun i =>
          mapM (fun c' =>
                  x ← Basic_at P i c';
                  Ok (Cadd (Mget result i c') (Cmul coef x)))
               (seq 0 c))
       (seq 0 r)
  = Ok (coeffs (Mbuild r c (fun i c' => Cadd (Mget result i c') (Cmul coef (cell i c'))))).
Proof.
  intros H. unfold Mbuild. cbn [coeffs].
  apply mapM_seq_Ok. intros i Hi. apply mapM_seq_Ok. intros c' Hc.
  by rewrite H by lia.
Qed.

(** Both builds reconstruct the same linear combination from well-formed
    projections of one shape. *)
Lemma reconstruct_uniform (USE_EIGEN3 : bool) (coefficients : Vector)
    (projections : list Matrix) (r c : nat) :
  0 < length projections ->
  (forall j P, j < length projections `min` length coefficients ->
     projections !! j = Some P -> Mat_wf P /\ rows P = r /\ cols P = c) ->
  (forall P0, projections !! 0 = Some P0 -> rows P0 = r /\ cols P0 = c) ->
  exists R : Matrix,
    reconstruct_from_characters USE_EIGEN3 coefficients projections = Ok R /\
    rows R = r /\ cols R = c /\ Mat_wf R /\
    forall i c', i < r -> c' < c ->
      Mget R i c'
      = Csum (fun j => Cmul (Vget coefficients j)
                            (Mget (default (Mzero r c) (projections !! j)) i c'))
             (length projections `min` length coefficients).
Proof.
  intros Hlen Hshape H0.
  destruct projections as [|P0 rest]; [simpl in Hlen; lia|].
  destruct (H0 P0 eq_refl) as [Hr0 Hc0].
  unfold reconstruct_from_characters. rewrite Hr0, Hc0.
  set (projections := P0 :: rest) in *.
  set (m := length projections `min` length coefficients) in *.
  set (t := fun j i c' => Cmul (Vget coefficients j)
                               (Mget (default (Mzero r c) (projections !! j)) i c')).
  assert (Hget : forall j, j < m ->
            exists coef P, Vec_at coefficients j = Ok coef /\ Vget coefficients j = coef /\
              Vec_at projections j = Ok P /\ projections !! j = Some P /\
              Mat_wf P /\ rows P = r /\ cols P = c).
  { intros j Hj. pose proof Hj as Hj'. unfold m in Hj'.
    destruct (lookup_lt_is_Some_2 coefficients j) as [coef Hcoef]; [lia|].
    destruct (lookup_lt_is_Some_2 projections j) as [P HP]; [lia|].
    exists coef, P. unfold Vec_at, Vget. rewrite Hcoef, HP.
    destruct (Hshape j P Hj HP) as (? & ? & ?).
    do 4 (split; [done|]). by split. }
  destruct USE_EIGEN3.
  - set (step := fun (result : Matrix) (j : nat) =>
         coef ← Vec_at coefficients j;
         P ← Vec_at projections j;
         if (rows P =? rows result) && (cols P =? cols result)
         then Ok (Madd result (Mscale coef P))
         else Err (Undefined OutOfBounds)).
    destruct (foldlM_Msum step t r c m (Mzero r c))
      as (M & HM & HMr & HMc & HMe); [|done|done|].
    { intros j acc Hj Hr Hc.
      destruct (Hget j Hj) as (coef & P & Hcoef & Hv & HP & HP' & _ & Hr' & Hc').
      unfold step. rewrite Hcoef, HP. simpl.
      rewrite Hr', Hc', Hr, Hc, !Nat.eqb_refl. simpl.
      eexists. split; [done|]. split; [by rewrite <- Hr|]. split; [by rewrite <- Hc|].
      intros i c' Hi Hc2. unfold Madd. rewrite Hr, Hc, Mget_Mbuild by done.
      f_equal. unfold Mscale, t. rewrite Hr', Hc', Mget_Mbuild by done.
      by rewrite Hv, HP'. }
    exists M. split; [done|]. split; [done|]. split; [done|]. split.
    + revert HM. apply foldlM_invariant; [|apply Mbuild_wf].
      intros acc j acc' Hs. unfold step in Hs.
      destruct (Vec_at coefficients j); simpl in Hs; [|done].
      destruct (Vec_at projections j); simpl in Hs; [|done].
      destruct (_ && _) in Hs; [|done]. injection Hs as <-. apply Mbuild_wf.
    + intros i c' Hi Hc. rewrite HMe by done.
      unfold Mzero. by rewrite Mget_Mbuild, Cadd_0_l by done.
  - cbv zeta.
    set (step := fun (result : Matrix) (j : nat) =>
         coef ← Vec_at coefficients j;
         P ← Vec_at projections j;
         cells ← mapM (fun i =>
             mapM (fun c' =>
                     x ← Basic_at P i c';
                     Ok (Cadd (Mget result i c') (Cmul coef x)))
                  (seq 0 c))
           (seq 0 r);
         Ok (mkMat r c cells)).
    assert (Hstep : forall j acc, j < m ->
              step acc j = Ok (Mbuild r c (fun i c' => Cadd (Mget acc i c') (t j i c')))).
    { intros j acc Hj.
      destruct (Hget j Hj) as (coef & P & Hcoef & Hv & HP & HP' & HPwf & Hr' & Hc').
      unfold step. rewrite Hcoef, HP. simpl.
      rewrite (reconstruct_cells coef P acc r c (Mget P)).
      2:{ intros i c' Hi Hc. apply Basic_at_wf; [done|lia|lia]. }
      simpl. unfold Mbuild, t. by rewrite Hv, HP'. }
    destruct (foldlM_Msum step t r c m (Mzero r c))
      as (M & HM & HMr & HMc & HMe); [|done|done|].
    { intros j acc Hj _ _. rewrite Hstep by done.
      eexists. split; [done|]. split; [done|]. split; [done|].
      intros i c' Hi Hc. by rewrite Mget_Mbuild. }
    exists M. split; [done|]. split; [done|]. split; [done|]. split.
    + destruct m as [|m'].
      * simpl in HM. injection HM as <-. apply Mbuild_wf.
      * rewrite seq_S, foldlM_app in HM.
        destruct (foldlM step (Mzero r c) (seq 0 m')) as [acc|] eqn:E; [|done].
        simpl in HM. rewrite Hstep in HM by lia. injection HM as <-. apply Mbuild_wf.
    + intros i c' Hi Hc. rewrite HMe by done.
      unfold Mzero. by rewrite Mget_Mbuild, Cadd_0_l by done.
Qed.

(** The coefficients of [round_trip g V] for a signal with at least one row,
    [m = min(rows V, n)]: the sum of the [m] projections, in both builds. *)
Lemma round_trip_entries (USE_EIGEN3 : bool) (n : nat) (g : CyclicGroupCharacters)
    (V : Matrix) :
  new_CyclicGroupCharacters n = Ok g -> 0 < rows V ->
  exists R : Matrix,
    round_trip USE_EIGEN3 g V = Ok R /\ rows R = rows V /\ cols R = cols V /\
    Mat_wf R /\
    forall i c, i < rows V -> c < cols V ->
      Mget R i c =
      Csum (fun j =>
        Cdivr (Csum (fun k =>
                       Cmul (polar 1 (- (INR (j * k) * (2 * PI / INR n))))
                            (Mget V ((i + rows V - k mod rows V) mod rows V) c))
                    (rows V `min` n))
              (INR (rows V `min` n)))
        (rows V `min` n).
Proof.
  intros Hg HL.
  destruct (new_CyclicGroupCharacters_inv _ _ Hg) as [Hn Eg].
  assert (En : n_ g = n) by (by rewrite Eg).
  set (m := rows V `min` n).
  set (F := fun j => match project_onto_character g V j with Ok P => P | Err _ => V end).
  assert (HF : forall j, j < m ->
            project_onto_character g V j = Ok (F j) /\
            rows (F j) = rows V /\ cols (F j) = cols V /\
            forall i c, i < rows V -> c < cols V ->
              Mget (F j) i c =
              Cdivr (Csum (fun k =>
                       Cmul (polar 1 (- (INR (j * k) * (2 * PI / INR n))))
                            (Mget V ((i + rows V - k mod rows V) mod rows V) c)) m)
                    (INR m)).
  { intros j Hj.
    destruct (project_onto_character_entries n g V j Hg) as (P & HP & ? & ? & ?); [lia|].
    unfold F. by rewrite HP. }
  assert (Hdec : decompose_into_characters g V = Ok (map F (seq 0 m))).
  { unfold decompose_into_characters. rewrite En. fold m.
    apply mapM_seq_Ok. intros k Hk. apply HF. lia. }
  assert (Hm : 0 < m) by (unfold m; lia).
  assert (Hmm : length (map F (seq 0 m)) `min` length (replicate n C1) = m).
  { rewrite length_map, length_seq, length_replicate. unfold m. lia. }
  destruct (reconstruct_uniform USE_EIGEN3 (replicate n C1) (map F (seq 0 m))
              (rows V) (cols V))
    as (M & HM & HMr & HMc & HMwf & HMe).
  { rewrite length_map, length_seq. done. }
  { rewrite Hmm. intros j P Hj HP. rewrite lookup_map_seq in HP by done.
    injection HP as <-. destruct (HF j Hj) as (HP & ? & ? & _).
    split; [by eapply project_onto_character_wf|done]. }
  { intros P0 HP. rewrite lookup_map_seq in HP by done.
    injection HP as <-. by destruct (HF 0 Hm) as (_ & ? & ? & _). }
  exists M. split; [|split; [done|split; [done|split; [done|]]]].
  - unfold round_trip. rewrite Hdec. simpl. by rewrite En.
  - intros i c Hi Hc. rewrite HMe, Hmm by done.
    apply Csum_ext. intros j Hj. destruct (HF j Hj) as (_ & _ & _ & He).
    rewrite lookup_map_seq by done. simpl.
    unfold Vget. rewrite lookup_replicate_2 by (unfold m in Hj; lia). simpl.
    rewrite He by done. by rewrite Cmul_1_l.
Qed.

(** The characters of index [0 .. n-1], conjugated and evaluated at one
    element [k], sum to [n] for [k = 0] and to 0 otherwise. *)
Lemma Csum_conj_characters (n k : nat) :
  k < n ->
  Csum (fun j => polar 1 (- (INR (j * k) * (2 * PI / INR n)))%R) n
  = if decide (0 = k) then (INR n, 0%R) else C0.
Proof.
  intros Hk. rewrite <- (Csum_characters n 0 k) by lia.
  apply Csum_ext. intros j _. f_equal. rewrite mult_INR. simpl. ring.
Qed.

(** A sum of powers of [polar(1, x)] that stops before a full turn is not 0. *)
Lemma Csum_partial_turn x (L : nat) :
  (0 < Rabs (INR L * x))%R -> (Rabs (INR L * x) < 2 * PI)%R ->
  Csum (Cpow (polar 1 x)) L <> C0.
Proof.
  intros H0 H1 HS.
  pose proof (Csum_geometric (polar 1 x) L) as Hg.
  rewrite HS, Cmul_0_r, Cpow_polar in Hg. symmetry in Hg.
  apply Csub_eq_0 in Hg. by apply polar_neq_1 in Hg.
Qed.

(** Row 1 of the round trip of the unit signal of length [L], [1 < L <= n]. *)
Lemma round_trip_unit_signal (USE_EIGEN3 : bool) (n : nat) (g : CyclicGroupCharacters)
    (L : nat) :
  new_CyclicGroupCharacters n = Ok g -> 1 < L -> L <= n ->
  exists R : Matrix,
    round_trip USE_EIGEN3 g (unit_signal L) = Ok R /\
    Mget R 1 0 = Cdivr (Csum (Cpow (polar 1 (- (2 * PI / INR n)))) L) (INR L).
Proof.
  intros Hg HL1 HLn.
  destruct (round_trip_entries USE_EIGEN3 n g (unit_signal L) Hg)
    as (R & HR & _ & _ & _ & He);
    [simpl; lia|].
  exists R. split; [done|]. rewrite He by (simpl; lia).
  change (rows (unit_signal L)) with L. replace (L `min` n) with L by lia.
  rewrite Csum_divr. f_equal. apply Csum_ext. intros j Hj.
  rewrite (Csum_single _ L 1); [|lia|].
  - replace ((1 + L - 1 mod L) mod L) with 0.
    2:{ rewrite (Nat.mod_small 1) by lia. replace (1 + L - 1) with L by lia.
        by rewrite Nat.Div0.mod_same. }
    unfold unit_signal. rewrite Mget_Mbuild by lia. simpl.
    rewrite Cmul_1_r, Cpow_polar, Nat.mul_1_r. f_equal. ring.
  - intros k Hk Hk1. rewrite (Nat.mod_small k) by lia.
    unfold unit_signal. rewrite Mget_Mbuild; [|apply Nat.mod_upper_bound; lia|lia].
    destruct (Nat.eqb_spec ((1 + L - k) mod L) 0) as [Hz|]; [|apply Cmul_0_r].
    exfalso. destruct (decide (k = 0)) as [->|].
    + replace (1 + L - 0) with (1 + 1 * L) in Hz by lia.
      rewrite Nat.Div0.mod_add, Nat.mod_small in Hz; lia.
    + rewrite Nat.mod_small in Hz; lia.
Qed.

(** C2 (the code departs from it). For a group of order [n > 0] and in both
    builds: reconstructing the decomposition of a signal [V] with all
    coefficients 1 returns [V] when [rows V = n] (or when [V] has a single
    row); but for every length [L] with [1 < L < n] it does not return the
    unit signal of length [L], where the header promises
    [V = sum_j Proj_j(V)]. *)
Theorem round_trip_full_length (USE_EIGEN3 : bool) (n : nat)
    (g : CyclicGroupCharacters) :
  new_CyclicGroupCharacters n = Ok g ->
  (forall V : Matrix, rows V = n \/ rows V = 1 ->
     exists R : Matrix,
       round_trip USE_EIGEN3 g V = Ok R /\ Meq R V /\ (Mat_wf V -> R = V)) /\
  (forall L : nat, 1 < L -> L < n ->
     exists R : Matrix, round_trip USE_EIGEN3 g (unit_signal L) = Ok R /\
       Mget R 1 0 <> Mget (unit_signal L) 1 0).
Proof.
  intros Hg. destruct (new_CyclicGroupCharacters_inv _ _ Hg) as [Hn _]. split.
  - intros V HL.
    destruct (round_trip_entries USE_EIGEN3 n g V Hg)
      as (R & HR & Hr & Hc & Hwf & He); [lia|].
    assert (HM : Meq R V).
    { split; [done|split; [done|]]. rewrite Hr, Hc. intros i c Hi Hc'.
      rewrite He by done. destruct HL as [HL|HL].
      - rewrite HL, Nat.min_id. rewrite Csum_divr, Csum_swap.
        rewrite (Csum_ext _ (fun k =>
          Cmul (if decide (0 = k) then (INR n, 0%R) else C0)
               (Mget V ((i + n - k mod n) mod n) c))).
        2:{ intros k Hk. by rewrite Csum_scale_r, Csum_conj_characters. }
        rewrite (Csum_single _ n 0); [|done|].
        2:{ intros k ? ?. destruct (decide (0 = k)); [lia|apply Cmul_0_l]. }
        simpl decide. rewrite Nat.Div0.mod_0_l, Nat.sub_0_r.
        replace ((i + n) mod n) with i.
        2:{ replace (i + n) with (i + 1 * n) by lia.
            rewrite Nat.Div0.mod_add. by rewrite Nat.mod_small by lia. }
        apply complex_eq; simpl; field; apply not_0_INR; lia.
      - rewrite HL. replace (1 `min` n) with 1 by lia.
        assert (i = 0) as -> by lia. simpl.
        rewrite Rmult_0_l, Ropp_0, polar_0.
        apply complex_eq; simpl; field. }
    exists R. split; [done|split; [done|]].
    intros HV. by apply Meq_eq.
  - intros L HL1 HLn.
    destruct (round_trip_unit_signal USE_EIGEN3 n g L Hg) as (R & HR & He); [lia..|].
    exists R. split; [done|]. rewrite He.
    unfold unit_signal. rewrite Mget_Mbuild by lia. simpl. intros Hz.
    assert (HL : (0 < INR L)%R) by (apply lt_0_INR; lia).
    assert (HLn' : (INR L < INR n)%R) by (by apply lt_INR).
    assert (HPI := PI_RGT_0).
    assert (Hq : (0 < 2 * PI / INR n)%R) by (apply Rdiv_lt_0_compat; lra).
    apply (Csum_partial_turn (- (2 * PI / INR n)) L).
    + rewrite Rabs_mult, Rabs_Ropp, !Rabs_pos_eq by lra.
      apply Rmult_lt_0_compat; lra.
    + rewrite Rabs_mult, Rabs_Ropp, !Rabs_pos_eq by lra.
      replace (2 * PI)%R with (INR n * (2 * PI / INR n))%R at 2 by (field; lra).
      apply Rmult_lt_compat_r; lra.
    + unfold Cdivr, C0 in Hz. injection Hz as H1 H2.
      apply complex_eq; simpl.
      * apply (Rmult_eq_reg_r (/ INR L)); [|apply Rinv_neq_0_compat; lra].
        unfold Rdiv in H1. lra.
      * apply (Rmult_eq_reg_r (/ INR L)); [|apply Rinv_neq_0_compat; lra].
        unfold Rdiv in H2. lra.
Qed.

Lemma round_trip_full_length_witness :
  (forall V : Matrix, rows V = 3 \/ rows V = 1 ->
     exists R : Matrix,
       round_trip false (group_of_order 3) V = Ok R /\ Meq R V /\
       (Mat_wf V -> R = V)) /\
  (forall L : nat, 1 < L -> L < 3 ->
     exists R : Matrix, round_trip false (group_of_order 3) (unit_signal L) = Ok R /\
       Mget R 1 0 <> Mget (unit_signal L) 1 0).
Proof.
  apply (round_trip_full_length false 3 (group_of_order 3)). reflexivity.
Defined.

(** The failing input of C2, a signal shorter than the group order: with
    [n = 4] the round trip of the signal [1, 0] of length 2 has, in both
    builds, the coefficient [1/2 - i/2] in row 1, where the signal has 0. *)
Lemma round_trip_short_signal_counterexample :
  new_CyclicGroupCharacters 4 = Ok (group_of_order 4) /\
  1 <= rows signal_1_0 <= 4 /\
  exists R : Matrix,
    round_trip true (group_of_order 4) signal_1_0 = Ok R /\
    round_trip false (group_of_order 4) signal_1_0 = Ok R /\
    Mget R 1 0 = (1 / 2, - (1 / 2))%R /\ Mget signal_1_0 1 0 = C0 /\
    ~ Meq R signal_1_0.
Proof.
  split; [reflexivity|]. split; [simpl; lia|].
  destruct (round_trip_entries true 4 (group_of_order 4) signal_1_0)
    as (R & HR & Hr & Hc & Hwf & He); [reflexivity|simpl; lia|].
  destruct (round_trip_entries false 4 (group_of_order 4) signal_1_0)
    as (R' & HR' & Hr' & Hc' & Hwf' & He'); [reflexivity|simpl; lia|].
  assert (R' = R) as ->.
  { apply Meq_eq; [done|done|]. split; [congruence|]. split; [congruence|].
    rewrite Hr', Hc'. intros i c Hi Hc2. by rewrite He, He'. }
  assert (H10 : Mget R 1 0 = (1 / 2, - (1 / 2))%R).
  { rewrite He by (simpl; lia). simpl.
    replace (- ((1 + 1) * (2 * PI / (1 + 1 + 1 + 1))))%R with (- PI)%R by field.
    replace (- (0 * (2 * PI / (1 + 1 + 1 + 1))))%R with 0%R by field.
    replace (- (1 * (2 * PI / (1 + 1 + 1 + 1))))%R with (- (PI / 2))%R by field.
    unfold polar, Cmul, Cadd, Cdivr, C0, C1, Mget. simpl.
    rewrite cos_neg, sin_neg, cos_PI2, sin_PI2, cos_0, sin_0.
    f_equal; field. }
  exists R. split; [done|]. split; [done|]. split; [done|]. split; [done|].
  intros (_ & _ & H). specialize (H 1 0). rewrite Hr, Hc in H.
  rewrite H10 in H. specialize (H ltac:(simpl; lia) ltac:(simpl; lia)).
  unfold Mget, signal_1_0, C0 in H. simpl in H. injection H as H1 H2. lra.
Qed.

(** ** More on loops and on checked access *)

Lemma foldlM_seq_invariant {A} (Q : nat -> A -> Prop) (f : A -> nat -> Result A) a n r :
  Q 0 a ->
  (forall k acc acc', k < n -> Q k acc -> f acc k = Ok acc' -> Q (S k) acc') ->
  foldlM f a (seq 0 n) = Ok r -> Q n r.
Proof.
  intros H0. revert r. induction n as [|n IH]; intros r Hs.
  - simpl. by intros [= <-].
  - rewrite seq_S, foldlM_app.
    destruct (foldlM f a (seq 0 n)) as [b|] eqn:E; simpl; [|done].
    destruct (f b n) as [b'|] eqn:E2; simpl; [|done]. intros [= <-].
    eapply Hs; [lia| |done]. apply IH; [|done]. intros; eapply Hs; eauto with lia.
Qed.

Lemma foldlM_total {A B} (f : A -> B -> Result A) l a :
  (forall acc x, x ∈ l -> is_Ok (f acc x)) -> is_Ok (foldlM f a l).
Proof.
  revert a. induction l as [|x l IH]; intros a H; simpl; [by eexists|].
  destruct (H a x) as [a' ->]; [by left|]. simpl.
  apply IH. intros; apply H. by right.
Qed.

Lemma foldlM_fails {A B} (f : A -> B -> Result A) l a x :
  x ∈ l -> (forall acc, ~ is_Ok (f acc x)) -> ~ is_Ok (foldlM f a l).
Proof.
  revert a. induction l as [|y l IH]; intros a Hx H; [by apply not_elem_of_nil in Hx|].
  simpl. apply elem_of_cons in Hx as [<-|Hx].
  - destruct (f a x) as [a'|e] eqn:E; [|by intros [? ?]].
    exfalso. apply (H a). by eexists.
  - destruct (f a y) as [a'|e]; simpl; [by apply IH|by intros [? ?]].
Qed.

Lemma Mat_at_outside {T} (M : Mat T) i j :
  ~ (i < rows M /\ j < cols M) -> Mat_at M i j = Err (Undefined OutOfBounds).
Proof.
  intros H. unfold Mat_at.
  destruct (Nat.ltb_spec i (rows M)), (Nat.ltb_spec j (cols M)); simpl; try done.
  exfalso. auto.
Qed.

(** [decompose_into_characters] returns [min(rows V, n)] matrices of the shape
    of [V]. *)
Lemma decompose_into_characters_Ok (n : nat) (g : CyclicGroupCharacters) (V : Matrix) :
  new_CyclicGroupCharacters n = Ok g ->
  exists projs, decompose_into_characters g V = Ok projs /\
    length projs = rows V `min` n /\
    forall j P, projs !! j = Some P ->
      project_onto_character g V j = Ok P /\
      rows P = rows V /\ cols P = cols V /\ Mat_wf P.
Proof.
  intros Hg. destruct (new_CyclicGroupCharacters_inv _ _ Hg) as [Hn Eg].
  assert (En : n_ g = n) by (by rewrite Eg).
  set (F := fun j => match project_onto_character g V j with Ok P => P | Err _ => V end).
  assert (HF : forall j, j < rows V `min` n ->
            project_onto_character g V j = Ok (F j) /\
            rows (F j) = rows V /\ cols (F j) = cols V /\ Mat_wf (F j)).
  { intros j Hj.
    destruct (project_onto_character_sum n g V j Hg ltac:(lia))
      as (P & ? & ? & HP & ? & ? & ?).
    unfold F. rewrite HP. split; [done|]. split; [done|]. split; [done|].
    by eapply project_onto_character_wf. }
  exists (map F (seq 0 (rows V `min` n))). split; [|split].
  - unfold decompose_into_characters. rewrite En.
    apply mapM_seq_Ok. intros k Hk. apply HF. lia.
  - by rewrite length_map, length_seq.
  - intros j P HP.
    change (map F (seq 0 (rows V `min` n))) with (F <$> seq 0 (rows V `min` n)) in HP.
    rewrite list_lookup_fmap in HP.
    destruct (seq 0 (rows V `min` n) !! j) as [k|] eqn:E; [|done].
    apply lookup_seq in E as [-> Hj]. simpl in HP. injection HP as <-.
    by apply HF.
Qed.

(** ** The feature row *)

Lemma flat_index_inj (nc p j p' j' : nat) :
  j < nc -> j' < nc -> p * nc + j = p' * nc + j' -> p = p' /\ j = j'.
Proof.
  intros Hj Hj' H.
  assert (Hdiv : (p * nc + j) / nc = (p' * nc + j') / nc) by (by rewrite H).
  rewrite !Nat.div_add_l, !Nat.div_small in Hdiv by lia. lia.
Qed.

Section FeatureRow.
Variables (V : Matrix) (config : PatchConfig) (projs : list Matrix).
Hypothesis projs_shape : forall j P, projs !! j = Some P ->
  rows P = rows V /\ cols P = cols V /\ Mat_wf P.

Lemma feature_cell_total p fr j :
  p < rows V -> 0 < cols V -> is_Ok (feature_cell projs config p fr j).
Proof.
  intros Hp Hc. unfold feature_cell.
  destruct (Nat.ltb_spec j (length projs)) as [Hj|Hj]; [|by eexists].
  destruct (lookup_lt_is_Some_2 projs j Hj) as [P HP].
  destruct (projs_shape j P HP) as (Hr & Hc' & Hwf).
  unfold Vec_at. rewrite HP. simpl.
  rewrite Mat_at_wf by (try done; lia). simpl. by eexists.
Qed.

Lemma feature_cell_fails p fr j :
  j < length projs -> ~ (p < rows V /\ 0 < cols V) ->
  ~ is_Ok (feature_cell projs config p fr j).
Proof.
  intros Hj Hout. unfold feature_cell.
  destruct (Nat.ltb_spec j (length projs)) as [_|?]; [|lia].
  destruct (lookup_lt_is_Some_2 projs j Hj) as [P HP].
  destruct (projs_shape j P HP) as (Hr & Hc' & Hwf).
  unfold Vec_at. rewrite HP. simpl.
  rewrite Mat_at_outside by (rewrite Hr, Hc'; done). by intros [? ?].
Qed.

Lemma feature_loops_written fr :
  feature_loops projs config = Ok fr ->
  written_up_to config (length projs) (n_positions config) (fun _ _ => False) fr.
Proof.
  unfold feature_loops.
  apply (foldlM_seq_invariant
           (fun t => written_up_to config (length projs) t (fun _ _ => False))).
  - split; [by rewrite length_replicate|]. intros p j Hp Hj.
    exists None. split; [apply lookup_replicate_2; nia|].
    split; [by intros [? ?]|]. intros [[? _]|[]]. lia.
  - intros p fr0 fr1 Hp H0 Hrow.
    cut (written_up_to config (length projs) p
           (fun p' j' => p' = p /\ j' < n_characters config /\ j' < length projs) fr1).
    { intros [Hlen H]. split; [done|]. intros p' j' Hp' Hj'.
      destruct (H p' j' Hp' Hj') as (cell & Hcell & Hiff). exists cell. split; [done|].
      rewrite Hiff. split; [intros [[? ?]|(-> & _ & ?)]; left; lia|].
      intros [[? ?]|[]]. destruct (decide (p' = p)) as [->|]; [right|left]; lia. }
    revert Hrow.
    apply (foldlM_seq_invariant
             (fun j0 => written_up_to config (length projs) p
                          (fun p' j' => p' = p /\ j' < j0 /\ j' < length projs))).
    + destruct H0 as [Hlen H]. split; [done|]. intros p' j' Hp' Hj'.
      destruct (H p' j' Hp' Hj') as (cell & Hcell & Hiff). exists cell. split; [done|].
      rewrite Hiff. split; [intros [?|[]]; by left|]. intros [?|(_ & ? & _)]; [by left|lia].
    + intros j fr2 fr3 Hj [Hlen H] Hstep. unfold feature_cell in Hstep.
      cbv zeta in Hstep.
      destruct (Nat.ltb_spec j (length projs)) as [Hjm|Hjm].
      * destruct (Vec_at projs j) as [P|]; simpl in Hstep; [|done].
        destruct (Mat_at P p 0) as [x|]; simpl in Hstep; [|done].
        injection Hstep as <-. split; [by rewrite length_insert|].
        intros p' j' Hp' Hj'.
        destruct (decide (p' = p /\ j' = j)) as [[-> ->]|Hne].
        -- exists (Some x). split; [apply list_lookup_insert_eq; rewrite Hlen; nia|].
           split; [intros _; right; lia|by eexists].
        -- destruct (H p' j' Hp' Hj') as (cell & Hcell & Hiff). exists cell.
           split; [rewrite list_lookup_insert_ne; [done|]; intros Heq; apply Hne;
                    by apply (flat_index_inj (n_characters config))|].
           rewrite Hiff. split; (intros [?|(? & ? & ?)]; [by left|right]);
             (split; [done|]; split; [|done]); [lia|].
           destruct (decide (j' = j)); [exfalso; apply Hne; by split|lia].
      * injection Hstep as <-. split; [done|]. intros p' j' Hp' Hj'.
        destruct (H p' j' Hp' Hj') as (cell & Hcell & Hiff). exists cell. split; [done|].
        rewrite Hiff. split; (intros [?|(? & ? & ?)]; [by left|right; repeat split; [done| |done]; lia]).
Qed.

Lemma feature_loops_total :
  n_characters config = 0 \/ length projs = 0 \/
  (n_positions config <= rows V /\ 0 < cols V) ->
  is_Ok (feature_loops projs config).
Proof.
  intros H. unfold feature_loops. apply foldlM_total.
  intros fr p [_ Hp]%elem_of_seq. apply foldlM_total.
  intros fr' j [_ Hj]%elem_of_seq.
  destruct H as [H|[H|[Hr Hc]]]; [lia| |apply feature_cell_total; [lia|done]].
  unfold feature_cell. rewrite H. simpl. by eexists.
Qed.

Lemma feature_loops_fails :
  0 < n_positions config -> 0 < n_characters config -> 0 < length projs ->
  ~ (n_positions config <= rows V /\ 0 < cols V) ->
  ~ is_Ok (feature_loops projs config).
Proof.
  intros Hnp Hnc Hm Hshape. unfold feature_loops.
  set (p0 := if decide (0 < cols V) then rows V else 0).
  assert (Hp0 : p0 < n_positions config /\ ~ (p0 < rows V /\ 0 < cols V)).
  { unfold p0. destruct (decide (0 < cols V)); lia. }
  apply (foldlM_fails _ _ _ p0); [apply elem_of_seq; lia|].
  intros fr. apply (foldlM_fails _ _ _ 0); [apply elem_of_seq; lia|].
  intros fr'. apply feature_cell_fails; [done|tauto].
Qed.

End FeatureRow.

(** C9, as amended. For a group built for [n_positions], [get_feature_row]
    returns a vector with every coefficient written exactly when
    [n_characters = 0] (the vector is empty) or
    [n_characters <= n_positions <= rows V] and [V] has a column; and in any
    vector it returns, of length [n_positions * n_characters], the coefficients
    of a character index [j >= min(rows V, n_positions)] were never written. *)
Theorem get_feature_row_assigned (V : Matrix) (config : PatchConfig)
    (group : CyclicGroupCharacters) :
  new_CyclicGroupCharacters (n_positions config) = Ok group ->
  ((exists fr, get_feature_row V config group = Ok fr /\ Forall is_Some fr) <->
   (n_characters config = 0 \/
    (n_characters config <= n_positions config /\
     n_positions config <= rows V /\ 1 <= cols V))) /\
  (forall fr, get_feature_row V config group = Ok fr ->
     length fr = n_positions config * n_characters config /\
     forall p j, p < n_positions config -> j < n_characters config ->
       rows V `min` n_positions config <= j ->
       fr !! (p * n_characters config + j) = Some None).
Proof.
  intros Hg. destruct (new_CyclicGroupCharacters_inv _ _ Hg) as [Hnp _].
  destruct (decompose_into_characters_Ok _ _ V Hg) as (projs & Hdec & Hlen & Hshape).
  assert (Hsh : forall j P, projs !! j = Some P ->
            rows P = rows V /\ cols P = cols V /\ Mat_wf P).
  { intros j P HP. by destruct (Hshape j P HP) as (_ & ? & ? & ?). }
  assert (Hrow : get_feature_row V config group = feature_loops projs config).
  { unfold get_feature_row. by rewrite Hdec. }
  rewrite Hrow. split; [split|].
  - intros (fr & Hfr & Hall).
    destruct (decide (n_characters config = 0)) as [|Hnc]; [by left|right].
    destruct (feature_loops_written _ _ _ Hfr) as [_ Hw].
    destruct (Hw 0 (n_characters config - 1)) as (cell & Hcell & Hiff); [lia..|].
    assert (Hsome : is_Some cell) by (by eapply Forall_lookup_1 in Hall).
    apply Hiff in Hsome as [[_ Hm]|[]].
    destruct (decide (n_positions config <= rows V /\ 0 < cols V)) as [|Hbad]; [lia|].
    exfalso. eapply (feature_loops_fails V config projs Hsh); try done; [lia..|by eexists].
  - intros Hcond.
    destruct (feature_loops_total V config projs Hsh) as [fr Hfr].
    { destruct Hcond as [?|(? & ? & ?)]; [by left|right; right; lia]. }
    exists fr. split; [done|].
    destruct (feature_loops_written _ _ _ Hfr) as [Hl Hw].
    apply Forall_lookup. intros idx cell Hidx.
    assert (Hlt : idx < n_positions config * n_characters config).
    { rewrite <- Hl. by eapply lookup_lt_Some. }
    destruct Hcond as [Hz|(H1 & H2 & H3)]; [rewrite Hz in Hlt; lia|].
    assert (Hnc : n_characters config <> 0) by lia.
    destruct (Hw (idx / n_characters config) (idx mod n_characters config))
      as (cell' & Hcell' & Hiff).
    { apply Nat.Div0.div_lt_upper_bound. lia. }
    { by apply Nat.mod_upper_bound. }
    rewrite (Nat.mul_comm (idx / _)), <- Nat.div_mod_eq, Hidx in Hcell'.
    injection Hcell' as <-. apply Hiff. left.
    split; [apply Nat.Div0.div_lt_upper_bound; lia|].
    pose proof (Nat.mod_upper_bound idx _ Hnc). lia.
  - intros fr Hfr. destruct (feature_loops_written _ _ _ Hfr) as [Hl Hw].
    split; [done|]. intros p j Hp Hj Hm.
    destruct (Hw p j Hp Hj) as (cell & -> & Hiff). f_equal.
    destruct cell as [x|]; [|done]. exfalso.
    destruct Hiff as [Hiff _]. destruct Hiff as [[_ ?]|[]]; [by eexists|lia].
Qed.

Lemma get_feature_row_assigned_witness :
  ((exists fr, get_feature_row signal_1_0 config_1_1 (group_of_order 1) = Ok fr /\
               Forall is_Some fr) <->
   (n_characters config_1_1 = 0 \/
    (n_characters config_1_1 <= n_positions config_1_1 /\
     n_positions config_1_1 <= rows signal_1_0 /\ 1 <= cols signal_1_0))) /\
  (forall fr, get_feature_row signal_1_0 config_1_1 (group_of_order 1) = Ok fr ->
     length fr = n_positions config_1_1 * n_characters config_1_1 /\
     forall p j, p < n_positions config_1_1 -> j < n_characters config_1_1 ->
       rows signal_1_0 `min` n_positions config_1_1 <= j ->
       fr !! (p * n_characters config_1_1 + j) = Some None).
Proof.
  apply (get_feature_row_assigned signal_1_0 config_1_1 (group_of_order 1)).
  reflexivity.
Defined.

(** Counterexample to C9 as stated: a signal with more rows than
    [n_positions] still yields a feature row with every coefficient written. *)
Lemma get_feature_row_longer_signal_counterexample :
  new_CyclicGroupCharacters (n_positions config_1_1) = Ok (group_of_order 1) /\
  (exists fr, get_feature_row signal_1_0 config_1_1 (group_of_order 1) = Ok fr /\
              Forall is_Some fr) /\
  ~ (n_characters config_1_1 <= n_positions config_1_1 `min` rows signal_1_0 /\
     rows signal_1_0 = n_positions config_1_1 /\ 1 <= cols signal_1_0).
Proof.
  split; [reflexivity|]. split.
  - eexists. split; [reflexivity|]. repeat constructor. by eexists.
  - simpl. lia.
Qed.

(** ** [learn_character_weights] without [USE_EIGEN3] *)

(** C1 (the code departs from it). Compiled without [USE_EIGEN3],
    [learn_character_weights] for the group of order 1, the sample [1] and the
    target [1] assembles the system [1 * c = 1] and returns [c = 0], whose
    residual is 1, while [c = 1] has residual 0.  Compiled with [USE_EIGEN3]
    it returns what Eigen's solve returns on that system. *)
Theorem learn_character_weights_stub_returns_zero
    (bdcSvd_solve : Matrix -> Vector -> Vector) :
  learn_character_weights false bdcSvd_solve (group_of_order 1) [signal_1] [signal_1]
    = Ok [C0] /\
  exists A b,
    design_system (group_of_order 1) [signal_1] [signal_1] = Ok (A, b) /\
    raw_residual A [C0] b = 1%R /\ raw_residual A [C1] b = 0%R /\
    learn_character_weights true bdcSvd_solve (group_of_order 1) [signal_1] [signal_1]
      = Ok (bdcSvd_solve A b).
Proof.
  split; [reflexivity|].
  eexists. eexists. split; [reflexivity|].
  unfold raw_residual, Mvec, Vsub, squaredNorm, Mget, Vget, Cnorm2, polar,
    Cmul, Cadd, Csub, Cdivr, Cconj, C0, C1. simpl.
  split; [field|]. split; [field|reflexivity].
Qed.

(** ** The learner's state across [fit] *)

Lemma frame_refl K s : frame K s s.
Proof. by repeat split. Qed.

Lemma frame_trans K s1 s2 s3 : frame K s1 s2 -> frame K s2 s3 -> frame K s1 s3.
Proof.
  intros (V1 & F1 & S1 & D1 & O1) (V2 & F2 & S2 & D2 & O2).
  repeat split; try congruence; [by auto|]. intros key Hk. by rewrite O2, O1.
Qed.

Lemma frame_weaken (K K' : string -> Prop) s s' :
  (forall key, K key -> K' key) -> frame K s s' -> frame K' s s'.
Proof.
  intros HK (V1 & F1 & S1 & D1 & O1). repeat split; try done. intros key Hk.
  apply O1. auto.
Qed.

Lemma lm_frame_ret {A} K (Q : A -> Prop) a : Q a -> lm_frame K Q (mret a).
Proof. intros Ha s. split; [apply frame_refl|]. by intros ? [= <-]. Qed.

Lemma lm_frame_bind {A B} K (Q : A -> Prop) (Q' : B -> Prop) (m : LM A) (f : A -> LM B) :
  lm_frame K Q m -> (forall a, Q a -> lm_frame K Q' (f a)) ->
  lm_frame K Q' (m ≫= f).
Proof.
  intros Hm Hf s. destruct (Hm s) as [Hfr Hq].
  unfold mbind, LM_bind. destruct (m s) as [[a|e] s1]; simpl in *.
  - destruct (Hf a (Hq a eq_refl) s1) as [Hfr' Hq'].
    split; [by eapply frame_trans|done].
  - split; [done|by intros].
Qed.

Lemma lm_frame_lift {A} K (Q : A -> Prop) (r : Result A) :
  (forall a, r = Ok a -> Q a) -> lm_frame K Q (lift r).
Proof. intros H s. split; [apply frame_refl|done]. Qed.

Lemma lm_frame_weaken {A} (K K' : string -> Prop) (Q Q' : A -> Prop) m :
  (forall key, K key -> K' key) -> (forall a, Q a -> Q' a) ->
  lm_frame K Q m -> lm_frame K' Q' m.
Proof.
  intros HK HQ H s. destruct (H s) as [Hf Hq].
  split; [by eapply frame_weaken|auto].
Qed.

Lemma lm_frame_registry_assign (K : string -> Prop) key cfg :
  K key -> lm_frame K (fun _ => True) (registry_assign key cfg).
Proof.
  intros HK s. split; [|done]. unfold registry_assign. simpl.
  repeat split; simpl.
  - intros k Hk. destruct (decide (key = k)) as [->|Hne].
    + rewrite lookup_insert_eq. by eexists.
    + by rewrite lookup_insert_ne.
  - intros k Hk. rewrite lookup_insert_ne; [done|]. by intros ->.
Qed.

Lemma lm_frame_registry_index (K : string -> Prop) key :
  K key -> lm_frame K (fun _ => True) (registry_index key).
Proof.
  intros HK s. split; [|done]. unfold registry_index.
  destruct (patch_configs_ s !! key) eqn:E; simpl; [apply frame_refl|].
  repeat split; simpl.
  - intros k Hk. destruct (decide (key = k)) as [->|Hne].
    + rewrite lookup_insert_eq. by eexists.
    + by rewrite lookup_insert_ne.
  - intros k Hk. rewrite lookup_insert_ne; [done|]. by intros ->.
Qed.

Lemma lm_frame_foldlM {A B} K (I : A -> Prop) (f : A -> B -> LM A) l a :
  I a -> (forall a x, x ∈ l -> I a -> lm_frame K I (f a x)) ->
  lm_frame K I (foldlM f a l).
Proof.
  revert a. induction l as [|x l IH]; intros a Ha H; simpl.
  - by apply lm_frame_ret.
  - eapply lm_frame_bind; [apply H; [by left|done]|].
    intros a' Ha'. apply IH; [done|]. intros. apply H; [by right|done].
Qed.

Lemma lm_frame_mapM {A B} K (f : A -> LM B) l :
  (forall x, x ∈ l -> lm_frame K (fun _ => True) (f x)) ->
  lm_frame K (fun _ => True) (mapM f l).
Proof.
  induction l as [|x l IH]; intros H; simpl.
  - by apply lm_frame_ret.
  - eapply lm_frame_bind; [apply H; by left|]. intros y _.
    eapply lm_frame_bind; [apply IH; intros; apply H; by right|]. intros k _.
    by apply lm_frame_ret.
Qed.

(** [build_local_systems] writes registry entries of patch names only, and
    the offsets it returns are those of patch names. *)
Lemma build_local_systems_frame problem :
  lm_frame (patch_names problem)
    (fun result => forall key, is_Some (patch_offsets result !! key) ->
                               patch_names problem key)
    (build_local_systems problem).
Proof.
  unfold build_local_systems.
  eapply lm_frame_bind with
    (Q := fun ro : LocalSystemsResult * nat =>
            forall key, is_Some (patch_offsets ro.1 !! key) -> patch_names problem key).
  - apply lm_frame_foldlM.
    + simpl. intros key [? H]. by rewrite lookup_empty in H.
    + intros [result off] patch Hin HI. unfold add_local_system.
      eapply lm_frame_bind; [apply lm_frame_registry_assign; exists patch; by split|].
      intros _ _. eapply lm_frame_bind; [by apply (lm_frame_lift _ (fun _ => True))|]. intros group _.
      eapply lm_frame_bind; [by apply (lm_frame_lift _ (fun _ => True))|]. intros systems _.
      apply lm_frame_ret. simpl. intros key Hkey.
      destruct (decide (name patch = key)) as [<-|Hne]; [exists patch; by split|].
      rewrite lookup_insert_ne in Hkey by done. by apply HI.
  - intros [result off] HQ. by apply lm_frame_ret.
Qed.

Lemma build_gluing_system_frame problem local_info :
  lm_frame (gluing_names problem) (fun _ => True)
    (build_gluing_system problem local_info).
Proof.
  unfold build_gluing_system.
  destruct (length (gluings problem) =? 0); [by apply lm_frame_ret|].
  eapply lm_frame_bind; [|intros; by apply lm_frame_ret].
  apply lm_frame_mapM. intros gluing Hin. unfold gluing_row.
  eapply lm_frame_bind; [apply lm_frame_registry_index; exists gluing; auto|]. intros config1 _.
  eapply lm_frame_bind; [apply lm_frame_registry_index; exists gluing; auto|]. intros config2 _.
  repeat (eapply lm_frame_bind; [by apply (lm_frame_lift _ (fun _ => True))|]; intros ? _).
  by apply lm_frame_lift.
Qed.

(** [unpack_solution] touches the registry at offset keys only, and reports
    the residual it is given with [converged] its comparison with [EPSILON]. *)
Lemma unpack_solution_frame w_solution local_info r :
  lm_frame (fun key => is_Some (patch_offsets local_info !! key))
    (fun sol => residual_error sol = r /\
                converged sol = double_lt r (Finite EPSILON))
    (unpack_solution w_solution local_info r).
Proof.
  unfold unpack_solution.
  eapply lm_frame_bind with (Q := fun _ => True); [|intros; by apply lm_frame_ret].
  apply lm_frame_foldlM; [done|]. intros acc [key offset] Hin _.
  apply elem_of_map_to_list in Hin.
  eapply lm_frame_bind; [by apply (lm_frame_lift _ (fun _ => True))|]. intros n_weights _.
  eapply lm_frame_bind; [apply lm_frame_registry_index; by eexists|]. intros config _.
  repeat (eapply lm_frame_bind; [by apply (lm_frame_lift _ (fun _ => True))|]; intros ? _).
  by apply lm_frame_ret.
Qed.

Lemma LM_bind_Ok {A B} (m : LM A) (f : A -> LM B) s a s1 :
  m s = (Ok a, s1) -> (m ≫= f) s = f a s1.
Proof. intros H. unfold mbind, LM_bind. by rewrite H. Qed.

Lemma LM_bind_Err {A B} (m : LM A) (f : A -> LM B) s e s1 :
  m s = (Err e, s1) -> (m ≫= f) s = (Err e, s1).
Proof. intros H. unfold mbind, LM_bind. by rewrite H. Qed.

Lemma frame_patch_names problem s s' :
  frame (patch_names problem) s s' -> frame (problem_names problem) s s'.
Proof. apply frame_weaken. intros key H. by left. Qed.

Lemma frame_gluing_names problem s s' :
  frame (gluing_names problem) s s' -> frame (problem_names problem) s s'.
Proof. apply frame_weaken. intros key H. by right. Qed.

(** The two ways [fit] ends.  It fails out of one of its steps, the learner
    changed within [frame]; or every step succeeded and the learner is the
    framed one with [fitted_] and [solution_] assigned, the residual reported
    being that of the vector [A w - b] of the assembled system. *)
Lemma fit_outcome llt_solve problem s :
  (exists e s', fit llt_solve problem s = (Err e, s') /\
                frame (problem_names problem) s s') \/
  (exists sol s1,
     frame (problem_names problem) s s1 /\
     fit llt_solve problem s
       = (Ok sol, mkLearner (verbose_ s1) true sol (patch_configs_ s1)) /\
     exists local_result s0 gluing_result s0' A_raw A_sheaf b_sheaf,
       build_local_systems problem s = (Ok local_result, s0) /\
       build_gluing_system problem local_result s0 = (Ok gluing_result, s0') /\
       assemble_global_system local_result gluing_result = Ok (A_raw, b_sheaf) /\
       read_matrix A_raw = Ok A_sheaf /\
       let w_solution := solve_normal_equations llt_solve A_sheaf b_sheaf in
       let r := snap_residual
                  (map of_complex_t (Vsub (Mvec A_sheaf w_solution) b_sheaf)) in
       residual_error sol = r /\ converged sol = double_lt r (Finite EPSILON)).
Proof.
  unfold fit.
  destruct (build_local_systems_frame problem s) as [F1 Q1].
  destruct (build_local_systems problem s) as [[local_result|e] s0] eqn:E1;
    simpl in F1, Q1.
  2:{ left. exists e, s0. rewrite (LM_bind_Err _ _ _ _ _ E1).
      split; [done|by apply frame_patch_names]. }
  rewrite (LM_bind_Ok _ _ _ _ _ E1).
  destruct (build_gluing_system_frame problem local_result s0) as [F2 _].
  destruct (build_gluing_system problem local_result s0)
    as [[gluing_result|e] s0'] eqn:E2; simpl in F2.
  2:{ left. exists e, s0'. rewrite (LM_bind_Err _ _ _ _ _ E2). split; [done|].
      eapply frame_trans; [by apply frame_patch_names|by apply frame_gluing_names]. }
  rewrite (LM_bind_Ok _ _ _ _ _ E2).
  assert (F12 : frame (problem_names problem) s s0').
  { eapply frame_trans; [by apply frame_patch_names|by apply frame_gluing_names]. }
  destruct (assemble_global_system local_result gluing_result) as [[A_raw b_sheaf]|e] eqn:E3.
  2:{ left. exists e, s0'. split; [reflexivity|done]. }
  destruct (read_matrix A_raw) as [A_sheaf|e] eqn:E4.
  2:{ left. exists e, s0'. split; [|done]. unfold mbind, LM_bind, lift. by rewrite E4. }
  set (w_solution := solve_normal_equations llt_solve A_sheaf b_sheaf).
  set (r := snap_residual (map of_complex_t (Vsub (Mvec A_sheaf w_solution) b_sheaf))).
  destruct (unpack_solution_frame w_solution local_result r s0') as [F3 Q3].
  assert (Hstep : forall k : SheafSolution -> LM SheafSolution,
    (lift (Ok (A_raw, b_sheaf)) ≫= (fun '(A_raw, b_sheaf) =>
       lift (read_matrix A_raw) ≫= fun A_sheaf =>
         let w_solution := solve_normal_equations llt_solve A_sheaf b_sheaf in
         let residuals := Vsub (Mvec A_sheaf w_solution) b_sheaf in
         let residual_error := snap_residual (map of_complex_t residuals) in
         unpack_solution w_solution local_result residual_error ≫= k)) s0'
    = (unpack_solution w_solution local_result r ≫= k) s0').
  { intros k. unfold mbind at 1 2, LM_bind at 1 2, lift. by rewrite E4. }
  rewrite Hstep. clear Hstep.
  destruct (unpack_solution _ local_result r s0') as [[sol|e] s1] eqn:E5;
    simpl in F3, Q3.
  - right. exists sol, s1. split.
    { eapply frame_trans; [done|]. eapply frame_weaken; [|done].
      intros key Hkey. left. by apply (Q1 _ eq_refl). }
    rewrite (LM_bind_Ok _ _ _ _ _ E5). split; [done|].
    exists local_result, s0, gluing_result, s0', A_raw, A_sheaf, b_sheaf.
    repeat split; try done; by apply (Q3 _ eq_refl).
  - left. exists e, s1. rewrite (LM_bind_Err _ _ _ _ _ E5). split; [done|].
    eapply frame_trans; [done|]. eapply frame_weaken; [|done].
    intros key Hkey. left. by apply (Q1 _ eq_refl).
Qed.

(** *** What a call of [fit] leaves in the registry *)

Lemma registry_written_refl problem s : registry_written problem s s.
Proof. intros key. by left. Qed.

Lemma registry_written_trans problem s1 s2 s3 :
  registry_written problem s1 s2 -> registry_written problem s2 s3 ->
  registry_written problem s1 s3.
Proof.
  intros H1 H2 key.
  destruct (H2 key) as [E|[Hreg|[E1 E2]]].
  - destruct (H1 key) as [E'|[(patch & ? & ? & E')|[E1' E2']]].
    + left. by rewrite E.
    + right. left. exists patch. by rewrite E.
    + right. right. by rewrite E.
  - right. by left.
  - destruct (H1 key) as [E'|[(patch & ? & ? & E')|[E1' E2']]].
    + right. right. split; [by rewrite <- E'|done].
    + congruence.
    + congruence.
Qed.

(** An entry that holds the configuration of a patch of its name still does
    after any writes of [fit]. *)
Lemma registered_written problem key s s' :
  registered problem key s -> registry_written problem s s' ->
  registered problem key s'.
Proof.
  intros (patch & Hin & Hname & E) H.
  destruct (H key) as [E'|[Hreg|[E1 _]]]; [|done|congruence].
  exists patch. by rewrite E'.
Qed.

Lemma lm_written_ret {A} problem (a : A) : lm_written problem (mret a).
Proof. intros s. apply registry_written_refl. Qed.

Lemma lm_written_lift {A} problem (r : Result A) : lm_written problem (lift r).
Proof. intros s. apply registry_written_refl. Qed.

Lemma lm_written_bind {A B} problem (m : LM A) (f : A -> LM B) :
  lm_written problem m -> (forall a, lm_written problem (f a)) ->
  lm_written problem (m ≫= f).
Proof.
  intros Hm Hf s. unfold mbind, LM_bind. specialize (Hm s).
  destruct (m s) as [[a|e] s1]; [|done].
  eapply registry_written_trans; [exact Hm|apply Hf].
Qed.

Lemma lm_written_foldlM {A B} problem (f : A -> B -> LM A) l :
  (forall a x, x ∈ l -> lm_written problem (f a x)) ->
  forall a, lm_written problem (foldlM f a l).
Proof.
  induction l as [|x l IH]; intros Hf a; [apply lm_written_ret|].
  change (foldlM f a (x :: l)) with (f a x ≫= fun a' => foldlM f a' l).
  apply lm_written_bind; [apply Hf; by left|].
  intros a'. apply IH. intros a'' y Hy. apply Hf. by right.
Qed.

Lemma lm_written_mapM {A B} problem (f : A -> LM B) l :
  (forall x, lm_written problem (f x)) -> lm_written problem (mapM f l).
Proof.
  intros Hf. induction l as [|x l IH]; [apply lm_written_ret|].
  change (mapM f (x :: l)) with (f x ≫= fun y => mapM f l ≫= fun k => mret (y :: k)).
  apply lm_written_bind; [apply Hf|]. intros y.
  apply lm_written_bind; [apply IH|]. intros k. apply lm_written_ret.
Qed.

Lemma lm_written_registry_assign problem patch :
  patch ∈ patches problem ->
  lm_written problem (registry_assign (name patch) (config patch)).
Proof.
  intros Hin s key. unfold registry_assign. simpl.
  destruct (decide (name patch = key)) as [<-|Hne].
  - right. left. exists patch. simpl. by rewrite lookup_insert_eq.
  - left. by rewrite lookup_insert_ne.
Qed.

Lemma lm_written_registry_index problem key :
  lm_written problem (registry_index key).
Proof.
  intros s key'. unfold registry_index.
  destruct (patch_configs_ s !! key) eqn:E; [by left|]. simpl.
  destruct (decide (key = key')) as [<-|Hne].
  - right. right. by rewrite lookup_insert_eq.
  - left. by rewrite lookup_insert_ne.
Qed.

Lemma add_local_system_written problem acc patch :
  patch ∈ patches problem -> lm_written problem (add_local_system acc patch).
Proof.
  intros Hin. destruct acc as [result off]. unfold add_local_system.
  apply lm_written_bind; [by apply lm_written_registry_assign|]. intros _.
  apply lm_written_bind; [apply lm_written_lift|]. intros group.
  apply lm_written_bind; [apply lm_written_lift|]. intros systems.
  apply lm_written_ret.
Qed.

Lemma build_local_systems_written problem :
  lm_written problem (build_local_systems problem).
Proof.
  unfold build_local_systems.
  apply lm_written_bind.
  - apply lm_written_foldlM. intros a x Hx. by apply add_local_system_written.
  - intros [result off]. apply lm_written_ret.
Qed.

Lemma build_gluing_system_written problem local_info :
  lm_written problem (build_gluing_system problem local_info).
Proof.
  unfold build_gluing_system.
  destruct (length (gluings problem) =? 0); [apply lm_written_ret|].
  apply lm_written_bind; [|intros; apply lm_written_ret].
  apply lm_written_mapM. intros gluing. unfold gluing_row.
  apply lm_written_bind; [apply lm_written_registry_index|]. intros config1.
  apply lm_written_bind; [apply lm_written_registry_index|]. intros config2.
  repeat (apply lm_written_bind; [apply lm_written_lift|]; intros ?).
  apply lm_written_lift.
Qed.

Lemma unpack_solution_written problem w_solution local_info r :
  lm_written problem (unpack_solution w_solution local_info r).
Proof.
  unfold unpack_solution.
  apply lm_written_bind; [|intros; apply lm_written_ret].
  apply lm_written_foldlM. intros acc [key offset] _.
  apply lm_written_bind; [apply lm_written_lift|]. intros n_weights.
  apply lm_written_bind; [apply lm_written_registry_index|]. intros config.
  repeat (apply lm_written_bind; [apply lm_written_lift|]; intros ?).
  apply lm_written_ret.
Qed.

(** The steps of [fit] after [build_local_systems]. *)
Lemma fit_steps_written llt_solve problem local_result :
  lm_written problem
    (gluing_result ← build_gluing_system problem local_result;
     '(A_raw, b_sheaf) ← lift (assemble_global_system local_result gluing_result);
     A_sheaf ← lift (read_matrix A_raw);
     let w_solution := solve_normal_equations llt_solve A_sheaf b_sheaf in
     let residuals := Vsub (Mvec A_sheaf w_solution) b_sheaf in
     let residual_error := snap_residual (map of_complex_t residuals) in
     sol ← unpack_solution w_solution local_result residual_error;
     _ ← set_solution sol;
     _ ← set_fitted true;
     mret sol).
Proof.
  apply lm_written_bind; [apply build_gluing_system_written|]. intros gluing_result.
  apply lm_written_bind; [apply lm_written_lift|]. intros [A_raw b_sheaf].
  apply lm_written_bind; [apply lm_written_lift|]. intros A_sheaf. cbv zeta.
  apply lm_written_bind; [apply unpack_solution_written|]. intros sol.
  apply lm_written_bind; [intros s key; by left|]. intros _.
  apply lm_written_bind; [intros s key; by left|]. intros _.
  apply lm_written_ret.
Qed.

Lemma fit_written llt_solve problem : lm_written problem (fit llt_solve problem).
Proof.
  unfold fit.
  apply lm_written_bind; [apply build_local_systems_written|].
  intros local_result. apply fit_steps_written.
Qed.

Lemma registered_bind {A B} problem key (m : LM A) (f : A -> LM B) s :
  registered problem key (m s).2 -> (forall a, lm_written problem (f a)) ->
  registered problem key ((m ≫= f) s).2.
Proof.
  intros Hm Hf. unfold mbind, LM_bind.
  destruct (m s) as [[a|e] s1]; [|done].
  eapply registered_written; [exact Hm|apply Hf].
Qed.

(** [build_local_systems] writes the entry of a patch before anything in its
    loop can throw: whether [fit] returns or throws, the first patch of the
    problem is registered afterwards. *)
Lemma fit_registers_first_patch llt_solve problem patch rest s :
  patches problem = patch :: rest ->
  registered problem (name patch) (fit llt_solve problem s).2.
Proof.
  intros Hps.
  assert (Hin : forall x, x ∈ patch :: rest -> x ∈ patches problem)
    by (intros x; by rewrite Hps).
  unfold fit.
  apply registered_bind; [|intros; apply fit_steps_written].
  unfold build_local_systems. rewrite Hps.
  apply registered_bind; [|intros [result off]; apply lm_written_ret].
  change (foldlM add_local_system (mkLocal [] [] ∅ ∅, 0) (patch :: rest))
    with (add_local_system (mkLocal [] [] ∅ ∅, 0) patch
            ≫= fun a' => foldlM add_local_system a' rest).
  apply registered_bind.
  - unfold add_local_system.
    apply registered_bind.
    + exists patch. split; [apply Hin; by left|]. split; [done|].
      unfold registry_assign. simpl. by rewrite lookup_insert_eq.
    + intros _.
      apply lm_written_bind; [apply lm_written_lift|]. intros group.
      apply lm_written_bind; [apply lm_written_lift|]. intros systems.
      apply lm_written_ret.
  - intros a'. apply lm_written_foldlM. intros a x Hx.
    apply add_local_system_written. apply Hin. by right.
Qed.

(** C5, as amended. When [fit] fails, the fitted flag and the stored solution
    are those before the call, every key of the registry is still
    registered, and the entries of keys the problem does not name are
    unchanged; an entry that differs from before holds the configuration of a
    patch of its name or, for a key that had no entry, the value-initialised
    configuration; and what the failed call wrote stays: when the problem
    has a patch, the name of its first patch is registered with the
    configuration of a patch of that name.  When [fit] succeeds, the learner
    is fitted and stores the solution returned. *)
Theorem fit_state_after_failure_and_success
    (llt_solve : Matrix -> Vector -> Vector) (problem : SheafProblem)
    (s : UnifiedSheafLearner) :
  (forall e s', fit llt_solve problem s = (Err e, s') ->
     fitted_ s' = fitted_ s /\ solution_ s' = solution_ s /\
     (forall key, is_Some (patch_configs_ s !! key) ->
                  is_Some (patch_configs_ s' !! key)) /\
     (forall key, ~ problem_names problem key ->
                  patch_configs_ s' !! key = patch_configs_ s !! key) /\
     registry_written problem s s' /\
     (forall patch rest, patches problem = patch :: rest ->
        registered problem (name patch) s')) /\
  (forall sol s', fit llt_solve problem s = (Ok sol, s') ->
     fitted_ s' = true /\ solution_ s' = sol).
Proof.
  split.
  - intros e s' Hfit.
    destruct (fit_outcome llt_solve problem s)
      as [(e' & s'' & Hf & Hframe)|(sol & s1 & _ & Hf & _)];
      [|by rewrite Hfit in Hf].
    rewrite Hfit in Hf. injection Hf as <- <-.
    destruct Hframe as (_ & ? & ? & ? & ?).
    do 4 (split; [done|]). split.
    + pose proof (fit_written llt_solve problem s) as H'. by rewrite Hfit in H'.
    + intros patch rest Hps.
      pose proof (fit_registers_first_patch llt_solve problem patch rest s Hps) as H'.
      by rewrite Hfit in H'.
  - intros sol s' Hfit.
    destruct (fit_outcome llt_solve problem s)
      as [(e' & s'' & Hf & _)|(sol' & s1 & _ & Hf & _)]; rewrite Hfit in Hf; [done|].
    by injection Hf as -> ->.
Qed.

(** Counterexample to C5 as stated: a patch with [n_positions = 0] makes
    [fit] fail with the invalid-order error after the registry has received
    the patch's entry. *)
Lemma fit_failure_changes_registry_counterexample :
  exists s',
    fit null_solver problem_bad_order (new_UnifiedSheafLearner false)
      = (Err InvalidOrder, s') /\
    patch_configs_ (new_UnifiedSheafLearner false) !! "p" = None /\
    patch_configs_ s' !! "p" = Some (mkPatchConfig 0 0 0) /\
    patch_configs_ s' <> patch_configs_ (new_UnifiedSheafLearner false).
Proof.
  eexists. split; [reflexivity|]. split; [reflexivity|]. split; [reflexivity|].
  intros H. apply (f_equal (fun m => m !! "p")) in H. done.
Qed.

(** ** The arithmetic of the residual *)

Lemma squaredNorm_nonneg (v : Vector) : (0 <= squaredNorm v)%R.
Proof.
  induction v as [|[a b] v IH]; [simpl; lra|].
  change (squaredNorm ((a, b) :: v)) with (a * a + b * b + squaredNorm v)%R.
  pose proof (Rle_0_sqr a). pose proof (Rle_0_sqr b). unfold Rsqr in *. lra.
Qed.

Lemma EPSILON_pos : (0 < EPSILON)%R.
Proof. unfold EPSILON. apply Rdiv_lt_0_compat; [lra|]. apply pow_lt. lra. Qed.

Lemma Rltb_true x y : Rltb x y = true <-> (x < y)%R.
Proof. unfold Rltb. by destruct (Rlt_dec x y). Qed.











(** The problem without patches: the system is empty, the residual is 0 and
    the solution has converged. *)
Lemma fit_no_patches_converges (llt_solve : Matrix -> Vector -> Vector) :
  exists sol s',
    fit llt_solve (mkProblem [] []) (new_UnifiedSheafLearner false) = (Ok sol, s') /\
    residual_error sol = Finite 0 /\ converged sol = true /\ fitted_ s' = true.
Proof.
  destruct (fit_outcome llt_solve (mkProblem [] []) (new_UnifiedSheafLearner false))
    as [(e & s' & Hf & _)|(sol & s1 & _ & Hf & Htrace)].
  { exfalso. revert Hf. vm_compute. discriminate. }
  exists sol. eexists. split; [exact Hf|].
  destruct Htrace as (local_result & s0 & gluing_result & s0' & A_raw & A_sheaf & b_sheaf
                        & E1 & E2 & E3 & E4 & Hres & Hconv).
  injection E1 as <- <-. injection E2 as <- <-. injection E3 as <- <-.
  injection E4 as <-.
  assert (Hsnap : snap_residual
            (map of_complex_t
               (Vsub (Mvec (mkMat 0 0 []) (solve_normal_equations llt_solve (mkMat 0 0 []) []))
                     [])) = Finite 0).
  { unfold snap_residual, Mvec, Vsub. simpl.
    assert (H : Rltb 0 EPSILON = true) by apply Rltb_true, EPSILON_pos.
    by rewrite H. }
  rewrite Hsnap in Hres, Hconv. split; [done|]. split; [|done].
  rewrite Hconv. apply Rltb_true, EPSILON_pos.
Qed.

(** ** Gluing constraints on unknown patches *)

Lemma registry_index_Ok key s :
  exists cfg s', registry_index key s = (Ok cfg, s') /\
    (patch_configs_ s !! key = None -> n_positions cfg = 0).
Proof.
  unfold registry_index. destruct (patch_configs_ s !! key) as [cfg|].
  - exists cfg, s. by split.
  - eexists. eexists. by split.
Qed.

Lemma registry_index_present key s cfg :
  patch_configs_ s !! key = Some cfg -> registry_index key s = (Ok cfg, s).
Proof. intros H. unfold registry_index. by rewrite H. Qed.

Lemma new_CyclicGroupCharacters_Err n e :
  new_CyclicGroupCharacters n = Err e -> e = InvalidOrder.
Proof. unfold new_CyclicGroupCharacters. destruct (n =? 0); by intros [= <-]. Qed.

(** A gluing constraint one of whose names has no registry entry ends in the
    group constructor's exception. *)
Lemma gluing_row_absent local_info total_weights gluing s :
  patch_configs_ s !! patch_1 gluing = None \/
  patch_configs_ s !! patch_2 gluing = None ->
  exists s', gluing_row local_info total_weights gluing s = (Err InvalidOrder, s').
Proof.
  intros Habs. unfold gluing_row.
  destruct (patch_configs_ s !! patch_1 gluing) as [c1|] eqn:E1.
  - destruct Habs as [|Habs]; [done|].
    rewrite (LM_bind_Ok _ _ _ _ _ (registry_index_present _ _ _ E1)).
    destruct (registry_index_Ok (patch_2 gluing) s) as (c2 & s2 & H2 & Hz).
    rewrite (LM_bind_Ok _ _ _ _ _ H2), (Hz Habs).
    exists s2. unfold mbind, LM_bind, lift.
    destruct (new_CyclicGroupCharacters (n_positions c1)) as [g1|e] eqn:Eg; [done|].
    by rewrite (new_CyclicGroupCharacters_Err _ _ Eg).
  - destruct (registry_index_Ok (patch_1 gluing) s) as (c1 & s1 & H1 & Hz).
    rewrite (LM_bind_Ok _ _ _ _ _ H1), (Hz E1).
    destruct (registry_index_Ok (patch_2 gluing) s1) as (c2 & s2 & H2 & _).
    rewrite (LM_bind_Ok _ _ _ _ _ H2). by exists s2.
Qed.

(** C4 (the code departs from it). On a new learner and a problem whose
    local systems build, [fit] with a first gluing constraint that names a
    patch absent from the patch list fails with the invalid-order error of the
    group constructor, not with the unknown-patch error: [patch_configs_[...]]
    inserts a configuration with [n_positions = 0] under the absent name. *)
Theorem fit_absent_gluing_patch_raises_invalid_order
    (llt_solve : Matrix -> Vector -> Vector) (problem : SheafProblem) (verbose : bool)
    (local_result : LocalSystemsResult) (s0 : UnifiedSheafLearner)
    (gluing : GluingConstraint) (rest : list GluingConstraint) :
  build_local_systems problem (new_UnifiedSheafLearner verbose)
    = (Ok local_result, s0) ->
  gluings problem = gluing :: rest ->
  ~ patch_names problem (patch_1 gluing) \/ ~ patch_names problem (patch_2 gluing) ->
  exists s', fit llt_solve problem (new_UnifiedSheafLearner verbose)
             = (Err InvalidOrder, s').
Proof.
  intros E1 Hg Habs.
  destruct (build_local_systems_frame problem (new_UnifiedSheafLearner verbose))
    as [(_ & _ & _ & _ & Hframe) _].
  rewrite E1 in Hframe. cbn [snd new_UnifiedSheafLearner patch_configs_] in Hframe.
  destruct (gluing_row_absent local_result
              (map_fold (fun _ n_weights acc => acc + n_weights) 0
                        (patch_n_weights local_result)) gluing s0) as [s' Hrow].
  { destruct Habs as [H|H]; [left|right]; by rewrite (Hframe _ H). }
  exists s'. unfold fit. rewrite (LM_bind_Ok _ _ _ _ _ E1).
  apply LM_bind_Err. unfold build_gluing_system. rewrite Hg. cbn [length Nat.eqb mapM].
  apply LM_bind_Err. by apply LM_bind_Err.
Qed.

Lemma fit_absent_gluing_patch_raises_invalid_order_witness :
  exists s', fit null_solver problem_ghost (new_UnifiedSheafLearner false)
             = (Err InvalidOrder, s').
Proof.
  eapply (fit_absent_gluing_patch_raises_invalid_order null_solver problem_ghost false).
  - vm_compute. reflexivity.
  - reflexivity.
  - right. intros (patch & Hin & Hname).
    apply list_elem_of_singleton in Hin as ->. discriminate Hname.
Defined.

(** ** Scenario A *)

Lemma LM_bind_inv_Ok {A B} (m : LM A) (f : A -> LM B) s b s2 :
  (m ≫= f) s = (Ok b, s2) -> exists a s1, m s = (Ok a, s1) /\ f a s1 = (Ok b, s2).
Proof. unfold mbind, LM_bind. destruct (m s) as [[a|e] s1]; [eauto|done]. Qed.

Lemma lift_inv_Ok {A} (r : Result A) s a s' :
  lift r s = (Ok a, s') -> r = Ok a /\ s' = s.
Proof. unfold lift. by intros [= -> ->]. Qed.

Lemma Result_bind_inv_Ok {A B} (m : Result A) (f : A -> Result B) b :
  m ≫= f = Ok b -> exists a, m = Ok a /\ f a = Ok b.
Proof. destruct m as [a|e]; [eauto|done]. Qed.

(** What one successful turn of the loop of [build_local_systems] adds. *)
Lemma add_local_system_Ok result off patch s acc' s' :
  add_local_system (result, off) patch s = (Ok acc', s') ->
  patch_configs_ s' = <[name patch := config patch]> (patch_configs_ s) /\
  acc'.2 = off + n_positions (config patch) * n_characters (config patch) /\
  patch_offsets acc'.1 = <[name patch := off]> (patch_offsets result) /\
  patch_n_weights acc'.1
    = <[name patch := n_positions (config patch) * n_characters (config patch)]>
        (patch_n_weights result) /\
  exists A_patch,
    matrices acc'.1 = matrices result ++ [A_patch] /\
    cols A_patch = n_positions (config patch) * n_characters (config patch) /\
    rows A_patch = length (V_samples patch).
Proof.
  unfold add_local_system. intros H.
  apply LM_bind_inv_Ok in H as ([] & s1 & H1 & H).
  unfold registry_assign in H1. injection H1 as <-.
  apply LM_bind_inv_Ok in H as (group & s2 & [_ ->]%lift_inv_Ok & H).
  apply LM_bind_inv_Ok in H as (systems & s3 & [Hsys ->]%lift_inv_Ok & H).
  apply Result_bind_inv_Ok in Hsys as (rows_b & _ & [= <-]).
  injection H as <- <-. simpl. repeat split. by eexists.
Qed.

Lemma get_feature_row_length V config group fr :
  get_feature_row V config group = Ok fr ->
  length fr = n_positions config * n_characters config.
Proof.
  unfold get_feature_row. intros (projs & _ & H)%Result_bind_inv_Ok.
  by destruct (feature_loops_written _ _ _ H).
Qed.

(** Subtracting from a segment whose first coefficient was never written
    reads that coefficient. *)
Lemma segment_subtract_uninitialised row offset f :
  0 < length f ->
  (offset + length f <= length row -> row !! offset = Some None) ->
  ~ is_Ok (segment_subtract row offset f).
Proof.
  intros Hf Hrow [r Hr]. unfold segment_subtract in Hr.
  destruct (Nat.leb_spec (offset + length f) (length row)) as [Hle|]; [|done].
  specialize (Hrow Hle).
  destruct f as [|y f]; [simpl in Hf; lia|].
  destruct (drop offset row) as [|c rest] eqn:Ed.
  { apply (f_equal length) in Ed. rewrite length_drop in Ed. simpl in *. lia. }
  assert (c = None) as ->.
  { pose proof (lookup_drop row offset 0) as Hl.
    rewrite Ed, Nat.add_0_r, Hrow in Hl. simpl in Hl. congruence. }
  done.
Qed.

(** A gluing constraint between two patches with disjoint column ranges never
    yields a row: the second segment of the row has not been written when
    [-=] reads it. *)
Lemma gluing_row_disjoint_fails local_info total_weights gluing s c1 c2 o1 o2 :
  patch_configs_ s !! patch_1 gluing = Some c1 ->
  patch_configs_ s !! patch_2 gluing = Some c2 ->
  patch_offsets local_info !! patch_1 gluing = Some o1 ->
  patch_offsets local_info !! patch_2 gluing = Some o2 ->
  o1 + n_positions c1 * n_characters c1 <= o2 ->
  0 < n_positions c2 * n_characters c2 ->
  forall row s', gluing_row local_info total_weights gluing s <> (Ok row, s').
Proof.
  intros Hc1 Hc2 Ho1 Ho2 Hdisj Hw2 row s' H. unfold gluing_row in H.
  apply LM_bind_inv_Ok in H as (config1 & s1 & H1 & H).
  unfold registry_index in H1. rewrite Hc1 in H1. injection H1 as <- <-.
  apply LM_bind_inv_Ok in H as (config2 & s2 & H2 & H).
  unfold registry_index in H2. rewrite Hc2 in H2. injection H2 as <- <-.
  apply LM_bind_inv_Ok in H as (group1 & ? & [_ ->]%lift_inv_Ok & H).
  apply LM_bind_inv_Ok in H as (group2 & ? & [_ ->]%lift_inv_Ok & H).
  apply LM_bind_inv_Ok in H as (feature1 & ? & [Hf1 ->]%lift_inv_Ok & H).
  apply LM_bind_inv_Ok in H as (feature2 & ? & [Hf2 ->]%lift_inv_Ok & H).
  apply get_feature_row_length in Hf1, Hf2.
  unfold map_at in H. rewrite Ho1, Ho2 in H.
  apply LM_bind_inv_Ok in H as (? & ? & [[= <-] ->]%lift_inv_Ok & H).
  apply LM_bind_inv_Ok in H as (? & ? & [[= <-] ->]%lift_inv_Ok & H).
  apply LM_bind_inv_Ok in H as (row1 & ? & [Hrow1 ->]%lift_inv_Ok & H).
  apply lift_inv_Ok in H as [H _].
  unfold segment_assign in Hrow1. rewrite length_replicate in Hrow1.
  destruct (Nat.leb_spec (o1 + length feature1) total_weights) as [Hle|]; [|done].
  injection Hrow1 as <-.
  eapply segment_subtract_uninitialised; [| |by eexists]; [lia|].
  rewrite !length_app, length_take, length_drop, length_replicate. intros Hlen.
  rewrite lookup_app_r by (rewrite length_take, length_replicate; lia).
  rewrite lookup_app_r by (rewrite length_take, length_replicate; lia).
  rewrite lookup_drop, length_take, length_replicate.
  apply lookup_replicate_2. lia.
Qed.

(** [A_sheaf] has the columns of the first local matrix: a gluing matrix with
    more columns does not fit into it. *)
Lemma assemble_global_system_gluing_wider local_result gluing_result M rest :
  matrices local_result = M :: rest ->
  0 < rows (A_gluing gluing_result) ->
  cols M < cols (A_gluing gluing_result) ->
  ~ is_Ok (assemble_global_system local_result gluing_result).
Proof.
  intros HM Hr Hc [r Hr']. unfold assemble_global_system in Hr'. rewrite HM in Hr'.
  apply Result_bind_inv_Ok in Hr' as ([A_rows b] & _ & Hr').
  destruct (Nat.ltb_spec 0 (rows (A_gluing gluing_result))); [|lia].
  destruct (Nat.leb_spec (cols (A_gluing gluing_result)) (cols M)); [lia|done].
Qed.

(** The local systems of Scenario A, whatever its signals. *)
Lemma scenario_A_local_systems Va Ta Vb Tb d1 d2 s local_result s0 :
  build_local_systems (scenario_A Va Ta Vb Tb d1 d2) s = (Ok local_result, s0) ->
  patch_configs_ s0
    = <["block_b" := mkPatchConfig 2 2 1]>
        (<["block_a" := mkPatchConfig 3 2 1]> (patch_configs_ s)) /\
  patch_offsets local_result = <["block_b" := 6]> (<["block_a" := 0]> ∅) /\
  patch_n_weights local_result = <["block_b" := 4]> (<["block_a" := 6]> ∅) /\
  exists Ma Mb, matrices local_result = [Ma; Mb] /\ cols Ma = 6.
Proof.
  unfold build_local_systems, scenario_A. cbn [patches]. intros H.
  apply LM_bind_inv_Ok in H as ([result off] & s2 & H & Hret).
  injection Hret as <- <-. cbn [foldlM] in H.
  apply LM_bind_inv_Ok in H as ([ra offa] & sa & Ha & H).
  apply LM_bind_inv_Ok in H as ([rb offb] & sb & Hb & H).
  injection H as <- <- <-.
  apply add_local_system_Ok in Ha as (Hca & Hoa & Hpa & Hwa & Ma & HMa & Hcols & _).
  apply add_local_system_Ok in Hb as (Hcb & Hob & Hpb & Hwb & Mb & HMb & _ & _).
  cbn [name config n_positions n_characters fst snd matrices patch_offsets
       patch_n_weights Nat.add Nat.mul app] in *.
  subst offa. rewrite Hcb, Hca, Hpb, Hpa, Hwb, Hwa, HMb, HMa.
  repeat split. by exists Ma, Mb.
Qed.

(** The shape of the gluing matrix that [build_gluing_system] allocates. *)
Lemma build_gluing_system_shape problem local_info s gluing_result s' :
  build_gluing_system problem local_info s = (Ok gluing_result, s') ->
  0 < length (gluings problem) ->
  rows (A_gluing gluing_result) = length (gluings problem) /\
  cols (A_gluing gluing_result)
    = map_fold (fun _ n_weights acc => acc + n_weights) 0 (patch_n_weights local_info).
Proof.
  unfold build_gluing_system. intros H Hlen.
  destruct (Nat.eqb_spec (length (gluings problem)) 0); [lia|].
  apply LM_bind_inv_Ok in H as (gluing_rows & s1 & _ & H).
  by injection H as <- <-.
Qed.

(** C3 (the code departs from it). On Scenario A, whatever matrices encode its
    samples, targets and gluing data, [fit] never returns a solution: the
    gluing matrix, allocated with the 10 columns of both patches, does not
    fit into [A_sheaf], allocated with the 6 columns of the first patch; and
    before that, filling the gluing row subtracts from coefficients that
    were never written.  On a learner that was not fitted, [predict] after
    this [fit] raises the not-fitted error. *)
Theorem fit_scenario_A_fails (llt_solve : Matrix -> Vector -> Vector)
    (Va Ta Vb Tb : list Matrix) (d1 d2 : Matrix) (s : UnifiedSheafLearner) :
  (forall sol s', fit llt_solve (scenario_A Va Ta Vb Tb d1 d2) s <> (Ok sol, s')) /\
  (forall local_result s0,
     build_local_systems (scenario_A Va Ta Vb Tb d1 d2) s = (Ok local_result, s0) ->
     map_fold (fun _ n_weights acc => acc + n_weights) 0 (patch_n_weights local_result) = 10 /\
     (forall gluing_result,
        rows (A_gluing gluing_result) = 1 -> cols (A_gluing gluing_result) = 10 ->
        ~ is_Ok (assemble_global_system local_result gluing_result)) /\
     (forall gluing_result s0',
        build_gluing_system (scenario_A Va Ta Vb Tb d1 d2) local_result s0
          <> (Ok gluing_result, s0'))) /\
  (fitted_ s = false ->
   forall V,
     predict (fit llt_solve (scenario_A Va Ta Vb Tb d1 d2) s).2
       "block_a" V = Err NotFitted).
Proof.
  assert (Hwide : forall local_result s0,
    build_local_systems (scenario_A Va Ta Vb Tb d1 d2) s = (Ok local_result, s0) ->
    map_fold (fun _ n_weights acc => acc + n_weights) 0 (patch_n_weights local_result) = 10 /\
    forall gluing_result,
      rows (A_gluing gluing_result) = 1 -> cols (A_gluing gluing_result) = 10 ->
      ~ is_Ok (assemble_global_system local_result gluing_result)).
  { intros local_result s0 E1.
    apply scenario_A_local_systems in E1 as (_ & _ & Hw & Ma & Mb & HM & Hcols).
    split; [rewrite Hw; by vm_compute|].
    intros gluing_result Hr Hc.
    eapply assemble_global_system_gluing_wider; [done|lia|lia]. }
  assert (Hnever : forall sol s',
    fit llt_solve (scenario_A Va Ta Vb Tb d1 d2) s <> (Ok sol, s')).
  { intros sol s' Hfit.
    destruct (fit_outcome llt_solve (scenario_A Va Ta Vb Tb d1 d2) s)
      as [(e' & s'' & Hf & _)|(sol' & s1 & _ & _ & Htrace)]; [by rewrite Hfit in Hf|].
    destruct Htrace as (local_result & s0 & gluing_result & s0' & A_raw & _ & b_sheaf
                          & E1 & E2 & E3 & _).
    destruct (Hwide _ _ E1) as [Htot Hfail].
    apply build_gluing_system_shape in E2 as [Hr Hc]; [|simpl; lia].
    apply (Hfail gluing_result); [done|by rewrite Hc|by eexists]. }
  split; [done|split].
  - intros local_result s0 E1. destruct (Hwide _ _ E1) as [Htot Hfail].
    split; [done|]. split; [done|]. intros gluing_result s0' E2.
    apply scenario_A_local_systems in E1 as (Hcfg & Hoff & _ & _).
    unfold build_gluing_system, scenario_A in E2.
    cbn [gluings length Nat.eqb mapM] in E2.
    apply LM_bind_inv_Ok in E2 as (gluing_rows & s2 & E2 & _).
    apply LM_bind_inv_Ok in E2 as (row & s3 & E2 & _).
    revert E2. eapply gluing_row_disjoint_fails; cbn [patch_1 patch_2].
    + rewrite Hcfg. rewrite lookup_insert_ne by done. apply lookup_insert_eq.
    + rewrite Hcfg. apply lookup_insert_eq.
    + rewrite Hoff. rewrite lookup_insert_ne by done. apply lookup_insert_eq.
    + rewrite Hoff. apply lookup_insert_eq.
    + cbn. lia.
    + cbn. lia.
  - intros Hnf V.
    destruct (fit_outcome llt_solve (scenario_A Va Ta Vb Tb d1 d2) s)
      as [(e' & s'' & Hf & Hframe)|(sol' & s1 & _ & Hf & _)];
      [|by apply Hnever in Hf].
    rewrite Hf. destruct Hframe as (_ & Hfitted & _).
    unfold predict. cbn [snd]. by rewrite Hfitted, Hnf.
Qed.

(** ** Characters as a group homomorphism *)

Lemma polar_unit_modulus x : Cnorm2 (polar 1 x) = 1%R.
Proof.
  unfold Cnorm2, polar. simpl.
  pose proof (sin2_cos2 x) as H. unfold Rsqr in H. lra.
Qed.

Lemma polar_add_turns x (m : nat) : polar 1 (x + INR m * (2 * PI)) = polar 1 x.
Proof. by rewrite <- polar_add, polar_period, Cmul_1_r. Qed.

(** The angle of [omega^(j * k)] depends on [k] modulo [n] only. *)
Lemma polar_character_mod (n j k : nat) :
  0 < n ->
  polar 1 (INR (j * (k mod n)) * (2 * PI / INR n))
  = polar 1 (INR (j * k) * (2 * PI / INR n)).
Proof.
  intros Hn. rewrite (Nat.div_mod_eq k n) at 2.
  rewrite <- (polar_add_turns _ (j * (k / n))). f_equal.
  rewrite !mult_INR, plus_INR, !mult_INR. field. apply not_0_INR. lia.
Qed.

(** X1. [character(j, k)] raises the index error exactly when [j] or [k]
    is not below the order, and every character value has modulus 1. *)
Theorem character_range_and_modulus (n : nat) (g : CyclicGroupCharacters) (j k : nat) :
  new_CyclicGroupCharacters n = Ok g ->
  (character g j k = Err IndexOutOfRange <-> n <= j \/ n <= k) /\
  (j < n -> k < n -> exists chi, character g j k = Ok chi /\ Cnorm2 chi = 1%R).
Proof.
  intros Hg. split.
  - split.
    + intros H. destruct (decide (j < n /\ k < n)) as [[Hj Hk]|]; [|lia].
      by rewrite (character_value n g j k) in H.
    + intros H. apply new_CyclicGroupCharacters_inv in Hg as [_ ->].
      unfold character. simpl.
      destruct (Nat.leb_spec n j); [done|]. destruct (Nat.leb_spec n k); [done|lia].
  - intros Hj Hk. eexists. split; [by apply (character_value n)|].
    apply polar_unit_modulus.
Qed.

Lemma character_range_and_modulus_witness :
  (character (group_of_order 3) 1 5 = Err IndexOutOfRange <-> 3 <= 1 \/ 3 <= 5) /\
  (1 < 3 -> 5 < 3 ->
   exists chi, character (group_of_order 3) 1 5 = Ok chi /\ Cnorm2 chi = 1%R).
Proof.
  apply (character_range_and_modulus 3 (group_of_order 3) 1 5). reflexivity.
Defined.

(** X2. The rows of the character table are homomorphisms of the cyclic
    group: [character(j, (k + k') mod n) = character(j, k) * character(j, k')];
    the table is symmetric, and its row 0 is constant 1. *)
Theorem character_homomorphism (n : nat) (g : CyclicGroupCharacters) (j k k' : nat) :
  new_CyclicGroupCharacters n = Ok g -> j < n -> k < n -> k' < n ->
  (exists a b, character g j k = Ok a /\ character g j k' = Ok b /\
     character g j ((k + k') mod n) = Ok (Cmul a b)) /\
  character g j k = character g k j /\
  character g 0 k = Ok C1.
Proof.
  intros Hg Hj Hk Hk'. split; [|split].
  - do 2 eexists. split; [by apply (character_value n)|].
    split; [by apply (character_value n)|].
    rewrite (character_value n) by (try done; apply Nat.mod_upper_bound; lia).
    f_equal. rewrite polar_character_mod by lia. rewrite polar_add. f_equal.
    rewrite !mult_INR, plus_INR. ring.
  - rewrite !(character_value n) by done. by rewrite Nat.mul_comm.
  - rewrite (character_value n) by (done || lia). f_equal.
    simpl. rewrite Rmult_0_l. apply polar_0.
Qed.

Lemma character_homomorphism_witness :
  (exists a b, character (group_of_order 4) 3 2 = Ok a /\
     character (group_of_order 4) 3 3 = Ok b /\
     character (group_of_order 4) 3 ((2 + 3) mod 4) = Ok (Cmul a b)) /\
  character (group_of_order 4) 3 2 = character (group_of_order 4) 2 3 /\
  character (group_of_order 4) 0 2 = Ok C1.
Proof.
  apply (character_homomorphism 4 (group_of_order 4) 3 2 3); [reflexivity|lia|lia|lia].
Defined.

(** ** Rotations form an action of the cyclic group *)

Lemma mod_add_cancel (r x a b : nat) :
  x < r -> (a + b) mod r = 0 -> ((x + a) mod r + b) mod r = x.
Proof.
  intros Hx H. rewrite Nat.Div0.add_mod_idemp_l, <- Nat.add_assoc.
  apply Nat.Div0.div_exact in H. rewrite H, Nat.mul_comm, Nat.Div0.mod_add.
  by apply Nat.mod_small.
Qed.

Lemma mod_complement (r k : nat) : 0 < r -> (k + (r - k mod r)) mod r = 0.
Proof.
  intros Hr. pose proof (Nat.mod_upper_bound k r ltac:(lia)) as Hlt.
  rewrite (Nat.div_mod_eq k r) at 1.
  replace (r * (k / r) + k mod r + (r - k mod r)) with (0 + (1 + k / r) * r) by lia.
  by rewrite Nat.Div0.mod_add, Nat.Div0.mod_0_l.
Qed.

(** The source row of [rotate]: shifting it by [k] gives back [i], and it is
    the only row below [r] that does. *)
Lemma rotate_source_add (r k i : nat) :
  i < r -> ((i + r - k mod r) mod r + k) mod r = i.
Proof.
  intros Hi. pose proof (Nat.mod_upper_bound k r ltac:(lia)) as Hlt.
  replace (i + r - k mod r) with (i + (r - k mod r)) by lia.
  apply mod_add_cancel; [done|]. rewrite Nat.add_comm. apply mod_complement. lia.
Qed.

Lemma rotate_source_unique (r k i s : nat) :
  s < r -> (s + k) mod r = i -> s = (i + r - k mod r) mod r.
Proof.
  intros Hs <-. pose proof (Nat.mod_upper_bound k r ltac:(lia)) as Hlt.
  pose proof (Nat.mod_upper_bound (s + k) r ltac:(lia)) as Hlt'.
  replace ((s + k) mod r + r - k mod r) with ((s + k) mod r + (r - k mod r)) by lia.
  symmetry. apply mod_add_cancel; [done|]. apply mod_complement. lia.
Qed.

Lemma rotate_Ok (V : Matrix) (k : nat) : 0 < rows V -> is_Ok (rotate V k).
Proof.
  intros Hr. unfold rotate. destruct (k =? 0); [by eexists|].
  destruct (Nat.eqb_spec (rows V) 0); [lia|]. by eexists.
Qed.

Lemma rotate_rows (V R : Matrix) (k : nat) :
  rotate V k = Ok R ->
  rows R = rows V /\ cols R = cols V /\
  (length (coeffs V) = rows V -> length (coeffs R) = rows R) /\
  forall i, i < rows V ->
    Mrow R i = Mrow V ((i + rows V - k mod rows V) mod rows V).
Proof.
  intros [[-> ->]|(Hk & Hr & ->)]%rotate_Ok_inv.
  - repeat split; try done. intros i Hi.
    rewrite Nat.Div0.mod_0_l, Nat.sub_0_r.
    replace (i + rows V) with (i + 1 * rows V) by lia.
    rewrite Nat.Div0.mod_add. by rewrite Nat.mod_small.
  - repeat split; try done.
    + intros _. simpl. by rewrite length_map, length_seq.
    + intros i Hi. by rewrite Mrow_map_seq.
Qed.

(** Two matrices of the same shape with the same rows are equal. *)
Lemma Mat_rows_ext {T} (A B : Mat T) :
  rows A = rows B -> cols A = cols B ->
  length (coeffs A) = rows A -> length (coeffs B) = rows B ->
  (forall i, i < rows A -> Mrow A i = Mrow B i) -> A = B.
Proof.
  destruct A as [ra ca la], B as [rb cb lb]. simpl.
  intros Hr Hc Hla Hlb H. destruct Hr, Hc. f_equal.
  apply list_eq. intros i. destruct (decide (i < ra)) as [Hi|Hi].
  - specialize (H i Hi). unfold Mrow in H. simpl in H.
    destruct (lookup_lt_is_Some_2 la i) as [x Hx]; [lia|].
    destruct (lookup_lt_is_Some_2 lb i) as [y Hy]; [lia|].
    rewrite Hx, Hy in *. simpl in H. by rewrite H.
  - rewrite !lookup_ge_None_2 by lia. done.
Qed.

(** X3. [rotate] depends on the shift modulo the number of rows only: shifts
    congruent modulo [rows V] give the same rows, and the same
    matrix when [V] is well formed.  A shift by a multiple of [rows V]
    is the case [k' = 0], where the result is [V]. *)
Theorem rotate_periodic (V : Matrix) (k k' : nat) :
  0 < rows V -> k mod rows V = k' mod rows V ->
  exists R R', rotate V k = Ok R /\ rotate V k' = Ok R' /\
    rows R = rows R' /\ cols R = cols R' /\
    (forall i, i < rows V -> Mrow R i = Mrow R' i) /\
    (Mat_wf V -> R = R').
Proof.
  intros Hr Hk.
  destruct (rotate_Ok V k Hr) as [R HR]. destruct (rotate_Ok V k' Hr) as [R' HR'].
  exists R, R'. split; [done|]. split; [done|].
  apply rotate_rows in HR as (Hr1 & Hc1 & Hl1 & He1).
  apply rotate_rows in HR' as (Hr2 & Hc2 & Hl2 & He2).
  assert (He : forall i, i < rows V -> Mrow R i = Mrow R' i).
  { intros i Hi. by rewrite He1, He2, Hk. }
  split; [congruence|]. split; [congruence|]. split; [done|].
  intros [Hlen _]. apply Mat_rows_ext; auto; try congruence.
  intros i Hi. apply He. congruence.
Qed.

Lemma rotate_periodic_witness :
  exists R R', rotate signal_1_0 3 = Ok R /\ rotate signal_1_0 1 = Ok R' /\
    rows R = rows R' /\ cols R = cols R' /\
    (forall i, i < rows signal_1_0 -> Mrow R i = Mrow R' i) /\
    (Mat_wf signal_1_0 -> R = R').
Proof.
  apply (rotate_periodic signal_1_0 3 1); [simpl; lia|reflexivity].
Defined.

(** X4. Rotations compose: rotating by [a] and then by [b] gives the rows of
    the rotation by [a + b], and the same matrix when [V] is well formed. *)
Theorem rotate_compose (V : Matrix) (a b : nat) :
  0 < rows V ->
  exists R1 R2 R, rotate V a = Ok R1 /\ rotate R1 b = Ok R2 /\
    rotate V (a + b) = Ok R /\
    rows R2 = rows R /\ cols R2 = cols R /\
    (forall i, i < rows V -> Mrow R2 i = Mrow R i) /\
    (Mat_wf V -> R2 = R).
Proof.
  intros Hr.
  destruct (rotate_Ok V a Hr) as [R1 HR1].
  pose proof (rotate_rows _ _ _ HR1) as (Hr1 & Hc1 & Hl1 & He1).
  destruct (rotate_Ok R1 b) as [R2 HR2]; [lia|].
  pose proof (rotate_rows _ _ _ HR2) as (Hr2 & Hc2 & Hl2 & He2).
  destruct (rotate_Ok V (a + b) Hr) as [R HR].
  pose proof (rotate_rows _ _ _ HR) as (Hr3 & Hc3 & Hl3 & He3).
  exists R1, R2, R. split; [done|]. split; [done|]. split; [done|].
  assert (He : forall i, i < rows V -> Mrow R2 i = Mrow R i).
  { intros i Hi. rewrite Hr1 in He2. rewrite He2 by done.
    pose proof (Nat.mod_upper_bound (i + rows V - b mod rows V) (rows V) ltac:(lia)) as H1.
    rewrite He1 by done. rewrite He3 by done. f_equal.
    apply rotate_source_unique; [apply Nat.mod_upper_bound; lia|].
    rewrite Nat.add_assoc, <- Nat.Div0.add_mod_idemp_l.
    rewrite rotate_source_add by done. by apply rotate_source_add. }
  split; [congruence|]. split; [congruence|]. split; [done|].
  intros [Hlen _]. apply Mat_rows_ext; auto; try congruence.
  intros i Hi. apply He. congruence.
Qed.

Lemma rotate_compose_witness :
  exists R1 R2 R, rotate signal_1_0 1 = Ok R1 /\ rotate R1 1 = Ok R2 /\
    rotate signal_1_0 (1 + 1) = Ok R /\
    rows R2 = rows R /\ cols R2 = cols R /\
    (forall i, i < rows signal_1_0 -> Mrow R2 i = Mrow R i) /\
    (Mat_wf signal_1_0 -> R2 = R).
Proof.
  apply (rotate_compose signal_1_0 1 1). simpl. lia.
Defined.

(** ** Sums over a cyclic index *)

Lemma Csum_S f n : Csum f (S n) = Cadd (Csum f n) (f n).
Proof. reflexivity. Qed.

Lemma Csum_peel_first f n : Csum f (S n) = Cadd (f 0) (Csum (fun k => f (S k)) n).
Proof.
  induction n as [|n IH]; [simpl; by rewrite Cadd_0_l, Cadd_0_r|].
  rewrite Csum_S, IH, (Csum_S (fun k => f (S k))). by rewrite Cadd_assoc.
Qed.

Lemma Csum_shift1 f L : Csum (fun k => f ((k + 1) mod L)) L = Csum f L.
Proof.
  destruct L as [|m]; [done|].
  rewrite (Csum_S (fun k => f ((k + 1) mod S m))), (Csum_peel_first f).
  replace ((m + 1) mod S m) with 0
    by (replace (m + 1) with (S m) by lia; by rewrite Nat.Div0.mod_same).
  rewrite Cadd_comm. f_equal. apply Csum_ext. intros k Hk.
  rewrite Nat.mod_small by lia. f_equal. lia.
Qed.

Lemma Csum_shift f L a : Csum (fun k => f ((k + a) mod L)) L = Csum f L.
Proof.
  induction a as [|a IH].
  - apply Csum_ext. intros k Hk. by rewrite Nat.add_0_r, Nat.mod_small.
  - rewrite <- IH, <- (Csum_shift1 (fun x => f ((x + a) mod L))).
    apply Csum_ext. intros k Hk. f_equal.
    rewrite Nat.Div0.add_mod_idemp_l. f_equal. lia.
Qed.

Lemma Csum_rev f n : Csum (fun k => f (n - 1 - k)) n = Csum f n.
Proof.
  induction n as [|n IH]; [done|].
  rewrite Csum_peel_first, (Csum_S f).
  replace (S n - 1 - 0) with n by lia. rewrite Cadd_comm. f_equal.
  rewrite <- IH. apply Csum_ext. intros k Hk. f_equal. lia.
Qed.

(** The source rows of the [L] rotations of a signal of length [L], read at
    one row [i], run over all rows. *)
Lemma Csum_rotate_sources (h : nat -> complex_t) (L i : nat) :
  i < L -> Csum (fun k => h ((i + L - k mod L) mod L)) L = Csum h L.
Proof.
  intros Hi. rewrite <- (Csum_shift h L (i + 1)).
  rewrite <- (Csum_rev (fun k => h ((i + L - k mod L) mod L))).
  apply Csum_ext. intros k Hk. f_equal.
  rewrite (Nat.mod_small (L - 1 - k)) by lia.
  replace (i + L - (L - 1 - k)) with (k + (i + 1)) by lia. done.
Qed.

(** ** The projections as a decomposition of the signal *)

(** X5. For a signal no longer than the group order, the projection onto the
    trivial character (index 0) has the mean of each column of [V] in every
    row. *)
Theorem project_onto_trivial_character_is_mean (n : nat) (g : CyclicGroupCharacters)
    (V : Matrix) :
  new_CyclicGroupCharacters n = Ok g -> 0 < rows V -> rows V <= n ->
  exists P : Matrix,
    project_onto_character g V 0 = Ok P /\ rows P = rows V /\ cols P = cols V /\
    forall i c, i < rows V -> c < cols V ->
      Mget P i c = Cdivr (Csum (fun r => Mget V r c) (rows V)) (INR (rows V)).
Proof.
  intros Hg HL Hn.
  destruct (project_onto_character_entries n g V 0 Hg) as (P & HP & Hr & Hc & He); [lia|].
  exists P. split; [done|]. split; [done|]. split; [done|].
  intros i c Hi Hc'. rewrite He by done.
  replace (rows V `min` n) with (rows V) by lia. f_equal.
  rewrite <- (Csum_rotate_sources (fun r => Mget V r c) (rows V) i) by done.
  apply Csum_ext. intros k Hk. simpl.
  rewrite Rmult_0_l, Ropp_0, polar_0. apply Cmul_1_l.
Qed.

Lemma project_onto_trivial_character_is_mean_witness :
  exists P : Matrix,
    project_onto_character (group_of_order 4) signal_1_0 0 = Ok P /\
    rows P = rows signal_1_0 /\ cols P = cols signal_1_0 /\
    forall i c, i < rows signal_1_0 -> c < cols signal_1_0 ->
      Mget P i c = Cdivr (Csum (fun r => Mget signal_1_0 r c) (rows signal_1_0))
                         (INR (rows signal_1_0)).
Proof.
  apply (project_onto_trivial_character_is_mean 4 (group_of_order 4) signal_1_0);
    [reflexivity|simpl; lia|simpl; lia].
Defined.

(** For a signal of full length, reading projection [j] at the source row of
    a rotation by [a] multiplies its coefficient by [character(j, a)]. *)
Lemma project_onto_character_source (n : nat) (g : CyclicGroupCharacters)
    (V P : Matrix) (j a : nat) :
  new_CyclicGroupCharacters n = Ok g -> rows V = n -> j < n ->
  project_onto_character g V j = Ok P ->
  forall i c, i < n -> c < cols V ->
    Mget P ((i + n - a mod n) mod n) c
    = Cmul (polar 1 (INR (j * a) * (2 * PI / INR n))) (Mget P i c).
Proof.
  intros Hg HL Hj HP i c Hi Hc.
  destruct (project_onto_character_entries n g V j Hg Hj) as (P' & HP' & _ & _ & He).
  rewrite HP in HP'. injection HP' as <-.
  assert (Hs : (i + n - a mod n) mod n < n) by (apply Nat.mod_upper_bound; lia).
  rewrite !He by (rewrite ?HL; done). rewrite HL, Nat.min_id.
  rewrite <- Cdivr_mul_r. f_equal.
  set (G := fun k => Cmul (polar 1 (- (INR (j * k) * (2 * PI / INR n))))
                          (Mget V ((i + n - k mod n) mod n) c)).
  rewrite <- (Csum_shift G n a), <- Csum_scale.
  apply Csum_ext. intros k Hk. unfold G. rewrite Cmul_assoc. f_equal.
  - rewrite <- !polar_conj, polar_character_mod by lia.
    rewrite !polar_conj, polar_add. f_equal. rewrite !mult_INR, plus_INR. ring.
  - f_equal. apply rotate_source_unique; [apply Nat.mod_upper_bound; lia|].
    rewrite Nat.Div0.add_mod_idemp_r, Nat.add_assoc, <- Nat.Div0.add_mod_idemp_l.
    rewrite rotate_source_add by done. by apply rotate_source_add.
Qed.

(** X6. For a signal of full length, every projection is an eigenvector of
    the rotations: [rotate(P_j, a) = character(j, a mod n) * P_j]. *)
Theorem projection_is_rotation_eigenvector (n : nat) (g : CyclicGroupCharacters)
    (V : Matrix) (j a : nat) :
  new_CyclicGroupCharacters n = Ok g -> rows V = n -> j < n ->
  exists (P R : Matrix) (chi : complex_t),
    project_onto_character g V j = Ok P /\ rotate P a = Ok R /\
    character g j (a mod n) = Ok chi /\
    rows R = n /\ cols R = cols V /\
    forall i c, i < n -> c < cols V -> Mget R i c = Cmul chi (Mget P i c).
Proof.
  intros Hg HL Hj.
  destruct (new_CyclicGroupCharacters_inv _ _ Hg) as [Hn _].
  destruct (project_onto_character_entries n g V j Hg Hj) as (P & HP & Hr & Hc & _).
  destruct (rotate_Ok P a) as [R HR]; [lia|].
  pose proof (rotate_rows _ _ _ HR) as (Hr' & Hc' & _ & _).
  exists P, R, (polar 1 (INR (j * (a mod n)) * (2 * PI / INR n))).
  split; [done|]. split; [done|].
  split; [apply (character_value n); [done|done|apply Nat.mod_upper_bound; lia]|].
  split; [congruence|]. split; [congruence|].
  intros i c Hi Hc2. rewrite (rotate_entries P R a i c HR) by lia.
  rewrite Hr, HL. rewrite polar_character_mod by lia.
  by apply (project_onto_character_source n g V).
Qed.

Lemma projection_is_rotation_eigenvector_witness :
  exists (P R : Matrix) (chi : complex_t),
    project_onto_character (group_of_order 2) signal_1_0 1 = Ok P /\
    rotate P 3 = Ok R /\
    character (group_of_order 2) 1 (3 mod 2) = Ok chi /\
    rows R = 2 /\ cols R = cols signal_1_0 /\
    forall i c, i < 2 -> c < cols signal_1_0 -> Mget R i c = Cmul chi (Mget P i c).
Proof.
  apply (projection_is_rotation_eigenvector 2 (group_of_order 2) signal_1_0 1 3);
    [reflexivity|reflexivity|lia].
Defined.

(** X7. For a signal of full length the projections are orthogonal
    idempotents: projecting projection [j] onto character [j'] gives
    projection [j] back when [j' = j] and the zero matrix otherwise. *)
Theorem projections_orthogonal_idempotent (n : nat) (g : CyclicGroupCharacters)
    (V : Matrix) (j j' : nat) :
  new_CyclicGroupCharacters n = Ok g -> rows V = n -> j < n -> j' < n ->
  exists P Q : Matrix,
    project_onto_character g V j = Ok P /\ project_onto_character g P j' = Ok Q /\
    Q = if decide (j = j') then P else Mzero n (cols V).
Proof.
  intros Hg HL Hj Hj'.
  destruct (new_CyclicGroupCharacters_inv _ _ Hg) as [Hn _].
  destruct (project_onto_character_entries n g V j Hg Hj) as (P & HP & Hr & Hc & _).
  destruct (project_onto_character_entries n g P j' Hg Hj') as (Q & HQ & Hr' & Hc' & He).
  exists P, Q. split; [done|]. split; [done|].
  assert (HPwf : Mat_wf P) by (by eapply project_onto_character_wf).
  assert (HQwf : Mat_wf Q) by (by eapply project_onto_character_wf).
  assert (Hent : forall i c, i < n -> c < cols V ->
            Mget Q i c = if decide (j = j') then Mget P i c else C0).
  { intros i c Hi Hc2. rewrite He by lia. rewrite Hr, HL, Nat.min_id.
    rewrite (Csum_ext _ (fun k => Cmul
               (polar 1 (INR k * ((INR j - INR j') * (2 * PI / INR n))))
               (Mget P i c))).
    - rewrite Csum_scale_r, Csum_characters by done.
      destruct (decide (j = j')).
      + apply complex_eq; unfold Cdivr, Cmul; simpl; field; apply not_0_INR; lia.
      + rewrite Cmul_0_l. apply complex_eq; unfold Cdivr, Rdiv; simpl; ring.
    - intros k Hk.
      rewrite (project_onto_character_source n g V P j k Hg HL Hj HP i c Hi Hc2).
      rewrite Cmul_assoc, polar_add. do 2 f_equal. rewrite !mult_INR. ring. }
  apply Meq_eq; [done|destruct (decide (j = j')); [done|apply Mbuild_wf]|].
  destruct (decide (j = j')) as [E|E].
  - split; [lia|]. split; [lia|]. intros i c Hi Hc2.
    by rewrite Hent by lia.
  - split; [simpl; lia|]. split; [simpl; lia|]. intros i c Hi Hc2.
    rewrite Hent by lia. unfold Mzero. rewrite Mget_Mbuild by lia. done.
Qed.

Lemma projections_orthogonal_idempotent_witness :
  exists P Q : Matrix,
    project_onto_character (group_of_order 2) signal_1_0 0 = Ok P /\
    project_onto_character (group_of_order 2) P 1 = Ok Q /\
    Q = if decide (0 = 1) then P else Mzero 2 (cols signal_1_0).
Proof.
  apply (projections_orthogonal_idempotent 2 (group_of_order 2) signal_1_0 0 1);
    [reflexivity|reflexivity|lia|lia].
Defined.

(** ** The number of projections and the linear combination *)

(** X8. For a constructed group, [decompose_into_characters] never raises:
    it returns [min(rows V, n)] well-formed matrices of the shape of [V], the
    projections in the order of the character index.  For a signal without
    rows this list is empty, and reconstruction from it raises the
    empty-input error in both builds. *)
Theorem decompose_into_characters_count (n : nat) (g : CyclicGroupCharacters)
    (V : Matrix) :
  new_CyclicGroupCharacters n = Ok g ->
  (exists projs, decompose_into_characters g V = Ok projs /\
     length projs = rows V `min` n /\
     forall j P, projs !! j = Some P ->
       project_onto_character g V j = Ok P /\
       rows P = rows V /\ cols P = cols V /\ Mat_wf P) /\
  (rows V = 0 -> forall USE_EIGEN3, round_trip USE_EIGEN3 g V = Err EmptyInput).
Proof.
  intros Hg. destruct (decompose_into_characters_Ok n g V Hg) as (projs & HD & Hlen & HP).
  split; [by exists projs|].
  intros H0 USE_EIGEN3. unfold round_trip. rewrite HD. simpl.
  destruct projs; [done|]. simpl in Hlen. lia.
Qed.

Lemma decompose_into_characters_count_witness :
  (exists projs, decompose_into_characters (group_of_order 4) signal_1_0 = Ok projs /\
     length projs = rows signal_1_0 `min` 4 /\
     forall j P, projs !! j = Some P ->
       project_onto_character (group_of_order 4) signal_1_0 j = Ok P /\
       rows P = rows signal_1_0 /\ cols P = cols signal_1_0 /\ Mat_wf P) /\
  (rows signal_1_0 = 0 ->
   forall USE_EIGEN3, round_trip USE_EIGEN3 (group_of_order 4) signal_1_0 = Err EmptyInput).
Proof.
  apply (decompose_into_characters_count 4 (group_of_order 4) signal_1_0). reflexivity.
Defined.

(** X9. Compiled with [USE_EIGEN3], [reconstruct_from_characters] returns a
    matrix exactly when there is a first projection and every projection
    whose index is below both lengths has its shape; the matrix it returns
    has that shape and is the linear combination
    [sum_j coefficients(j) * projections[j]] over those indices.  Compiled
    without [USE_EIGEN3] nothing compares the shapes: whenever the cells
    [i * cols_j + c] that it reads in the storage of the projections exist,
    it returns the matrix of the shape of the first projection that has at
    [(i, c)] the sum of [coefficients(j)] times that cell of projection [j];
    for well-formed projections of the shape of the first this is the matrix
    of the build with [USE_EIGEN3]. *)
Theorem reconstruct_from_characters_linear (coefficients : Vector)
    (projections : list Matrix) :
  let m := length projections `min` length coefficients in
  (is_Ok (reconstruct_from_characters true coefficients projections) <->
   exists P0, projections !! 0 = Some P0 /\
     forall j P, j < m -> projections !! j = Some P ->
       rows P = rows P0 /\ cols P = cols P0) /\
  (forall R, reconstruct_from_characters true coefficients projections = Ok R ->
   exists P0, projections !! 0 = Some P0 /\
     rows R = rows P0 /\ cols R = cols P0 /\
     forall i c, i < rows P0 -> c < cols P0 ->
       Mget R i c
       = Csum (fun j => Cmul (Vget coefficients j)
                             (Mget (default P0 (projections !! j)) i c)) m) /\
  (forall P0 (cell : nat -> nat -> nat -> complex_t),
     projections !! 0 = Some P0 ->
     (forall j P i c, j < m -> projections !! j = Some P ->
        i < rows P0 -> c < cols P0 -> Basic_at P i c = Ok (cell j i c)) ->
     exists R, reconstruct_from_characters false coefficients projections = Ok R /\
       rows R = rows P0 /\ cols R = cols P0 /\
       forall i c, i < rows P0 -> c < cols P0 ->
         Mget R i c = Csum (fun j => Cmul (Vget coefficients j) (cell j i c)) m) /\
  (forall P0, projections !! 0 = Some P0 ->
     (forall j P, j < m -> projections !! j = Some P ->
        Mat_wf P /\ rows P = rows P0 /\ cols P = cols P0) ->
     reconstruct_from_characters false coefficients projections
     = reconstruct_from_characters true coefficients projections).
Proof.
  intros m.
  assert (Hbasic : forall P0 (cell : nat -> nat -> nat -> complex_t),
     projections !! 0 = Some P0 ->
     (forall j P i c, j < m -> projections !! j = Some P ->
        i < rows P0 -> c < cols P0 -> Basic_at P i c = Ok (cell j i c)) ->
     exists R, reconstruct_from_characters false coefficients projections = Ok R /\
       rows R = rows P0 /\ cols R = cols P0 /\
       forall i c, i < rows P0 -> c < cols P0 ->
         Mget R i c = Csum (fun j => Cmul (Vget coefficients j) (cell j i c)) m).
  { intros P0 cell H0 Hcell.
    destruct projections as [|P0' rest]; [by rewrite lookup_nil in H0|].
    injection H0 as ->. unfold reconstruct_from_characters. cbv zeta.
    set (projections := P0 :: rest) in *.
    set (step := fun (result : Matrix) (j : nat) =>
         coef ← Vec_at coefficients j;
         P ← Vec_at projections j;
         cells ← mapM (fun i =>
             mapM (fun c' =>
                     x ← Basic_at P i c';
                     Ok (Cadd (Mget result i c') (Cmul coef x)))
                  (seq 0 (cols P0)))
           (seq 0 (rows P0));
         Ok (mkMat (rows P0) (cols P0) cells)).
    destruct (foldlM_Msum step (fun j i c => Cmul (Vget coefficients j) (cell j i c))
                (rows P0) (cols P0) m (Mzero (rows P0) (cols P0)))
      as (M & HM & HMr & HMc & HMe); [|done|done|].
    { intros j acc Hj _ _. pose proof Hj as Hj'. unfold m in Hj'.
      destruct (lookup_lt_is_Some_2 coefficients j) as [coef Ec]; [lia|].
      destruct (lookup_lt_is_Some_2 projections j) as [P EP]; [lia|].
      unfold step, Vec_at. rewrite Ec, EP. simpl.
      rewrite (reconstruct_cells coef P acc (rows P0) (cols P0) (cell j))
        by (intros; by apply Hcell).
      simpl. eexists. split; [done|]. split; [done|]. split; [done|].
      intros i c Hi Hc.
      change (mkMat (rows P0) (cols P0)
                (map (fun i => map (fun c' => Cadd (Mget acc i c') (Cmul coef (cell j i c')))
                                   (seq 0 (cols P0))) (seq 0 (rows P0))))
        with (Mbuild (rows P0) (cols P0)
                (fun i c' => Cadd (Mget acc i c') (Cmul coef (cell j i c')))).
      rewrite Mget_Mbuild by done. unfold Vget. by rewrite Ec. }
    exists M. split; [done|]. split; [done|]. split; [done|].
    intros i c Hi Hc. rewrite HMe by done.
    unfold Mzero. by rewrite Mget_Mbuild, Cadd_0_l by done. }
  assert (Hsame : forall P0, projections !! 0 = Some P0 ->
     (forall j P, j < m -> projections !! j = Some P ->
        Mat_wf P /\ rows P = rows P0 /\ cols P = cols P0) ->
     reconstruct_from_characters false coefficients projections
     = reconstruct_from_characters true coefficients projections).
  { intros P0 H0 Hshape.
    assert (Hlen : 0 < length projections) by (by apply lookup_lt_Some in H0).
    assert (H0' : forall P, projections !! 0 = Some P ->
                            rows P = rows P0 /\ cols P = cols P0).
    { intros P HP. rewrite H0 in HP. by injection HP as <-. }
    destruct (reconstruct_uniform true coefficients projections (rows P0) (cols P0)
                Hlen Hshape H0') as (R & HR & Hr & Hc & Hwf & He).
    destruct (reconstruct_uniform false coefficients projections (rows P0) (cols P0)
                Hlen Hshape H0') as (R' & HR' & Hr' & Hc' & Hwf' & He').
    rewrite HR, HR'. f_equal. apply Meq_eq; [done|done|].
    split; [congruence|]. split; [congruence|].
    rewrite Hr', Hc'. intros i c Hi Hc2. by rewrite He, He'. }
  destruct projections as [|P0 rest].
  { split; [split|split; [|split]];
      [by intros [? ?]|intros (? & H & _); by rewrite lookup_nil in H|done|..].
    - intros P0 cell H. by rewrite lookup_nil in H.
    - intros P0 H. by rewrite lookup_nil in H. }
  set (projections := P0 :: rest) in *.
  assert (H0 : projections !! 0 = Some P0) by done.
  set (step := fun (result : Matrix) (j : nat) =>
       coef ← Vec_at coefficients j;
       P ← Vec_at projections j;
       if (rows P =? rows result) && (cols P =? cols result)
       then Ok (Madd result (Mscale coef P))
       else Err (Undefined OutOfBounds)).
  assert (Hrec : reconstruct_from_characters true coefficients projections
                 = foldlM step (Mzero (rows P0) (cols P0)) (seq 0 m)).
  { reflexivity. }
  rewrite Hrec. clear Hrec.
  assert (Hinv : forall R, foldlM step (Mzero (rows P0) (cols P0)) (seq 0 m) = Ok R ->
    rows R = rows P0 /\ cols R = cols P0 /\
    (forall j P, j < m -> projections !! j = Some P ->
       rows P = rows P0 /\ cols P = cols P0) /\
    forall i c, i < rows P0 -> c < cols P0 ->
      Mget R i c
      = Csum (fun j => Cmul (Vget coefficients j)
                            (Mget (default P0 (projections !! j)) i c)) m).
  { intros R. generalize m. intros m'.
    apply (foldlM_seq_invariant (fun k acc =>
      rows acc = rows P0 /\ cols acc = cols P0 /\
      (forall j P, j < k -> projections !! j = Some P ->
         rows P = rows P0 /\ cols P = cols P0) /\
      forall i c, i < rows P0 -> c < cols P0 ->
        Mget acc i c
        = Csum (fun j => Cmul (Vget coefficients j)
                              (Mget (default P0 (projections !! j)) i c)) k)).
    - split; [done|]. split; [done|]. split; [intros; lia|].
      intros i c Hi Hc. unfold Mzero. by rewrite Mget_Mbuild.
    - intros k acc acc' Hk (Hr & Hc & Hsh & He) Hs. unfold step, Vec_at in Hs.
      destruct (coefficients !! k) as [coef|] eqn:Ec; simpl in Hs; [|done].
      destruct (projections !! k) as [P|] eqn:EP; simpl in Hs; [|done].
      destruct (Nat.eqb_spec (rows P) (rows acc)) as [Hr'|]; simpl in Hs; [|done].
      destruct (Nat.eqb_spec (cols P) (cols acc)) as [Hc'|]; simpl in Hs; [|done].
      injection Hs as <-. split; [done|]. split; [done|]. split.
      + intros j P' Hj HP'. destruct (decide (j = k)) as [->|].
        * rewrite EP in HP'. injection HP' as <-. split; congruence.
        * apply (Hsh j); [lia|done].
      + intros i c Hi Hc2. unfold Madd. rewrite Hr, Hc, Mget_Mbuild by done.
        rewrite Csum_S, He by done. f_equal.
        unfold Mscale. rewrite Hr', Hc', Hr, Hc, Mget_Mbuild by done.
        unfold Vget. by rewrite Ec, EP. }
  split; [split|split; [|split; [exact Hbasic|exact Hsame]]].
  - intros [R HR]. exists P0. split; [done|]. by apply (Hinv R).
  - intros (P0' & HP0' & Hsh). rewrite H0 in HP0'. injection HP0' as <-.
    destruct (foldlM_Msum step
      (fun j i c => Cmul (Vget coefficients j) (Mget (default P0 (projections !! j)) i c))
      (rows P0) (cols P0) m (Mzero (rows P0) (cols P0)))
      as (M & HM & _); [|done|done|by exists M].
    intros k acc Hk Hr Hc. unfold step, Vec_at.
    destruct (lookup_lt_is_Some_2 coefficients k) as [coef Ec]; [unfold m in Hk; lia|].
    destruct (lookup_lt_is_Some_2 projections k) as [P EP]; [unfold m in Hk; lia|].
    rewrite Ec, EP. simpl. destruct (Hsh k P Hk EP) as [Hr' Hc'].
    rewrite Hr', Hc', Hr, Hc, !Nat.eqb_refl. simpl.
    eexists. split; [done|]. split; [by rewrite <- Hr|]. split; [by rewrite <- Hc|].
    intros i c Hi Hc2. unfold Madd. rewrite Hr, Hc, Mget_Mbuild by done. f_equal.
    unfold Mscale. rewrite Hr', Hc', Mget_Mbuild by done.
    unfold Vget. by rewrite Ec.
  - intros R HR. exists P0. split; [done|].
    destruct (Hinv R HR) as (? & ? & _ & ?). done.
Qed.

Lemma reconstruct_from_characters_linear_witness :
  ~ is_Ok (reconstruct_from_characters true [C1; C1]
             [mkMat 1 1 [[C1]]; mkMat 2 2 [[(2, 0)%R; C0]; [C0; (2, 0)%R]]]) /\
  exists R,
    reconstruct_from_characters false [C1; C1]
      [mkMat 1 1 [[C1]]; mkMat 2 2 [[(2, 0)%R; C0]; [C0; (2, 0)%R]]] = Ok R /\
    rows R = 1 /\ cols R = 1 /\ Mget R 0 0 = (3, 0)%R.
Proof.
  destruct (reconstruct_from_characters_linear [C1; C1]
              [mkMat 1 1 [[C1]]; mkMat 2 2 [[(2, 0)%R; C0]; [C0; (2, 0)%R]]])
    as (Heigen & _ & Hbasic & _).
  split.
  - intros H. apply Heigen in H as (P0 & [= <-] & H).
    destruct (H 1 (mkMat 2 2 [[(2, 0)%R; C0]; [C0; (2, 0)%R]])) as [Hr _];
      [simpl; lia|reflexivity|]. discriminate Hr.
  - destruct (Hbasic (mkMat 1 1 [[C1]])
                (fun j _ _ => if j =? 0 then C1 else (2, 0)%R) eq_refl)
      as (R & HR & Hr & Hc & He).
    { intros j P i c Hj HP Hi Hc. simpl in Hj, Hi, Hc.
      assert (i = 0) as -> by lia. assert (c = 0) as -> by lia.
      destruct j as [|[|j]]; [| |lia]; injection HP as <-; reflexivity. }
    exists R. split; [exact HR|]. split; [exact Hr|]. split; [exact Hc|].
    rewrite He by (simpl; lia). simpl.
    unfold Cadd, Cmul, C0, C1. simpl. f_equal; lra.
Defined.

(** ** The errors of [learn_character_weights] *)

Section Raises.
Variable Q : Error -> Prop.

Lemma bind_raises {A B} (m : Result A) (f : A -> Result B) :
  (forall e, m = Err e -> Q e) -> (forall a e, f a = Err e -> Q e) ->
  forall e, m ≫= f = Err e -> Q e.
Proof. intros Hm Hf e. destruct m as [a|e']; simpl; [apply Hf|intros [= <-]; by apply Hm]. Qed.

Lemma mapM_raises {A B} (f : A -> Result B) l :
  (forall x e, f x = Err e -> Q e) -> forall e, mapM f l = Err e -> Q e.
Proof.
  intros Hf. induction l as [|x l IH]; [done|]. simpl.
  apply bind_raises; [apply Hf|]. intros y. apply bind_raises; [apply IH|done].
Qed.

Lemma foldlM_raises {A B} (f : A -> B -> Result A) l a :
  (forall acc x e, f acc x = Err e -> Q e) -> forall e, foldlM f a l = Err e -> Q e.
Proof.
  intros Hf. revert a. induction l as [|x l IH]; intros a; [done|]. simpl.
  apply bind_raises; [apply Hf|]. intros a'. apply IH.
Qed.
End Raises.

Lemma Vec_at_raises {T} (v : list T) i e : Vec_at v i = Err e -> e = Undefined OutOfBounds.
Proof. unfold Vec_at. destruct (v !! i); [done|]. by intros [= <-]. Qed.

Lemma Mat_at_raises {T} (M : Mat T) i j e :
  Mat_at M i j = Err e -> e = Undefined OutOfBounds.
Proof.
  unfold Mat_at. destruct (_ && _); [|by intros [= <-]].
  destruct (_ !! _); [done|]. by intros [= <-].
Qed.

(** No step of the assembly of the linear system raises the invalid-input
    error, for any group object. *)
Lemma design_system_raises g V_samples targets e :
  design_system g V_samples targets = Err e -> e <> InvalidInput.
Proof.
  unfold design_system. revert e.
  apply bind_raises; [by intros e ->%Vec_at_raises|]. intros V0.
  apply bind_raises; [|done].
  apply mapM_raises. intros i.
  apply bind_raises; [by intros e ->%Vec_at_raises|]. intros Vi.
  apply bind_raises.
  { unfold decompose_into_characters. apply mapM_raises. intros j.
    unfold project_onto_character. destruct (_ <=? _); [by intros e [= <-]|].
    cbv zeta. apply bind_raises; [|done].
    apply foldlM_raises. intros acc k.
    apply bind_raises.
    - unfold character. destruct (_ || _); [by intros e [= <-]|].
      by intros e ->%Mat_at_raises.
    - intros chi. apply bind_raises; [|done].
      unfold rotate. destruct (_ =? _); [done|]. cbv zeta.
      destruct (_ =? _); [by intros e [= <-]|done]. }
  intros projs. apply bind_raises.
  { apply mapM_raises. intros j. apply mapM_raises. intros k.
    destruct (_ =? _); [by intros e [= <-]|].
    apply bind_raises; [by intros e ->%Vec_at_raises|].
    by intros P e ->%Mat_at_raises. }
  intros columns. apply bind_raises; [by intros e ->%Vec_at_raises|]. intros Ti.
  apply bind_raises; [|done].
  apply mapM_raises. intros k. unfold flat_at.
  destruct (_ =? _); [by intros e [= <-]|]. by intros e ->%Mat_at_raises.
Qed.

(** X10. In both builds, [learn_character_weights] raises the invalid-input
    error exactly when there is no sample or the numbers of samples and of
    targets differ; this holds for every group object. *)
Theorem learn_character_weights_invalid_input (USE_EIGEN3 : bool)
    (bdcSvd_solve : Matrix -> Vector -> Vector)
    (g : CyclicGroupCharacters) (V_samples targets : list Matrix) :
  learn_character_weights USE_EIGEN3 bdcSvd_solve g V_samples targets = Err InvalidInput
  <-> V_samples = [] \/ length V_samples <> length targets.
Proof.
  unfold learn_character_weights.
  destruct (Nat.eqb_spec (length V_samples) 0) as [H0|H0]; simpl.
  { split; [|done]. intros _. left. by destruct V_samples. }
  destruct (Nat.eqb_spec (length V_samples) (length targets)) as [Hl|Hl]; simpl.
  - split; [|intros [->|?]; done].
    intros H. exfalso. revert H.
    destruct (design_system g V_samples targets) as [[A b]|e] eqn:E; simpl.
    + by destruct USE_EIGEN3.
    + intros [= ->]. by apply design_system_raises in E.
  - split; [|done]. intros _. by right.
Qed.

Lemma mapM_app_Err {A B} (f : A -> Result B) l1 x l2 e :
  (forall y, y ∈ l1 -> is_Ok (f y)) -> f x = Err e -> mapM f (l1 ++ x :: l2) = Err e.
Proof.
  intros H Hx. induction l1 as [|y l1 IH]; simpl; [by rewrite Hx|].
  destruct (H y) as [b Hb]; [left|]. rewrite Hb. simpl.
  rewrite IH; [done|]. intros z Hz. apply H. by right.
Qed.

Lemma mapM_total {A B} (f : A -> Result B) l :
  (forall y, y ∈ l -> is_Ok (f y)) -> is_Ok (mapM f l).
Proof.
  induction l as [|y l IH]; intros H; [by eexists|]. simpl.
  destruct (H y) as [b Hb]; [left|]. rewrite Hb. simpl.
  destruct IH as [bs Hbs]; [intros z Hz; apply H; by right|].
  rewrite Hbs. by eexists.
Qed.

(** X11. In both builds, the assembly loop of [learn_character_weights]
    reads [projs[j]] for every [j < n_], while [decompose_into_characters]
    returns only [min(rows, n_)] projections: a first sample that has a
    coefficient and fewer rows than the group order makes the call index
    the list of projections out of range. *)
Theorem learn_character_weights_short_sample (USE_EIGEN3 : bool)
    (bdcSvd_solve : Matrix -> Vector -> Vector)
    (n : nat) (g : CyclicGroupCharacters) (V0 : Matrix) (Vs targets : list Matrix) :
  new_CyclicGroupCharacters n = Ok g ->
  length targets = S (length Vs) ->
  rows V0 < n -> 0 < rows V0 * cols V0 ->
  learn_character_weights USE_EIGEN3 bdcSvd_solve g (V0 :: Vs) targets
  = Err (Undefined OutOfBounds).
Proof.
  intros Hg Hlen Hshort Hd.
  destruct (new_CyclicGroupCharacters_inv _ _ Hg) as [Hn Eg].
  assert (En : n_ g = n) by (by rewrite Eg).
  destruct (decompose_into_characters_Ok n g V0 Hg) as (projs & HD & Hlp & HP).
  unfold learn_character_weights. simpl length. rewrite Hlen, Nat.eqb_refl. simpl.
  assert (Hdesign : design_system g (V0 :: Vs) targets = Err (Undefined OutOfBounds));
    [|by rewrite Hdesign].
  unfold design_system. simpl length. rewrite <- cons_seq. simpl.
  rewrite HD. simpl. rewrite En.
  replace (seq 0 n) with (seq 0 (rows V0) ++ rows V0 :: seq (S (rows V0)) (n - S (rows V0))).
  2:{ rewrite cons_seq, <- seq_app. f_equal. lia. }
  rewrite (mapM_app_Err _ _ _ _ (Undefined OutOfBounds)); [done| |].
  - intros j Hj. apply elem_of_seq in Hj. apply mapM_total. intros k Hk.
    apply elem_of_seq in Hk.
    destruct (Nat.eqb_spec (cols V0) 0) as [Hc0|Hc0]; [lia|].
    destruct (lookup_lt_is_Some_2 projs j) as [P EP]; [lia|].
    unfold Vec_at at 1. rewrite EP. simpl.
    destruct (HP j P EP) as (_ & Hr & Hc & Hwf).
    rewrite Mat_at_wf; [by eexists|done| |].
    + rewrite Hr. apply Nat.Div0.div_lt_upper_bound. lia.
    + rewrite Hc. apply Nat.mod_upper_bound. lia.
  - destruct (rows V0 * cols V0) as [|d] eqn:Ed; [lia|]. simpl.
    destruct (Nat.eqb_spec (cols V0) 0) as [Hc0|Hc0]; [lia|].
    unfold Vec_at. rewrite lookup_ge_None_2 by lia. done.
Qed.

Lemma learn_character_weights_short_sample_witness :
  learn_character_weights false null_solver (group_of_order 4) [signal_1_0] [signal_1_0]
  = Err (Undefined OutOfBounds).
Proof.
  apply (learn_character_weights_short_sample false null_solver 4 (group_of_order 4)
           signal_1_0 [] [signal_1_0]); [reflexivity|reflexivity|simpl; lia|simpl; lia].
Defined.

(** ** The column layout of [build_local_systems] *)

Lemma mapM_Ok_Forall2 {A B} (f : A -> Result B) l ys :
  mapM f l = Ok ys -> Forall2 (fun x y => f x = Ok y) l ys.
Proof.
  revert ys. induction l as [|x l IH]; intros ys; simpl.
  - intros [= <-]. constructor.
  - intros (y & Hy & H)%Result_bind_inv_Ok.
    apply Result_bind_inv_Ok in H as (ys' & Hys & [= <-]).
    constructor; [done|by apply IH].
Qed.

(** What a successful turn of the loop appends to the local systems. *)
Lemma add_local_system_systems result off patch s acc' s' :
  add_local_system (result, off) patch s = (Ok acc', s') ->
  0 < n_positions (config patch) /\
  exists A_patch b_patch,
    matrices acc'.1 = matrices result ++ [A_patch] /\
    local_targets acc'.1 = local_targets result ++ [b_patch] /\
    Mat_wf A_patch /\ rows A_patch = length (V_samples patch) /\
    cols A_patch = patch_width patch /\
    length b_patch = length (V_samples patch).
Proof.
  unfold add_local_system. intros H.
  apply LM_bind_inv_Ok in H as ([] & s1 & H1 & H).
  apply LM_bind_inv_Ok in H as (group & s2 & [Hg ->]%lift_inv_Ok & H).
  apply LM_bind_inv_Ok in H as (systems & s3 & [Hsys ->]%lift_inv_Ok & H).
  apply Result_bind_inv_Ok in Hsys as (rows_b & Hrows & [= <-]).
  injection H as <- <-. simpl.
  apply new_CyclicGroupCharacters_inv in Hg as [Hn _]. split; [done|].
  apply mapM_Ok_Forall2 in Hrows.
  pose proof (Forall2_length _ _ _ Hrows) as Hlen. rewrite length_seq in Hlen.
  do 2 eexists. split; [done|]. split; [done|].
  split; [|by rewrite ?length_map].
  split; simpl; [by rewrite length_map|].
  apply Forall_forall. intros r Hr.
  apply list_elem_of_fmap in Hr as ([fr t] & -> & Hin).
  apply list_elem_of_lookup_1 in Hin as [i Hi].
  destruct (Forall2_lookup_r _ _ _ _ _ Hrows Hi) as (k & _ & Hk).
  apply Result_bind_inv_Ok in Hk as (Vi & _ & Hk).
  apply Result_bind_inv_Ok in Hk as (fr' & Hfr & Hk).
  apply Result_bind_inv_Ok in Hk as (Ti & _ & Hk).
  apply Result_bind_inv_Ok in Hk as (t' & _ & [= <- <-]).
  simpl. by apply get_feature_row_length in Hfr.
Qed.

Lemma LM_foldlM_cons {A B} (f : A -> B -> LM A) a x l :
  foldlM f a (x :: l) = (f a x ≫= fun a' => foldlM f a' l).
Proof. reflexivity. Qed.

(** The loop of [build_local_systems] from any accumulator: the offsets are
    cumulative, a name keeps the entries of its last patch, and names that
    do not occur keep what they had. *)
Lemma add_local_systems_layout ps : forall result off s result' off' s',
  foldlM (add_local_system) (result, off) ps s = (Ok (result', off'), s') ->
  off' = off + col_offset_after ps /\
  (exists Ms bs,
     matrices result' = matrices result ++ Ms /\
     local_targets result' = local_targets result ++ bs /\
     Forall2 (fun p M => Mat_wf M /\ rows M = length (V_samples p) /\
                         cols M = patch_width p) ps Ms /\
     Forall2 (fun p (b : Vector) => length b = length (V_samples p)) ps bs) /\
  Forall (fun p => 0 < n_positions (config p)) ps /\
  (forall key, (forall p, p ∈ ps -> name p <> key) ->
     patch_offsets result' !! key = patch_offsets result !! key /\
     patch_n_weights result' !! key = patch_n_weights result !! key /\
     patch_configs_ s' !! key = patch_configs_ s !! key) /\
  (forall i p, ps !! i = Some p ->
     (forall p', p' ∈ drop (S i) ps -> name p' <> name p) ->
     patch_offsets result' !! name p = Some (off + col_offset_after (take i ps)) /\
     patch_n_weights result' !! name p = Some (patch_width p) /\
     patch_configs_ s' !! name p = Some (config p)).
Proof.
  induction ps as [|p ps IH]; intros result off s result' off' s' H.
  - injection H as <- <- <-. unfold col_offset_after. simpl.
    split; [lia|]. split; [exists [], []; by rewrite !app_nil_r|].
    split; [done|]. split; [done|]. intros i p Hp. by rewrite lookup_nil in Hp.
  - rewrite LM_foldlM_cons in H.
    apply LM_bind_inv_Ok in H as ([result1 off1] & s1 & H1 & H).
    pose proof (add_local_system_Ok _ _ _ _ _ _ H1) as (Hcfg & Hoff & Hpo & Hpw & _).
    pose proof (add_local_system_systems _ _ _ _ _ _ H1)
      as (Hpos & A_patch & b_patch & HM & Hb & Hwf & Hr & Hc & Hlb).
    simpl in Hoff, Hpo, Hpw, HM, Hb.
    destruct (IH _ _ _ _ _ _ H) as (Hoff' & (Ms & bs & HMs & Hbs & HF & HFb) & Hposs & Hkeep & Hlast).
    fold (patch_width p) in Hoff.
    assert (Hsum : col_offset_after (p :: ps) = patch_width p + col_offset_after ps)
      by reflexivity.
    split; [lia|]. split; [|split; [by constructor|split]].
    + exists (A_patch :: Ms), (b_patch :: bs).
      rewrite HMs, HM, Hbs, Hb, <- !app_assoc. simpl.
      split; [done|]. split; [done|]. split; by constructor.
    + intros key Hkey.
      destruct (Hkeep key) as (-> & -> & ->); [intros q Hq; apply Hkey; by right|].
      assert (name p <> key) by (apply Hkey; by left).
      rewrite Hpo, Hpw, Hcfg, !lookup_insert_ne by done. done.
    + intros [|i] q Hq Hlater; simpl in Hq.
      * injection Hq as <-. simpl in Hlater. rewrite drop_0 in Hlater.
        destruct (Hkeep (name p) Hlater) as (-> & -> & ->).
        rewrite Hpo, Hpw, Hcfg, !lookup_insert_eq.
        unfold col_offset_after. simpl. rewrite Nat.add_0_r. done.
      * destruct (Hlast i q Hq Hlater) as (-> & -> & ->).
        split; [|done]. f_equal.
        change (col_offset_after (take (S i) (p :: ps)))
          with (patch_width p + col_offset_after (take i ps)). lia.
Qed.

Lemma build_local_systems_inv (problem : SheafProblem)
    (s s0 : UnifiedSheafLearner) (local_result : LocalSystemsResult) :
  build_local_systems problem s = (Ok local_result, s0) ->
  Forall2 (fun p M => Mat_wf M /\ rows M = length (V_samples p) /\
                      cols M = patch_width p)
          (patches problem) (matrices local_result) /\
  Forall2 (fun p (b : Vector) => length b = length (V_samples p))
          (patches problem) (local_targets local_result) /\
  Forall (fun p => 0 < n_positions (config p)) (patches problem) /\
  (forall key, ~ patch_names problem key ->
     patch_offsets local_result !! key = None /\
     patch_configs_ s0 !! key = patch_configs_ s !! key) /\
  forall i p, patches problem !! i = Some p ->
    (forall p', p' ∈ drop (S i) (patches problem) -> name p' <> name p) ->
    patch_offsets local_result !! name p
      = Some (col_offset_after (take i (patches problem))) /\
    patch_n_weights local_result !! name p = Some (patch_width p) /\
    patch_configs_ s0 !! name p = Some (config p).
Proof.
  unfold build_local_systems. intros H.
  apply LM_bind_inv_Ok in H as ([result off] & s1 & H & [= <- <-]).
  apply add_local_systems_layout in H
    as (_ & (Ms & bs & HMs & Hbs & HF & HFb) & Hpos & Hkeep & Hlast).
  simpl in HMs, Hbs. subst. split; [done|]. split; [done|]. split; [done|].
  split; [|done]. intros key Hkey.
  destruct (Hkeep key) as (-> & _ & ->); [|done].
  intros p Hp Hn. apply Hkey. by exists p.
Qed.

(** X12. When [build_local_systems] returns, there is one well-formed local
    matrix and one target vector per patch, the matrix of a patch has one row
    per sample and [n_positions * n_characters] columns, and the last patch
    of each name has as offset the sum of the widths of all patches before
    it, its own width as number of weights, and its configuration in the
    registry. *)
Theorem build_local_systems_layout (problem : SheafProblem)
    (s s0 : UnifiedSheafLearner) (local_result : LocalSystemsResult) :
  build_local_systems problem s = (Ok local_result, s0) ->
  Forall2 (fun p M => Mat_wf M /\ rows M = length (V_samples p) /\
                      cols M = patch_width p)
          (patches problem) (matrices local_result) /\
  Forall2 (fun p (b : Vector) => length b = length (V_samples p))
          (patches problem) (local_targets local_result) /\
  forall i p, patches problem !! i = Some p ->
    (forall p', p' ∈ drop (S i) (patches problem) -> name p' <> name p) ->
    patch_offsets local_result !! name p
      = Some (col_offset_after (take i (patches problem))) /\
    patch_n_weights local_result !! name p = Some (patch_width p) /\
    patch_configs_ s0 !! name p = Some (config p).
Proof.
  intros H. apply build_local_systems_inv in H as (? & ? & _ & _ & ?). done.
Qed.

Lemma build_local_systems_layout_witness :
  exists local_result s0,
    build_local_systems problem_single (new_UnifiedSheafLearner false)
      = (Ok local_result, s0) /\
    forall i p, patches problem_single !! i = Some p ->
      (forall p', p' ∈ drop (S i) (patches problem_single) -> name p' <> name p) ->
      patch_offsets local_result !! name p
        = Some (col_offset_after (take i (patches problem_single))) /\
      patch_n_weights local_result !! name p = Some (patch_width p) /\
      patch_configs_ s0 !! name p = Some (config p).
Proof.
  assert (H : exists local_result s0,
    build_local_systems problem_single (new_UnifiedSheafLearner false)
      = (Ok local_result, s0)).
  { eexists. eexists. vm_compute. reflexivity. }
  destruct H as (local_result & s0 & H). exists local_result, s0. split; [exact H|].
  exact (proj2 (proj2 (build_local_systems_layout problem_single
                         (new_UnifiedSheafLearner false) s0 local_result H))).
Defined.

(** ** Problems with more than one patch *)

Lemma assemble_global_system_cols local_result gluing_result A_raw b_sheaf :
  assemble_global_system local_result gluing_result = Ok (A_raw, b_sheaf) ->
  cols A_raw = match matrices local_result with [] => 0 | mat :: _ => cols mat end.
Proof.
  unfold assemble_global_system. intros ([A_rows b'] & _ & H)%Result_bind_inv_Ok.
  cbv beta iota in H.
  destruct (0 <? _); [destruct (_ <=? _); [|done]|]; by injection H as <- _.
Qed.

Lemma read_matrix_shape A_raw A_sheaf :
  read_matrix A_raw = Ok A_sheaf ->
  rows A_sheaf = rows A_raw /\ cols A_sheaf = cols A_raw.
Proof. unfold read_matrix. by intros (rs & _ & [= <-])%Result_bind_inv_Ok. Qed.

Lemma LM_foldlM_fails {A B} (f : A -> B -> LM A) l x :
  x ∈ l -> (forall acc s r s', f acc x s <> (Ok r, s')) ->
  forall a s r s', foldlM f a l s <> (Ok r, s').
Proof.
  intros Hx Hf. induction l as [|y l IH]; [by apply elem_of_nil in Hx|].
  intros a s r s' H. rewrite LM_foldlM_cons in H.
  apply LM_bind_inv_Ok in H as (a1 & s1 & H1 & H).
  apply elem_of_cons in Hx as [->|Hx]; [by apply Hf in H1|by apply IH in H].
Qed.

(** [unpack_solution] takes the segment of every patch out of the solution
    vector: a patch whose columns end beyond the vector makes it fail. *)
Lemma unpack_solution_segment_fails w_solution local_info r key off nw s :
  patch_offsets local_info !! key = Some off ->
  patch_n_weights local_info !! key = Some nw ->
  length w_solution < off + nw ->
  forall sol s', unpack_solution w_solution local_info r s <> (Ok sol, s').
Proof.
  intros Hoff Hnw Hlen sol s' H. unfold unpack_solution in H.
  apply LM_bind_inv_Ok in H as (sol_weights & s1 & H & _).
  revert H. apply (LM_foldlM_fails _ _ (key, off)); [by apply elem_of_map_to_list|].
  intros acc s2 r2 s2' H. cbv beta iota in H.
  apply LM_bind_inv_Ok in H as (nw' & s3 & [Hm ->]%lift_inv_Ok & H).
  unfold map_at in Hm. rewrite Hnw in Hm. injection Hm as <-.
  apply LM_bind_inv_Ok in H as (cfg & s4 & _ & H).
  apply LM_bind_inv_Ok in H as (wf & s5 & [Hseg _]%lift_inv_Ok & _).
  unfold segment in Hseg. destruct (Nat.leb_spec (off + nw) (length w_solution)); [lia|done].
Qed.

Lemma solve_normal_equations_length llt_solve A_sheaf b_sheaf :
  (forall A b, length (llt_solve A b) = cols A) ->
  length (solve_normal_equations llt_solve A_sheaf b_sheaf) = cols A_sheaf.
Proof. intros H. unfold solve_normal_equations. by rewrite H. Qed.

(** The steps of a successful [fit]. *)
Lemma fit_Ok_inv llt_solve problem s sol s' :
  fit llt_solve problem s = (Ok sol, s') ->
  exists local_result s0 gluing_result s1 A_raw A_sheaf b_sheaf r,
    build_local_systems problem s = (Ok local_result, s0) /\
    build_gluing_system problem local_result s0 = (Ok gluing_result, s1) /\
    assemble_global_system local_result gluing_result = Ok (A_raw, b_sheaf) /\
    read_matrix A_raw = Ok A_sheaf /\
    exists s2,
      unpack_solution (solve_normal_equations llt_solve A_sheaf b_sheaf)
        local_result r s1 = (Ok sol, s2) /\
      s' = mkLearner (verbose_ s2) true sol (patch_configs_ s2).
Proof.
  unfold fit. intros H.
  apply LM_bind_inv_Ok in H as (local_result & s0 & E1 & H).
  apply LM_bind_inv_Ok in H as (gluing_result & s1 & E2 & H).
  cbv beta iota in H.
  apply LM_bind_inv_Ok in H as ([A_raw b_sheaf] & s2 & [E3 ->]%lift_inv_Ok & H).
  cbv beta iota in H.
  apply LM_bind_inv_Ok in H as (A_sheaf & s3 & [E4 ->]%lift_inv_Ok & H).
  cbv zeta in H.
  apply LM_bind_inv_Ok in H as (sol' & s4 & E5 & H).
  injection H as <- <-.
  exists local_result, s0, gluing_result, s1, A_raw, A_sheaf, b_sheaf.
  eexists. split; [done|]. split; [done|]. split; [done|]. split; [done|].
  exists s4. split; [exact E5|done].
Qed.

(** X13. [A_sheaf] has the columns of the first local matrix only, so the
    solution vector has the width of the first patch, while [unpack_solution]
    reads the segment of every patch at its cumulative offset.  Hence with a
    solver that returns one weight per column, as Eigen's does, [fit] never
    returns a solution for a problem of two or more patches whose last patch
    has a weight. *)
Theorem fit_several_patches_fails (llt_solve : Matrix -> Vector -> Vector)
    (problem : SheafProblem) (p1 p' : Patch) (ps : list Patch)
    (s : UnifiedSheafLearner) :
  (forall A b, length (llt_solve A b) = cols A) ->
  patches problem = p1 :: ps ++ [p'] ->
  0 < patch_width p' ->
  forall sol s', fit llt_solve problem s <> (Ok sol, s').
Proof.
  intros Hsolve Hps Hw sol s' Hfit.
  apply fit_Ok_inv in Hfit
    as (local_result & s0 & gluing_result & s1 & A_raw & A_sheaf & b_sheaf & r
        & E1 & E2 & E3 & E4 & s2 & E5 & _).
  apply build_local_systems_inv in E1 as (HF & _ & _ & _ & Hlast).
  destruct (Hlast (length (p1 :: ps)) p') as (Hoff & Hnw & _).
  { rewrite Hps. change (p1 :: ps ++ [p']) with ((p1 :: ps) ++ [p']).
    by rewrite lookup_app_r, Nat.sub_diag by lia. }
  { rewrite Hps. change (p1 :: ps ++ [p']) with ((p1 :: ps) ++ [p']).
    rewrite drop_ge by (rewrite length_app; simpl; lia).
    intros q Hq. by apply elem_of_nil in Hq. }
  rewrite Hps in Hoff, HF.
  change (p1 :: ps ++ [p']) with ((p1 :: ps) ++ [p']) in Hoff.
  rewrite take_app_length in Hoff.
  apply assemble_global_system_cols in E3.
  apply read_matrix_shape in E4 as [_ E4].
  destruct (matrices local_result) as [|M1 Ms]; [by apply Forall2_nil_inv_r in HF|].
  apply Forall2_cons_1 in HF as [(_ & _ & Hc) _].
  revert E5. eapply unpack_solution_segment_fails; [exact Hoff|exact Hnw|].
  rewrite (solve_normal_equations_length _ _ _ Hsolve), E4, E3, Hc.
  change (col_offset_after (p1 :: ps)) with (patch_width p1 + col_offset_after ps).
  lia.
Qed.

Lemma fit_several_patches_fails_witness :
  0 < patch_width (mkPatch "block_b" [signal_1] [signal_1] config_1_1) /\
  forall sol s',
    fit null_solver
        (mkProblem [patch_block_a_1; mkPatch "block_b" [signal_1] [signal_1] config_1_1] [])
        (new_UnifiedSheafLearner false) <> (Ok sol, s').
Proof.
  split; [vm_compute; lia|].
  apply (fit_several_patches_fails null_solver
           (mkProblem [patch_block_a_1;
                       mkPatch "block_b" [signal_1] [signal_1] config_1_1] [])
           patch_block_a_1 (mkPatch "block_b" [signal_1] [signal_1] config_1_1) []).
  - intros A b. unfold null_solver. apply length_replicate.
  - reflexivity.
  - vm_compute. lia.
Defined.



(** ** The residual that [fit] reports *)




(** ** The weights of a solution *)

Lemma registry_extends_refl s : registry_extends s s.
Proof. by intros key cfg. Qed.

Lemma registry_extends_trans s1 s2 s3 :
  registry_extends s1 s2 -> registry_extends s2 s3 -> registry_extends s1 s3.
Proof. intros H1 H2 key cfg H. by apply H2, H1. Qed.

Lemma lm_extends_ret {A} (a : A) : lm_extends (mret a).
Proof. intros s. apply registry_extends_refl. Qed.

Lemma lm_extends_lift {A} (r : Result A) : lm_extends (lift r).
Proof. intros s. apply registry_extends_refl. Qed.

Lemma lm_extends_bind {A B} (m : LM A) (f : A -> LM B) :
  lm_extends m -> (forall a, lm_extends (f a)) -> lm_extends (m ≫= f).
Proof.
  intros Hm Hf s. unfold mbind, LM_bind. specialize (Hm s).
  destruct (m s) as [[a|e] s1]; [|done].
  eapply registry_extends_trans; [exact Hm|apply Hf].
Qed.

Lemma lm_extends_registry_index key : lm_extends (registry_index key).
Proof.
  intros s key' cfg H. unfold registry_index.
  destruct (patch_configs_ s !! key) eqn:E; [done|]. simpl.
  destruct (decide (key = key')) as [->|]; [congruence|].
  by rewrite lookup_insert_ne.
Qed.

Lemma lm_extends_foldlM {A B} (f : A -> B -> LM A) l :
  (forall a x, lm_extends (f a x)) -> forall a, lm_extends (foldlM f a l).
Proof.
  intros Hf. induction l as [|x l IH]; intros a; [apply lm_extends_ret|].
  rewrite LM_foldlM_cons. apply lm_extends_bind; [apply Hf|apply IH].
Qed.

Lemma lm_extends_mapM {A B} (f : A -> LM B) l :
  (forall x, lm_extends (f x)) -> lm_extends (mapM f l).
Proof.
  intros Hf. induction l as [|x l IH]; [apply lm_extends_ret|].
  change (mapM f (x :: l)) with (f x ≫= fun y => mapM f l ≫= fun k => mret (y :: k)).
  apply lm_extends_bind; [apply Hf|]. intros y.
  apply lm_extends_bind; [apply IH|]. intros k. apply lm_extends_ret.
Qed.

Lemma build_gluing_system_extends problem local_info :
  lm_extends (build_gluing_system problem local_info).
Proof.
  unfold build_gluing_system. destruct (_ =? _); [apply lm_extends_ret|].
  apply lm_extends_bind; [|intros; apply lm_extends_ret].
  apply lm_extends_mapM. intros gluing. unfold gluing_row.
  repeat first [apply lm_extends_lift | apply lm_extends_registry_index
               | apply lm_extends_bind | intros ? ].
Qed.

(** One turn of the loop of [unpack_solution]. *)
Lemma unpack_step_inv (w_solution : Vector) local_info
    (sol_weights : gmap string Matrix) key offset s sol_weights' s' :
  (n_weights ← lift (map_at (patch_n_weights local_info) key);
   config ← registry_index key;
   weights_flat ← lift (segment w_solution offset n_weights);
   rs ← lift (mapM (fun p =>
           mapM (fun j => Vec_at weights_flat (p * n_characters config + j))
                (seq 0 (n_characters config)))
         (seq 0 (n_positions config)));
   mret (<[key := mkMat (n_positions config) (n_characters config) rs]> sol_weights)) s
  = (Ok sol_weights', s') ->
  registry_extends s s' /\
  exists cfg W,
    patch_configs_ s' !! key = Some cfg /\
    sol_weights' = <[key := W]> sol_weights /\
    Mat_wf W /\ rows W = n_positions cfg /\ cols W = n_characters cfg /\
    forall p j, p < n_positions cfg -> j < n_characters cfg ->
      Mget W p j = Vget w_solution (offset + (p * n_characters cfg + j)).
Proof.
  intros H.
  apply LM_bind_inv_Ok in H as (nw & s1 & [_ ->]%lift_inv_Ok & H).
  apply LM_bind_inv_Ok in H as (cfg & s2 & Hreg & H).
  apply LM_bind_inv_Ok in H as (wf & s3 & [Hseg ->]%lift_inv_Ok & H).
  apply LM_bind_inv_Ok in H as (rs & s4 & [Hrs ->]%lift_inv_Ok & H).
  injection H as <- <-.
  split; [pose proof (lm_extends_registry_index key s) as He; by rewrite Hreg in He|].
  exists cfg, (mkMat (n_positions cfg) (n_characters cfg) rs).
  assert (Hcfg : patch_configs_ s2 !! key = Some cfg).
  { unfold registry_index in Hreg.
    destruct (patch_configs_ s !! key) eqn:E.
    - by injection Hreg as <- <-.
    - injection Hreg as <- <-. simpl. apply lookup_insert_eq. }
  split; [done|]. split; [done|].
  unfold segment in Hseg. destruct (_ <=? _); [|done]. injection Hseg as <-.
  apply mapM_Ok_Forall2 in Hrs.
  pose proof (Forall2_length _ _ _ Hrs) as Hlen. rewrite length_seq in Hlen.
  assert (Hrow : forall p r, rs !! p = Some r ->
            Forall2 (fun j x => Vec_at (take nw (drop offset w_solution))
                                  (p * n_characters cfg + j) = Ok x)
                    (seq 0 (n_characters cfg)) r).
  { intros p r Hr. destruct (Forall2_lookup_r _ _ _ _ _ Hrs Hr) as (k & Hk & Hm).
    apply lookup_seq in Hk as [-> _]. by apply mapM_Ok_Forall2 in Hm. }
  split; [|split; [done|split; [done|]]].
  - split; simpl; [done|]. apply Forall_forall. intros r Hr.
    apply list_elem_of_lookup_1 in Hr as [p Hp]. apply Hrow in Hp.
    apply Forall2_length in Hp. by rewrite length_seq in Hp.
  - intros p j Hp Hj. unfold Mget, Mrow. simpl.
    destruct (lookup_lt_is_Some_2 rs p) as [r Hr]; [lia|]. rewrite Hr. simpl.
    pose proof (Hrow p r Hr) as HF.
    destruct (lookup_lt_is_Some_2 r j) as [x Hx];
      [apply Forall2_length in HF; rewrite length_seq in HF; lia|].
    rewrite Hx. simpl.
    destruct (Forall2_lookup_r _ _ _ _ _ HF Hx) as (k & Hk & Hv).
    apply lookup_seq in Hk as [-> _]. simpl in Hv. unfold Vec_at in Hv.
    destruct (take nw (drop offset w_solution) !! (p * n_characters cfg + j))
      as [y|] eqn:Ey; [|done].
    injection Hv as ->.
    apply lookup_take_Some in Ey as [Ey _]. rewrite lookup_drop in Ey.
    unfold Vget. by rewrite Ey.
Qed.

(** A loop that inserts one entry per key of a duplicate-free list. *)
Lemma LM_foldlM_insert {V} (P : string -> nat -> UnifiedSheafLearner -> V -> Prop)
    (f : gmap string V -> string * nat -> LM (gmap string V)) :
  (forall acc key off s acc' s', f acc (key, off) s = (Ok acc', s') ->
     registry_extends s s' /\ exists v, acc' = <[key := v]> acc /\ P key off s' v) ->
  (forall key off s s' v, registry_extends s s' -> P key off s v -> P key off s' v) ->
  forall l, NoDup l.*1 -> forall acc s r s',
    foldlM f acc l s = (Ok r, s') ->
    registry_extends s s' /\
    (forall key, key ∉ l.*1 -> r !! key = acc !! key) /\
    (forall key off, (key, off) ∈ l -> exists v, r !! key = Some v /\ P key off s' v).
Proof.
  intros Hf Hmono. induction l as [|[key off] l IH]; intros Hnd acc s r s' H.
  - injection H as <- <-. split; [apply registry_extends_refl|]. split; [done|].
    intros key off Hin. by apply elem_of_nil in Hin.
  - rewrite LM_foldlM_cons in H.
    apply LM_bind_inv_Ok in H as (acc1 & s1 & H1 & H).
    apply Hf in H1 as (He1 & v & -> & Hv).
    simpl in Hnd. apply NoDup_cons in Hnd as [Hkey Hnd].
    destruct (IH Hnd _ _ _ _ H) as (He & Hout & Hin).
    split; [by eapply registry_extends_trans|]. split.
    + intros key' Hk. simpl in Hk. apply not_elem_of_cons in Hk as [Hne Hk].
      rewrite (Hout key' Hk). by rewrite lookup_insert_ne.
    + intros key' off' [[= -> ->]|Hl]%elem_of_cons.
      * exists v. rewrite (Hout key Hkey), lookup_insert_eq. split; [done|].
        by eapply Hmono.
      * by apply Hin.
Qed.

(** What [unpack_solution] returns: the residual it was given, and for every
    patch with an offset a well-formed matrix of the shape its registry entry
    gives, filled row by row from the segment of the solution vector. *)
Lemma unpack_solution_inv (w_solution : Vector) local_info r s sol s' :
  unpack_solution w_solution local_info r s = (Ok sol, s') ->
  registry_extends s s' /\ residual_error sol = r /\
  (forall key, patch_offsets local_info !! key = None -> weights sol !! key = None) /\
  forall key off, patch_offsets local_info !! key = Some off ->
    exists cfg W,
      patch_configs_ s' !! key = Some cfg /\ weights sol !! key = Some W /\
      Mat_wf W /\ rows W = n_positions cfg /\ cols W = n_characters cfg /\
      forall p j, p < n_positions cfg -> j < n_characters cfg ->
        Mget W p j = Vget w_solution (off + (p * n_characters cfg + j)).
Proof.
  unfold unpack_solution. intros H.
  apply LM_bind_inv_Ok in H as (sol_weights & s1 & H & [= <- <-]).
  apply (LM_foldlM_insert (fun key off s1 W => exists cfg,
           patch_configs_ s1 !! key = Some cfg /\
           Mat_wf W /\ rows W = n_positions cfg /\ cols W = n_characters cfg /\
           forall p j, p < n_positions cfg -> j < n_characters cfg ->
             Mget W p j = Vget w_solution (off + (p * n_characters cfg + j)))) in H.
  - destruct H as (He & Hout & Hin). split; [done|]. split; [done|]. split.
    + intros key Hnone. simpl. rewrite Hout; [done|].
      intros ([key' off] & -> & Hk)%list_elem_of_fmap.
      apply elem_of_map_to_list in Hk. simpl in Hnone. congruence.
    + intros key off Hoff. apply elem_of_map_to_list in Hoff.
      destruct (Hin key off Hoff) as (W & HW & cfg & Hcfg & Hrest).
      exists cfg, W. split; [done|]. split; [done|]. done.
  - intros acc key off s2 acc' s2' Hstep.
    apply unpack_step_inv in Hstep as (He & cfg & W & Hcfg & -> & ?).
    split; [done|]. exists W. split; [done|]. by exists cfg.
  - intros key off s2 s2' W He (cfg & Hcfg & ?). exists cfg. split; [by apply He|done].
  - apply NoDup_fst_map_to_list.
Qed.

Lemma last_patch_of_name (ps : list Patch) (key : string) :
  (exists p, p ∈ ps /\ name p = key) ->
  exists i p, ps !! i = Some p /\ name p = key /\
    forall p', p' ∈ drop (S i) ps -> name p' <> name p.
Proof.
  induction ps as [|p0 ps IH]; [intros (p & Hp & _); by apply elem_of_nil in Hp|].
  intros (p & Hp & Hn).
  destruct (decide (key ∈ name <$> ps)) as [Hin|Hout].
  - apply list_elem_of_fmap in Hin as (q & -> & Hq).
    destruct IH as (i & q' & Hi & Hn' & Hl); [by exists q|].
    by exists (S i), q'.
  - apply elem_of_cons in Hp as [->|Hp].
    + exists 0, p0. split; [done|]. split; [done|]. simpl. rewrite drop_0.
      intros p' Hp' E. apply Hout. apply list_elem_of_fmap. exists p'. by rewrite E, Hn.
    + exfalso. apply Hout. apply list_elem_of_fmap. by exists p.
Qed.

(** The solution of a successful [fit]: its weights have the patch names as
    keys, and the matrix of the last patch of a name has the shape of that
    patch and the segment of the solution vector at the patch's offset. *)
Lemma fit_Ok_weights llt_solve problem s sol s' :
  fit llt_solve problem s = (Ok sol, s') ->
  fitted_ s' = true /\ solution_ s' = sol /\
  (forall key, is_Some (weights sol !! key) <-> patch_names problem key) /\
  exists local_result s0 gluing_result s1 A_raw A_sheaf b_sheaf,
    build_local_systems problem s = (Ok local_result, s0) /\
    build_gluing_system problem local_result s0 = (Ok gluing_result, s1) /\
    assemble_global_system local_result gluing_result = Ok (A_raw, b_sheaf) /\
    read_matrix A_raw = Ok A_sheaf /\
    let w_solution := solve_normal_equations llt_solve A_sheaf b_sheaf in
    forall i p, patches problem !! i = Some p ->
      (forall p', p' ∈ drop (S i) (patches problem) -> name p' <> name p) ->
      patch_configs_ s' !! name p = Some (config p) /\
      exists W, weights sol !! name p = Some W /\ Mat_wf W /\
        rows W = n_positions (config p) /\ cols W = n_characters (config p) /\
        forall pp j, pp < n_positions (config p) -> j < n_characters (config p) ->
          Mget W pp j
          = Vget w_solution (col_offset_after (take i (patches problem))
                             + (pp * n_characters (config p) + j)).
Proof.
  intros Hfit.
  apply fit_Ok_inv in Hfit
    as (local_result & s0 & gluing_result & s1 & A_raw & A_sheaf & b_sheaf & r
        & E1 & E2 & E3 & E4 & s2 & E5 & ->).
  pose proof E1 as E1'. pose proof E2 as E2'.
  apply build_local_systems_inv in E1 as (_ & _ & _ & Hkeep & Hlast).
  pose proof (build_gluing_system_extends problem local_result s0) as Hext.
  rewrite E2 in Hext. simpl in Hext.
  apply unpack_solution_inv in E5 as (Hext2 & _ & Hnone & Hsome).
  assert (Hall : forall i p, patches problem !! i = Some p ->
      (forall p', p' ∈ drop (S i) (patches problem) -> name p' <> name p) ->
      patch_configs_ s2 !! name p = Some (config p) /\
      exists W, weights sol !! name p = Some W /\ Mat_wf W /\
        rows W = n_positions (config p) /\ cols W = n_characters (config p) /\
        forall pp j, pp < n_positions (config p) -> j < n_characters (config p) ->
          Mget W pp j
          = Vget (solve_normal_equations llt_solve A_sheaf b_sheaf)
              (col_offset_after (take i (patches problem))
               + (pp * n_characters (config p) + j))).
  { intros i p Hp Hl. destruct (Hlast i p Hp Hl) as (Hoff & _ & Hcfg).
    apply Hext, Hext2 in Hcfg. split; [done|].
    destruct (Hsome _ _ Hoff) as (cfg & W & Hcfg' & HW & Hwf & Hr & Hc & He).
    rewrite Hcfg in Hcfg'. injection Hcfg' as <-. by exists W. }
  split; [done|]. split; [done|]. split.
  2:{ exists local_result, s0, gluing_result, s1, A_raw, A_sheaf, b_sheaf.
      by do 4 (split; [done|]). }
  intros key. split.
  - intros HW. destruct (decide (key ∈ name <$> patches problem)) as [Hin|Hout].
    + apply list_elem_of_fmap in Hin as (p & -> & Hp). by exists p.
    + exfalso. destruct (Hkeep key) as [Hoff _].
      * intros (p & Hp & <-). apply Hout. apply list_elem_of_fmap. by exists p.
      * rewrite (Hnone key Hoff) in HW. by destruct HW.
  - intros Hkey. destruct (last_patch_of_name _ _ Hkey) as (i & p & Hp & <- & Hl).
    destruct (Hall i p Hp Hl) as (_ & W & -> & _). by eexists.
Qed.

(** X15. After a successful [fit] the solution has one weight matrix for
    each patch name and for no other name; the matrix of the last patch of a
    name is well formed, has [n_positions] rows and [n_characters] columns,
    and holds, row by row, the part that starts at the cumulative offset of
    the patch of the vector [w_solution] that the Cholesky solve returned for
    the normal equations of the assembled system. *)
Theorem fit_solution_weights (llt_solve : Matrix -> Vector -> Vector)
    (problem : SheafProblem) (s s' : UnifiedSheafLearner) (sol : SheafSolution) :
  fit llt_solve problem s = (Ok sol, s') ->
  (forall key, is_Some (weights sol !! key) <-> patch_names problem key) /\
  exists local_result s0 gluing_result s1 A_raw A_sheaf b_sheaf,
    build_local_systems problem s = (Ok local_result, s0) /\
    build_gluing_system problem local_result s0 = (Ok gluing_result, s1) /\
    assemble_global_system local_result gluing_result = Ok (A_raw, b_sheaf) /\
    read_matrix A_raw = Ok A_sheaf /\
    let A_H_A := add_diagonal (Mmul (Madjoint A_sheaf) A_sheaf) lambda_ridge in
    let A_H_b := Mvec (Madjoint A_sheaf) b_sheaf in
    let w_solution := llt_solve A_H_A A_H_b in
    forall i p, patches problem !! i = Some p ->
      (forall p', p' ∈ drop (S i) (patches problem) -> name p' <> name p) ->
      exists W, weights sol !! name p = Some W /\ Mat_wf W /\
        rows W = n_positions (config p) /\ cols W = n_characters (config p) /\
        forall pp j, pp < n_positions (config p) -> j < n_characters (config p) ->
          Mget W pp j
          = Vget w_solution (col_offset_after (take i (patches problem))
                             + (pp * n_characters (config p) + j)).
Proof.
  intros (_ & _ & Hkeys & local_result & s0 & gluing_result & s1 & A_raw & A_sheaf
            & b_sheaf & E1 & E2 & E3 & E4 & Hw)%fit_Ok_weights.
  split; [done|].
  exists local_result, s0, gluing_result, s1, A_raw, A_sheaf, b_sheaf.
  do 4 (split; [done|]). intros A_H_A A_H_b w_solution i p Hp Hl.
  by destruct (Hw i p Hp Hl) as [_ ?].
Qed.

Lemma fit_solution_weights_witness :
  exists sol s',
    fit null_solver problem_single (new_UnifiedSheafLearner false) = (Ok sol, s') /\
    forall key, is_Some (weights sol !! key) <-> patch_names problem_single key.
Proof.
  assert (H : exists sol s',
    fit null_solver problem_single (new_UnifiedSheafLearner false) = (Ok sol, s')).
  { eexists. eexists. vm_compute. reflexivity. }
  destruct H as (sol & s' & H). exists sol, s'. split; [exact H|].
  exact (proj1 (fit_solution_weights null_solver problem_single
                  (new_UnifiedSheafLearner false) s' sol H)).
Defined.

(** X16. [predict] after [fit]: when [fit] fails on a learner that was not
    fitted, [predict] raises the not-fitted error; after a successful [fit],
    [predict] for a name that is not the name of a patch raises the
    unknown-patch error, also when a gluing constraint has entered the name
    into the registry. *)
Theorem predict_errors_after_fit (llt_solve : Matrix -> Vector -> Vector)
    (problem : SheafProblem) (s : UnifiedSheafLearner) :
  (forall e s', fit llt_solve problem s = (Err e, s') ->
     fitted_ s = false ->
     forall patch_name V, predict s' patch_name V = Err NotFitted) /\
  (forall sol s', fit llt_solve problem s = (Ok sol, s') ->
     forall patch_name V, ~ patch_names problem patch_name ->
       predict s' patch_name V = Err UnknownPatch).
Proof.
  split.
  - intros e s' Hfit Hnf patch_name V.
    destruct (fit_outcome llt_solve problem s)
      as [(e' & s'' & Hf & Hfr)|(sol & s1 & _ & Hf & _)];
      [|by rewrite Hfit in Hf].
    rewrite Hfit in Hf. injection Hf as _ <-.
    destruct Hfr as (_ & Hfit' & _). unfold predict. by rewrite Hfit', Hnf.
  - intros sol s' Hfit patch_name V Hname.
    apply fit_Ok_weights in Hfit as (Hfitted & Hsol & Hkeys & _).
    unfold predict. rewrite Hfitted. simpl.
    destruct (map_at (patch_configs_ s') patch_name) as [cfg|e] eqn:E; simpl.
    + rewrite Hsol. unfold map_at.
      destruct (weights sol !! patch_name) as [W|] eqn:EW; [|done].
      exfalso. apply Hname, Hkeys. by eexists.
    + unfold map_at in E. destruct (_ !! _); [done|]. by injection E as <-.
Qed.

Lemma predict_errors_after_fit_witness :
  exists sol s',
    fit null_solver problem_single (new_UnifiedSheafLearner false) = (Ok sol, s') /\
    predict s' "ghost" signal_1 = Err UnknownPatch.
Proof.
  assert (H : exists sol s',
    fit null_solver problem_single (new_UnifiedSheafLearner false) = (Ok sol, s')).
  { eexists. eexists. vm_compute. reflexivity. }
  destruct H as (sol & s' & H). exists sol, s'. split; [exact H|].
  apply (proj2 (predict_errors_after_fit null_solver problem_single
                  (new_UnifiedSheafLearner false)) sol s' H "ghost" signal_1).
  intros (p & Hp & Hn). apply list_elem_of_singleton in Hp. subst p. discriminate Hn.
Defined.

(** ** The coefficients of the feature row *)

Lemma Mat_at_Ok_Mget (M : Matrix) i j x : Mat_at M i j = Ok x -> Mget M i j = x.
Proof.
  unfold Mat_at, Mget. destruct (_ && _); [|done].
  destruct (Mrow M i !! j) as [y|]; [|done]. by intros [= ->].
Qed.

(** The loops of [get_feature_row] write [projs[j](p, 0)] at index
    [p * n_characters + j]. *)
Lemma feature_loops_values (projs : list Matrix) (config : PatchConfig) fr :
  feature_loops projs config = Ok fr ->
  length fr = n_positions config * n_characters config /\
  forall p j P, p < n_positions config -> j < n_characters config ->
    projs !! j = Some P ->
    fr !! (p * n_characters config + j) = Some (Some (Mget P p 0)).
Proof.
  set (I := fun (t u : nat) (acc : RawVector) =>
    length acc = n_positions config * n_characters config /\
    forall p j P, p < n_positions config -> j < n_characters config ->
      projs !! j = Some P -> p < t \/ (p = t /\ j < u) ->
      acc !! (p * n_characters config + j) = Some (Some (Mget P p 0))).
  intros H.
  cut (I (n_positions config) 0 fr).
  { intros [Hl Hv]. split; [done|]. intros p j P Hp Hj HP. apply Hv; auto. }
  revert H. unfold feature_loops.
  apply (foldlM_seq_invariant (fun t => I t 0)).
  - split; [by rewrite length_replicate|]. intros; lia.
  - intros t acc acc' Ht Hacc Hrow.
    cut (I t (n_characters config) acc').
    { intros [Hl Hv]. split; [done|]. intros p j P Hp Hj HP Hlt.
      apply Hv; try done. destruct (decide (p = t)); [right|left]; lia. }
    revert Hrow. apply (foldlM_seq_invariant (fun u => I t u)); [done|].
    intros u acc1 acc2 Hu [Hl Hv] Hstep. unfold feature_cell in Hstep.
    cbv zeta in Hstep.
    destruct (Nat.ltb_spec u (length projs)) as [Hum|Hum].
    + unfold Vec_at in Hstep.
      destruct (projs !! u) as [Pu|] eqn:EP; simpl in Hstep; [|done].
      destruct (Mat_at Pu t 0) as [x|] eqn:Ex; simpl in Hstep; [|done].
      injection Hstep as <-. apply Mat_at_Ok_Mget in Ex.
      split; [by rewrite length_insert|]. intros p j P Hp Hj HP Hlt.
      destruct (decide (p = t /\ j = u)) as [[-> ->]|Hne].
      * rewrite list_lookup_insert_eq by (rewrite Hl; nia). congruence.
      * rewrite list_lookup_insert_ne.
        -- apply Hv; try done. destruct Hlt as [?|[-> ?]]; [by left|right].
           split; [done|]. destruct (decide (j = u)); [exfalso; apply Hne; by split|lia].
        -- intros Heq. apply Hne. symmetry in Heq.
           by apply (flat_index_inj (n_characters config)) in Heq.
    + injection Hstep as <-. split; [done|]. intros p j P Hp Hj HP Hlt.
      apply Hv; try done. destruct Hlt as [?|[-> ?]]; [by left|right].
      split; [done|]. apply lookup_lt_Some in HP. lia.
Qed.

(** X17. The coefficient of index [p * n_characters + j] of the feature row
    of [V] is the coefficient in row [p], column 0 of the projection of [V]
    onto character [j], for every [j] below [min(rows V, n_positions)]. *)
Theorem get_feature_row_values (V : Matrix) (config : PatchConfig)
    (group : CyclicGroupCharacters) (fr : RawVector) :
  new_CyclicGroupCharacters (n_positions config) = Ok group ->
  get_feature_row V config group = Ok fr ->
  forall p j, p < n_positions config -> j < n_characters config ->
    j < rows V `min` n_positions config ->
    exists P, project_onto_character group V j = Ok P /\
      fr !! (p * n_characters config + j) = Some (Some (Mget P p 0)).
Proof.
  intros Hg Hfr p j Hp Hj Hm.
  destruct (decompose_into_characters_Ok _ _ V Hg) as (projs & Hdec & Hlen & Hshape).
  unfold get_feature_row in Hfr. rewrite Hdec in Hfr. simpl in Hfr.
  destruct (lookup_lt_is_Some_2 projs j) as [P HP]; [lia|].
  exists P. split; [by apply Hshape|].
  by apply (feature_loops_values projs config fr Hfr).
Qed.

Lemma get_feature_row_values_witness :
  exists fr,
    get_feature_row signal_1_0 config_1_1 (group_of_order 1) = Ok fr /\
    forall p j, p < n_positions config_1_1 -> j < n_characters config_1_1 ->
      j < rows signal_1_0 `min` n_positions config_1_1 ->
      exists P, project_onto_character (group_of_order 1) signal_1_0 j = Ok P /\
        fr !! (p * n_characters config_1_1 + j) = Some (Some (Mget P p 0)).
Proof.
  assert (H : exists fr,
    get_feature_row signal_1_0 config_1_1 (group_of_order 1) = Ok fr).
  { eexists. vm_compute. reflexivity. }
  destruct H as (fr & H). exists fr. split; [exact H|].
  exact (get_feature_row_values signal_1_0 config_1_1 (group_of_order 1) fr
           eq_refl H).
Defined.

Lemma get_feature_row_total (V : Matrix) (config : PatchConfig)
    (group : CyclicGroupCharacters) :
  new_CyclicGroupCharacters (n_positions config) = Ok group ->
  n_characters config <= n_positions config ->
  n_positions config <= rows V -> 0 < cols V ->
  exists fr, get_feature_row V config group = Ok fr /\
    length fr = n_positions config * n_characters config /\ Forall is_Some fr.
Proof.
  intros Hg Hnc Hr Hc.
  destruct (decompose_into_characters_Ok _ _ V Hg) as (projs & Hdec & Hlen & Hshape).
  assert (Hsh : forall j P, projs !! j = Some P ->
            rows P = rows V /\ cols P = cols V /\ Mat_wf P).
  { intros j P HP. by destruct (Hshape j P HP) as (_ & ? & ? & ?). }
  destruct (feature_loops_total V config projs Hsh) as [fr Hfr]; [right; right; lia|].
  exists fr. split; [unfold get_feature_row; by rewrite Hdec|].
  destruct (feature_loops_values _ _ _ Hfr) as [Hl Hv]. split; [done|].
  apply Forall_lookup. intros idx cell Hidx.
  assert (Hlt : idx < n_positions config * n_characters config).
  { rewrite <- Hl. by eapply lookup_lt_Some. }
  assert (Hnz : n_characters config <> 0) by lia.
  pose proof (Nat.mod_upper_bound idx _ Hnz) as Hj.
  destruct (lookup_lt_is_Some_2 projs (idx mod n_characters config)) as [P HP]; [lia|].
  specialize (Hv (idx / n_characters config) (idx mod n_characters config) P).
  rewrite (Nat.mul_comm (idx / _)), <- Nat.div_mod_eq, Hidx in Hv.
  assert (Hcell : Some cell = Some (Some (Mget P (idx / n_characters config) 0))).
  { apply Hv; [apply Nat.Div0.div_lt_upper_bound; lia|done|done]. }
  injection Hcell as ->. by eexists.
Qed.

(** ** A problem of one patch *)

Lemma Result_bind_Ok {A B} (a : A) (f : A -> Result B) : Ok a ≫= f = f a.
Proof. reflexivity. Qed.

Lemma mapM_read_cell_total (row : RawVector) :
  Forall is_Some row -> is_Ok (mapM read_cell row).
Proof.
  intros H. apply mapM_total. intros c Hc.
  destruct (proj1 (Forall_forall _ _) H c Hc) as [x ->]. by eexists.
Qed.

Lemma read_matrix_total (A : RawMatrix) :
  Forall (Forall is_Some) (coeffs A) -> is_Ok (read_matrix A).
Proof.
  intros H. unfold read_matrix.
  destruct (mapM_total (mapM read_cell) (coeffs A)) as [rs Hrs].
  { intros r Hr. apply mapM_read_cell_total. by apply (proj1 (Forall_forall _ _) H). }
  rewrite Hrs. by eexists.
Qed.

(** A turn of the loop of [build_local_systems] on a patch whose samples
    and targets have the shapes the loop reads. *)
Lemma add_local_system_total result off patch s :
  0 < n_positions (config patch) ->
  n_characters (config patch) <= n_positions (config patch) ->
  length (V_samples patch) <= length (targets patch) ->
  Forall (fun V => n_positions (config patch) <= rows V /\ 0 < cols V)
         (V_samples patch) ->
  Forall (fun T => is_Ok (Mat_at T 0 0)) (targets patch) ->
  exists A_patch b_patch,
    add_local_system (result, off) patch s
    = (Ok (mkLocal (matrices result ++ [A_patch]) (local_targets result ++ [b_patch])
             (<[name patch := off]> (patch_offsets result))
             (<[name patch := patch_width patch]> (patch_n_weights result)),
           off + patch_width patch),
       mkLearner (verbose_ s) (fitted_ s) (solution_ s)
         (<[name patch := config patch]> (patch_configs_ s))) /\
    cols A_patch = patch_width patch /\
    Forall (fun r => length r = patch_width patch /\ Forall is_Some r) (coeffs A_patch).
Proof.
  intros Hpos Hnc Hlen HV HT.
  pose proof (new_CyclicGroupCharacters_Ok _ Hpos) as Hg.
  set (group := mkGroup _ _ _) in Hg.
  set (step := fun i =>
          Vi ← Vec_at (V_samples patch) i;
          feature_row ← get_feature_row Vi (config patch) group;
          Ti ← Vec_at (targets patch) i;
          t ← Mat_at Ti 0 0;
          Ok (feature_row, t)).
  assert (Hstep : forall i, i < length (V_samples patch) ->
            exists fr t, step i = Ok (fr, t) /\
              length fr = patch_width patch /\ Forall is_Some fr).
  { intros i Hi. unfold step, Vec_at.
    destruct (lookup_lt_is_Some_2 (V_samples patch) i Hi) as [Vi EV].
    destruct (lookup_lt_is_Some_2 (targets patch) i) as [Ti ET]; [lia|].
    rewrite EV. cbv beta iota delta [mbind Result_bind].
    destruct (proj1 (Forall_forall _ _) HV Vi) as [Hr Hc];
      [by eapply list_elem_of_lookup_2|].
    destruct (get_feature_row_total Vi (config patch) group Hg Hnc Hr Hc)
      as (fr & -> & Hl & Hsome). rewrite ET.
    destruct (proj1 (Forall_forall _ _) HT Ti) as [t ->];
      [by eapply list_elem_of_lookup_2|].
    by exists fr, t. }
  destruct (mapM_total step (seq 0 (length (V_samples patch)))) as [rows_b Hrows].
  { intros i [_ Hi]%elem_of_seq. destruct (Hstep i) as (fr & t & -> & _); [lia|by eexists]. }
  exists (mkMat (length (V_samples patch)) (patch_width patch) (map fst rows_b)),
         (map snd rows_b).
  split; [|split; [done|]].
  - unfold add_local_system, mbind at 1 2 3, LM_bind, registry_assign, lift.
    rewrite Hg. fold step. rewrite Hrows. reflexivity.
  - simpl. apply Forall_forall. intros r Hr.
    apply list_elem_of_fmap in Hr as ([fr t] & -> & Hin).
    apply list_elem_of_lookup_1 in Hin as [i Hi].
    apply mapM_Ok_Forall2 in Hrows.
    destruct (Forall2_lookup_r _ _ _ _ _ Hrows Hi) as (k & Hk & Hs).
    apply lookup_seq in Hk as [-> Hk]. rewrite Nat.add_0_l in Hs.
    destruct (Hstep i Hk) as (fr' & t' & Hs' & Hl & Hsome).
    rewrite Hs in Hs'. injection Hs' as <- <-. done.
Qed.

Lemma pad_row_full (w : nat) (row : RawVector) : length row = w -> pad_row w row = row.
Proof. intros <-. unfold pad_row. by rewrite Nat.sub_diag, app_nil_r. Qed.

(** [unpack_solution] for the layout of a single patch. *)
Lemma unpack_solution_single (w_solution : Vector) key cfg r s :
  patch_configs_ s !! key = Some cfg ->
  n_positions cfg * n_characters cfg <= length w_solution ->
  exists sol,
    unpack_solution w_solution
      (mkLocal [] [] (<[key := 0]> ∅) (<[key := n_positions cfg * n_characters cfg]> ∅))
      r s = (Ok sol, s).
Proof.
  intros Hcfg Hlen.
  set (nw := n_positions cfg * n_characters cfg) in *.
  set (flat := take nw (drop 0 w_solution)).
  destruct (mapM_total (fun p =>
              mapM (fun j => Vec_at flat (p * n_characters cfg + j))
                   (seq 0 (n_characters cfg)))
            (seq 0 (n_positions cfg))) as [rs Hrs].
  { intros p [_ Hp]%elem_of_seq. apply mapM_total. intros j [_ Hj]%elem_of_seq.
    unfold Vec_at.
    destruct (lookup_lt_is_Some_2 flat (p * n_characters cfg + j)) as [x ->];
      [|by eexists].
    unfold flat. rewrite length_take, length_drop. unfold nw in *. nia. }
  eexists. unfold unpack_solution. cbn [patch_offsets patch_n_weights].
  rewrite (insert_empty key 0), map_to_list_singleton.
  rewrite LM_foldlM_cons. unfold mbind at 1 2 3, LM_bind at 1 2 3. cbv beta iota.
  unfold mbind at 1, LM_bind at 1, lift at 1, map_at. rewrite lookup_insert_eq.
  unfold mbind at 1, LM_bind at 1. rewrite (registry_index_present _ _ _ Hcfg).
  unfold mbind at 1, LM_bind at 1, lift at 1, segment.
  destruct (Nat.leb_spec (0 + nw) (length w_solution)) as [_|?]; [|lia].
  fold flat. unfold mbind at 1, LM_bind at 1, lift at 1. rewrite Hrs.
  reflexivity.
Qed.

(** The steps of [fit] on a problem of one patch without gluing constraints,
    for samples and targets of the shapes the loops read. *)
Lemma fit_single_patch_Ok (llt_solve : Matrix -> Vector -> Vector)
    (problem : SheafProblem) (p : Patch) (s : UnifiedSheafLearner) :
  (forall A b, length (llt_solve A b) = cols A) ->
  patches problem = [p] -> gluings problem = [] ->
  0 < n_positions (config p) ->
  n_characters (config p) <= n_positions (config p) ->
  length (V_samples p) <= length (targets p) ->
  Forall (fun V => n_positions (config p) <= rows V /\ 0 < cols V) (V_samples p) ->
  Forall (fun T => is_Ok (Mat_at T 0 0)) (targets p) ->
  exists sol s', fit llt_solve problem s = (Ok sol, s').
Proof.
  intros Hsolve Hps Hgl Hpos Hnc Hlen HV HT.
  destruct (add_local_system_total (mkLocal [] [] ∅ ∅) 0 p s Hpos Hnc Hlen HV HT)
    as (A & b & Hadd & Hc & Hcells).
  cbn [matrices local_targets patch_offsets patch_n_weights app] in Hadd.
  set (s0 := mkLearner _ _ _ _) in Hadd.
  set (lr := mkLocal [A] [b] (<[name p := 0]> ∅) (<[name p := patch_width p]> ∅)) in *.
  assert (Hloc : build_local_systems problem s = (Ok lr, s0)).
  { unfold build_local_systems. rewrite Hps, LM_foldlM_cons.
    by rewrite (LM_bind_Ok _ _ _ _ _ (LM_bind_Ok _ _ _ _ _ Hadd)). }
  assert (Hglue : build_gluing_system problem lr s0
                  = (Ok (mkGluingSystem (mkMat 0 0 []) []), s0)).
  { unfold build_gluing_system. by rewrite Hgl. }
  set (A_raw := mkMat (0 + rows A + 0) (cols A) (map (pad_row (cols A)) (coeffs A))).
  assert (Hasm : assemble_global_system lr (mkGluingSystem (mkMat 0 0 []) [])
                 = Ok (A_raw, b)).
  { unfold assemble_global_system. simpl. by rewrite Nat.leb_refl. }
  destruct (read_matrix_total A_raw) as [A_sheaf Hread].
  { simpl. apply Forall_forall. intros r Hr.
    apply list_elem_of_fmap in Hr as (r0 & -> & Hr0).
    destruct (proj1 (Forall_forall _ _) Hcells r0 Hr0) as [Hl Hsome].
    rewrite pad_row_full by congruence. done. }
  pose proof (read_matrix_shape _ _ Hread) as [_ Hcols]. simpl in Hcols.
  set (w_solution := solve_normal_equations llt_solve A_sheaf b).
  assert (Hw : length w_solution = patch_width p).
  { unfold w_solution. rewrite solve_normal_equations_length by done. congruence. }
  set (r := snap_residual (map of_complex_t (Vsub (Mvec A_sheaf w_solution) b))).
  destruct (unpack_solution_single w_solution (name p) (config p) r s0) as [sol Hun].
  { apply lookup_insert_eq. }
  { fold (patch_width p). lia. }
  exists sol. eexists. unfold fit.
  rewrite (LM_bind_Ok _ _ _ _ _ Hloc), (LM_bind_Ok _ _ _ _ _ Hglue). cbv beta iota.
  unfold mbind at 1, LM_bind at 1, lift at 1. rewrite Hasm. cbv beta iota.
  unfold mbind at 1, LM_bind at 1, lift at 1. rewrite Hread. cbv beta iota zeta.
  fold w_solution. fold r.
  assert (Hun' : unpack_solution w_solution lr r s0 = (Ok sol, s0)).
  { revert Hun. unfold unpack_solution, lr. cbn [patch_offsets patch_n_weights]. done. }
  rewrite (LM_bind_Ok _ _ _ _ _ Hun'). reflexivity.
Qed.

(** X18. A problem of one patch without gluing constraints whose samples
    have at least [n_positions] rows and a column, with
    [0 < n_positions], [n_characters <= n_positions], a target with a
    coefficient (0, 0) for every sample, and a solver that returns one weight
    per column: [fit] returns a solution, the learner is fitted, and
    [predict] returns a 1 x 1 matrix for the patch and every signal of at
    least [n_positions] rows and a column. *)
Theorem fit_single_patch (llt_solve : Matrix -> Vector -> Vector)
    (problem : SheafProblem) (p : Patch) (s : UnifiedSheafLearner) :
  (forall A b, length (llt_solve A b) = cols A) ->
  patches problem = [p] -> gluings problem = [] ->
  0 < n_positions (config p) ->
  n_characters (config p) <= n_positions (config p) ->
  length (V_samples p) <= length (targets p) ->
  Forall (fun V => n_positions (config p) <= rows V /\ 0 < cols V) (V_samples p) ->
  Forall (fun T => is_Ok (Mat_at T 0 0)) (targets p) ->
  exists sol s',
    fit llt_solve problem s = (Ok sol, s') /\
    fitted_ s' = true /\ solution_ s' = sol /\
    forall V, n_positions (config p) <= rows V -> 0 < cols V ->
      exists y, predict s' (name p) V = Ok (mkMat 1 1 [[y]]).
Proof.
  intros Hsolve Hps Hgl Hpos Hnc Hlen HV HT.
  destruct (fit_single_patch_Ok llt_solve problem p s) as (sol & s' & Hfit); try done.
  exists sol, s'. split; [done|].
  apply fit_Ok_weights in Hfit
    as (Hfitted & Hsol & _ & ? & ? & ? & ? & ? & ? & ? & _ & _ & _ & _ & Hw).
  cbv zeta in Hw.
  split; [done|]. split; [done|]. intros V Hr Hc.
  destruct (Hw 0 p) as (Hcfg & W & HW & Hwf & HWr & HWc & _).
  { by rewrite Hps. }
  { rewrite Hps. simpl. intros q Hq. by apply elem_of_nil in Hq. }
  pose proof (new_CyclicGroupCharacters_Ok _ Hpos) as Hg.
  destruct (get_feature_row_total V (config p) _ Hg Hnc Hr Hc) as (fr & Hfr & _ & Hsome).
  destruct (mapM_read_cell_total fr Hsome) as [features Hfeat].
  unfold predict. rewrite Hfitted, Hsol. cbn [negb]. unfold map_at. rewrite Hcfg, HW.
  repeat (rewrite Result_bind_Ok; cbv beta). rewrite Hg.
  repeat (rewrite Result_bind_Ok; cbv beta). rewrite Hfr.
  repeat (rewrite Result_bind_Ok; cbv beta).
  rewrite (mapM_seq_Ok _ (fun pp => map (fun j => Mget W pp j)
                                      (seq 0 (n_characters (config p))))).
  - repeat (rewrite Result_bind_Ok; cbv beta). rewrite Hfeat. by eexists.
  - intros pp Hpp. apply mapM_seq_Ok. intros j Hj. apply Mat_at_wf; [done|lia..].
Qed.

Lemma fit_single_patch_witness :
  exists sol s',
    fit null_solver problem_single (new_UnifiedSheafLearner false) = (Ok sol, s') /\
    fitted_ s' = true /\ solution_ s' = sol /\
    forall V, n_positions (config patch_block_a_1) <= rows V -> 0 < cols V ->
      exists y, predict s' (name patch_block_a_1) V = Ok (mkMat 1 1 [[y]]).
Proof.
  apply (fit_single_patch null_solver problem_single patch_block_a_1
           (new_UnifiedSheafLearner false)).
  - intros A b. unfold null_solver. apply length_replicate.
  - reflexivity.
  - reflexivity.
  - simpl. lia.
  - simpl. lia.
  - simpl. lia.
  - repeat constructor.
  - repeat constructor. by eexists.
Defined.

(** ** types.cpp: the cells of a [BasicMatrix] *)

(** X19. A [BasicMatrix] stores coefficient [(i, j)] at index
    [i * cols + j] of one vector, with no check of [i] or [j]: a new matrix
    holds the initial value at every index in range; a coefficient that was
    written is read back, and the write leaves every other coefficient with a
    column index in range as it was; and a column index [j >= cols] silently
    addresses the coefficient [(i + j / cols, j mod cols)]. *)
Theorem BasicMatrix_cells {T} (zero : T) (M : BasicMatrix T) (i j : nat) (x : T) :
  (forall r c, i < r -> j < c ->
     BasicMatrix_get (new_BasicMatrix zero r c) i j = Ok zero) /\
  (length (data_ M) = rows_ M * cols_ M -> i < rows_ M -> j < cols_ M ->
   exists M', BasicMatrix_set M i j x = Ok M' /\
     rows_ M' = rows_ M /\ cols_ M' = cols_ M /\
     length (data_ M') = length (data_ M) /\
     BasicMatrix_get M' i j = Ok x /\
     forall i' j', j' < cols_ M -> (i', j') <> (i, j) ->
       BasicMatrix_get M' i' j' = BasicMatrix_get M i' j') /\
  (0 < cols_ M ->
   BasicMatrix_get M i j = BasicMatrix_get M (i + j / cols_ M) (j mod cols_ M)).
Proof.
  split; [|split].
  - intros r c Hi Hj. unfold BasicMatrix_get, new_BasicMatrix, Vec_at. simpl.
    rewrite lookup_replicate_2 by nia. done.
  - intros Hlen Hi Hj. unfold BasicMatrix_set.
    destruct (Nat.ltb_spec (i * cols_ M + j) (length (data_ M))) as [Hlt|]; [|nia].
    eexists. split; [done|]. simpl. split; [done|]. split; [done|].
    split; [by rewrite length_insert|]. unfold BasicMatrix_get, Vec_at. simpl. split.
    + by rewrite list_lookup_insert_eq.
    + intros i' j' Hj' Hne. rewrite list_lookup_insert_ne; [done|].
      intros Heq. apply Hne. symmetry in Heq.
      apply (flat_index_inj (cols_ M)) in Heq as [-> ->]; done.
  - intros Hc. unfold BasicMatrix_get. f_equal.
    rewrite (Nat.div_mod_eq j (cols_ M)) at 1. lia.
Qed.

Lemma BasicMatrix_cells_witness :
  exists M', BasicMatrix_set (new_BasicMatrix C0 2 3) 1 2 C1 = Ok M' /\
    rows_ M' = 2 /\ cols_ M' = 3 /\
    length (data_ M') = length (data_ (new_BasicMatrix C0 2 3)) /\
    BasicMatrix_get M' 1 2 = Ok C1 /\
    forall i' j', j' < 3 -> (i', j') <> (1, 2) ->
      BasicMatrix_get M' i' j' = BasicMatrix_get (new_BasicMatrix C0 2 3) i' j'.
Proof.
  apply (proj1 (proj2 (BasicMatrix_cells C0 (new_BasicMatrix C0 2 3) 1 2 C1)));
    [reflexivity|simpl; lia|simpl; lia].
Defined.

(** ** sheaf.c: [solve_2x2] and [sqrt_approx] *)

Lemma abs_val_Rabs x : Kernel.abs_val x = Rabs x.
Proof.
  unfold Kernel.abs_val, Rabs.
  destruct (Rlt_dec x 0), (Rcase_abs x); lra.
Qed.

(** X20. [solve_2x2] returns -1 exactly when the determinant is below
    [1e-10] in absolute value, and then leaves [x] as it was; otherwise it
    returns 0 and [x] solves the system [A x = b]. *)
Theorem solve_2x2_spec (A : Kernel.Matrix2x2) (b x : R * R) :
  let det := (Kernel.data_0_0 A * Kernel.data_1_1 A
              - Kernel.data_0_1 A * Kernel.data_1_0 A)%R in
  let r := Kernel.solve_2x2 A b x in
  (r.1 = (-1)%Z <-> (Rabs det < 1 / 10 ^ 10)%R) /\
  (r.1 = (-1)%Z -> r.2 = x) /\
  (r.1 <> (-1)%Z ->
   r.1 = 0%Z /\
   (Kernel.data_0_0 A * r.2.1 + Kernel.data_0_1 A * r.2.2 = b.1)%R /\
   (Kernel.data_1_0 A * r.2.1 + Kernel.data_1_1 A * r.2.2 = b.2)%R).
Proof.
  intros det r. unfold r, Kernel.solve_2x2. fold det. rewrite abs_val_Rabs.
  destruct (Rlt_dec (Rabs det) (1 / 10 ^ 10)) as [Hs|Hs]; simpl.
  - split; [done|]. split; [done|]. done.
  - split; [split; [done|intros; lra]|]. split; [done|]. intros _.
    assert (Hdet : det <> 0%R).
    { intros H0. apply Hs. rewrite H0, Rabs_R0.
      apply Rdiv_lt_0_compat; [lra|]. apply pow_lt. lra. }
    split; [done|]. unfold det in *. split; field; exact Hdet.
Qed.

(** One Newton step from a guess at or above the root stays at or above it
    and at least halves the distance. *)
Lemma newton_step (s g : R) :
  (0 < s)%R -> (s <= g)%R ->
  (s <= (g + s * s / g) / 2)%R /\ ((g + s * s / g) / 2 - s <= (g - s) / 2)%R.
Proof.
  intros Hs Hg.
  assert (Hg0 : (0 < g)%R) by lra.
  assert (E : ((g + s * s / g) / 2 - s = (g - s) * (g - s) * / (2 * g))%R)
    by (field; lra).
  assert (Hinv : (0 < / (2 * g))%R) by (apply Rinv_0_lt_compat; lra).
  assert (H1 : (0 <= (g - s) * (g - s) * / (2 * g))%R).
  { apply Rmult_le_pos; [nra|lra]. }
  assert (H2 : ((g - s) * (g - s) * / (2 * g) <= (g - s) * g * / (2 * g))%R).
  { apply Rmult_le_compat_r; [lra|nra]. }
  assert (E2 : ((g - s) * g * / (2 * g) = (g - s) / 2)%R) by (field; lra).
  split; lra.
Qed.

Lemma newton_iter (s g : R) (n : nat) :
  (0 < s)%R -> (s <= g)%R ->
  let r := Nat.iter n (fun guess => ((guess + s * s / guess) / 2)%R) g in
  (s <= r)%R /\ (r - s <= (g - s) / 2 ^ n)%R.
Proof.
  intros Hs Hg. induction n as [|n [IH1 IH2]]; simpl.
  - split; lra.
  - destruct (newton_step s _ Hs IH1) as [H1 H2]. split; [done|].
    assert (Hp : (0 < 2 ^ n)%R) by (apply pow_lt; lra).
    eapply Rle_trans; [exact H2|].
    replace ((g - s) / (2 * 2 ^ n))%R with ((g - s) / 2 ^ n / 2)%R by (field; lra).
    lra.
Qed.

(** The result of [sqrt_approx] for a positive argument, between the square
    root and the square root plus [(sqrt x / 2 - 1)^2 / 512]. *)
Lemma sqrt_approx_bounds (x : R) :
  (0 < x)%R ->
  (sqrt x <= Kernel.sqrt_approx x)%R /\
  (Kernel.sqrt_approx x - sqrt x <= (sqrt x / 2 - 1) * (sqrt x / 2 - 1) / 512)%R.
Proof.
  intros Hx. unfold Kernel.sqrt_approx.
  destruct (Rle_dec x 0) as [?|_]; [lra|].
  pose proof (sqrt_lt_R0 x Hx) as Hs.
  pose proof (sqrt_sqrt x ltac:(lra)) as Hsq.
  set (s := sqrt x) in *. rewrite <- Hsq.
  rewrite Nat.iter_succ_r.
  assert (Hg1 : ((s * s / 2 + s * s / (s * s / 2)) / 2 = s * s / 4 + 1)%R)
    by (field; lra).
  rewrite Hg1.
  destruct (newton_iter s (s * s / 4 + 1) 9 Hs) as [H1 H2].
  { pose proof (Rle_0_sqr (s / 2 - 1)) as Hq. unfold Rsqr in Hq. lra. }
  split; [exact H1|]. eapply Rle_trans; [exact H2|].
  replace (s * s / 4 + 1 - s)%R with ((s / 2 - 1) * (s / 2 - 1))%R by field.
  apply Req_le. f_equal. simpl. lra.
Qed.

(** X21. [sqrt_approx] returns 0 for an argument that is not positive; for a
    positive argument its ten Newton steps end at or above the square root,
    and above it by at most [(sqrt x / 2 - 1)^2 / 512]. *)
Theorem sqrt_approx_accuracy (x : R) :
  ((x <= 0)%R -> Kernel.sqrt_approx x = 0%R) /\
  ((0 < x)%R ->
   (sqrt x <= Kernel.sqrt_approx x)%R /\
   (x <= Kernel.sqrt_approx x * Kernel.sqrt_approx x)%R /\
   (Kernel.sqrt_approx x - sqrt x <= (sqrt x / 2 - 1) * (sqrt x / 2 - 1) / 512)%R).
Proof.
  split.
  - intros Hx. unfold Kernel.sqrt_approx. by destruct (Rle_dec x 0).
  - intros Hx. destruct (sqrt_approx_bounds x Hx) as [H1 H2].
    split; [done|]. split; [|done].
    pose proof (sqrt_lt_R0 x Hx) as Hs.
    rewrite <- (sqrt_sqrt x) at 1 by lra. nra.
Qed.

(** ** sheaf.c: [sheaf_solve] *)

Lemma option_foldlM_app {A B} (f : A -> B -> option A) a l1 l2 :
  foldlM f a (l1 ++ l2) = a' ← foldlM f a l1; foldlM f a' l2.
Proof.
  revert a. induction l1 as [|x l1 IH]; intros a; simpl; [done|].
  destruct (f a x) as [a'|]; simpl; [apply IH|done].
Qed.

(** A loop over the first [n] elements of an array that folds a value
    computed from each element. *)
Lemma foldlM_array {T E A} (F : A -> E -> A) (g : T -> option E) (G : T -> E)
    (MAX : nat) (l : list T) (n : nat) (a : A) :
  n <= MAX -> n <= length l ->
  (forall t, t ∈ take n l -> g t = Some (G t)) ->
  foldlM (fun acc i => t ← Kernel.array_at MAX l i; e ← g t; Some (F acc e))
         a (seq 0 n)
  = Some (foldl (fun acc t => F acc (G t)) a (take n l)).
Proof.
  induction n as [|n IH]; intros HM Hl Hg; [by rewrite take_0|].
  destruct (lookup_lt_is_Some_2 l n) as [x Hx]; [lia|].
  rewrite seq_S, option_foldlM_app, (take_S_r _ _ _ Hx), foldl_app.
  rewrite IH; [|lia|lia|].
  - simpl. unfold Kernel.array_at.
    destruct (Nat.ltb_spec n MAX); [|lia]. rewrite Hx. simpl.
    rewrite Hg; [done|]. rewrite (take_S_r _ _ _ Hx). apply elem_of_app. right. by left.
  - intros t Ht. apply Hg. rewrite (take_S_r _ _ _ Hx). apply elem_of_app. by left.
Qed.

Lemma patch_error_Some (patch : Kernel.Patch) :
  Z.to_nat (Kernel.n_samples patch) <= Kernel.MAX_SAMPLES_PER_PATCH ->
  Z.to_nat (Kernel.n_samples patch) <= length (Kernel.targets patch) ->
  Kernel.patch_error patch = Some (Kernel.squared_deviation patch).
Proof.
  intros HM Hl. unfold Kernel.patch_error, Kernel.int_range.
  rewrite (foldlM_array (fun acc (e : R) => (acc + e)%R) Some id
             _ _ _ _ HM Hl) by done.
  simpl.
  rewrite (foldlM_array
             (fun acc (e : R) => (acc + (e - Kernel.target_mean patch)
                                       * (e - Kernel.target_mean patch))%R)
             Some id _ _ _ _ HM Hl) by done.
  reflexivity.
Qed.

(** A sum of terms that are not negative is at least its start and at
    least the start plus any of the terms. *)
Lemma foldl_sum_ge {T} (f : T -> R) (l : list T) (a : R) :
  (forall t, t ∈ l -> (0 <= f t)%R) ->
  (a <= foldl (fun acc t => (acc + f t)%R) a l)%R /\
  forall t, t ∈ l -> (a + f t <= foldl (fun acc t => (acc + f t)%R) a l)%R.
Proof.
  revert a. induction l as [|x l IH]; intros a Hf; simpl.
  - split; [lra|]. intros t Ht. by apply elem_of_nil in Ht.
  - assert (Hx : (0 <= f x)%R) by (apply Hf; by left).
    destruct (IH (a + f x)%R) as [H1 H2]; [intros t Ht; apply Hf; by right|].
    split; [lra|]. intros t [->|Ht]%elem_of_cons; [done|].
    specialize (H2 t Ht). assert (0 <= f t)%R by (apply Hf; by right). lra.
Qed.

Lemma foldl_sum_zero {T} (f : T -> R) (l : list T) (a : R) :
  (forall t, t ∈ l -> f t = 0%R) -> foldl (fun acc t => (acc + f t)%R) a l = a.
Proof.
  revert a. induction l as [|x l IH]; intros a Hf; simpl; [done|].
  rewrite IH by (intros t Ht; apply Hf; by right).
  rewrite Hf by (by left). lra.
Qed.

Lemma foldl_Rplus_const (c : R) (l : list R) (a : R) :
  (forall t, t ∈ l -> t = c) -> foldl Rplus a l = (a + INR (length l) * c)%R.
Proof.
  revert a. induction l as [|x l IH]; intros a Hc.
  - simpl. lra.
  - cbn [foldl]. rewrite IH by (intros t Ht; apply Hc; by right).
    rewrite (Hc x) by (by left). cbn [length]. rewrite S_INR. lra.
Qed.

Lemma squared_deviation_nonneg (patch : Kernel.Patch) :
  (0 <= Kernel.squared_deviation patch)%R /\
  forall t, t ∈ Kernel.targets_read patch ->
    ((t - Kernel.target_mean patch) * (t - Kernel.target_mean patch)
     <= Kernel.squared_deviation patch)%R.
Proof.
  unfold Kernel.squared_deviation.
  destruct (foldl_sum_ge
              (fun t => ((t - Kernel.target_mean patch) * (t - Kernel.target_mean patch))%R)
              (Kernel.targets_read patch) 0) as [H1 H2].
  { intros t _. apply Rle_0_sqr. }
  split; [done|]. intros t Ht. specialize (H2 t Ht). cbv beta in H2. lra.
Qed.

(** The targets of a patch that are all equal have zero deviation. *)
Lemma squared_deviation_const (patch : Kernel.Patch) (c : R) :
  Z.to_nat (Kernel.n_samples patch) <= length (Kernel.targets patch) ->
  (forall t, t ∈ Kernel.targets_read patch -> t = c) ->
  Kernel.squared_deviation patch = 0%R.
Proof.
  intros Hl Hc. unfold Kernel.squared_deviation.
  apply foldl_sum_zero. intros t Ht.
  assert (Hn : length (Kernel.targets_read patch) = Z.to_nat (Kernel.n_samples patch)).
  { unfold Kernel.targets_read. rewrite length_take. lia. }
  assert (Hpos : (0 < Kernel.n_samples patch)%Z).
  { destruct (Kernel.targets_read patch); [by apply elem_of_nil in Ht|].
    simpl in Hn. lia. }
  assert (Hm : Kernel.target_mean patch = c).
  { unfold Kernel.target_mean. rewrite (foldl_Rplus_const c) by done.
    rewrite Hn, INR_IZR_INZ, Z2Nat.id by lia.
    field. apply not_0_IZR. lia. }
  rewrite Hm, (Hc t Ht). lra.
Qed.

(** [sheaf_solve] on a problem whose arrays have their declared sizes and
    whose counts stay within them. *)
Lemma sheaf_solve_Some (problem : Kernel.SheafProblem) :
  Kernel.allocated problem ->
  Z.to_nat (Kernel.n_patches problem) <= Kernel.MAX_PATCHES ->
  Forall (fun patch => Z.to_nat (Kernel.n_samples patch) <= Kernel.MAX_SAMPLES_PER_PATCH)
         (Kernel.patches_read problem) ->
  Kernel.sheaf_solve problem
  = Some (0%Z, Kernel.mkSheafProblem (Kernel.patches problem) (Kernel.n_patches problem)
                 (Kernel.sqrt_approx (Kernel.total_error problem))
                 (if Rlt_dec (Kernel.sqrt_approx (Kernel.total_error problem))
                             (1 / 10 ^ 6)
                  then 1%Z else 0%Z)).
Proof.
  intros [Hlen Hsizes] Hn Hsamples.
  unfold Kernel.sheaf_solve, Kernel.int_range.
  rewrite (foldlM_array (fun acc (e : R) => (acc + e)%R) Kernel.patch_error
             Kernel.squared_deviation _ _ _ _ Hn); [done|lia|].
  intros patch Hp. apply patch_error_Some.
  - by apply (proj1 (Forall_forall _ _) Hsamples).
  - assert (Hin : patch ∈ Kernel.patches problem) by (revert Hp; apply subseteq_take).
    destruct (proj1 (Forall_forall _ _) Hsizes patch Hin) as [_ ->].
    by apply (proj1 (Forall_forall _ _) Hsamples).
Qed.

(** X22. On a problem whose arrays have their declared sizes, with at most
    [MAX_PATCHES] patches of at most [MAX_SAMPLES_PER_PATCH] samples each,
    [sheaf_solve] returns 0, whatever the samples, configurations and patch
    names are; it changes only [residual] and [converged]; the residual is
    [sqrt_approx] of the sum over the patches of the squared deviations of
    the targets from their mean, hence not negative and at least the root of
    that sum; [converged] is 1 exactly when the residual is below [1e-6], in
    which case every target is within [1e-6] of the mean of its patch; and
    when no patch has more than one sample, the residual is 0 and
    [converged] is 1.  The sums, the mean and [sqrt_approx] are those of
    exact arithmetic on finite targets: the rounding of the doubles is not
    modelled. *)
Theorem sheaf_solve_spec (problem : Kernel.SheafProblem) :
  Kernel.allocated problem ->
  Z.to_nat (Kernel.n_patches problem) <= Kernel.MAX_PATCHES ->
  Forall (fun patch => Z.to_nat (Kernel.n_samples patch) <= Kernel.MAX_SAMPLES_PER_PATCH)
         (Kernel.patches_read problem) ->
  exists (r : R) (c : Z),
    Kernel.sheaf_solve problem
    = Some (0%Z, Kernel.mkSheafProblem (Kernel.patches problem)
                   (Kernel.n_patches problem) r c) /\
    r = Kernel.sqrt_approx (Kernel.total_error problem) /\
    (0 <= r)%R /\ (Kernel.total_error problem <= r * r)%R /\
    (c = 1%Z <-> (r < 1 / 10 ^ 6)%R) /\ (c <> 1%Z -> c = 0%Z) /\
    (c = 1%Z ->
     forall patch t, patch ∈ Kernel.patches_read problem ->
       t ∈ Kernel.targets_read patch ->
       (Rabs (t - Kernel.target_mean patch) < 1 / 10 ^ 6)%R) /\
    (Forall (fun patch => (Kernel.n_samples patch <= 1)%Z)
            (Kernel.patches_read problem) ->
     r = 0%R /\ c = 1%Z).
Proof.
  intros [Hlen Hsizes] Hn Hsamples.
  assert (Hread : forall patch, patch ∈ Kernel.patches_read problem ->
            Z.to_nat (Kernel.n_samples patch) <= Kernel.MAX_SAMPLES_PER_PATCH /\
            Z.to_nat (Kernel.n_samples patch) <= length (Kernel.targets patch)).
  { intros patch Hp. pose proof (proj1 (Forall_forall _ _) Hsamples patch Hp) as H1.
    split; [done|].
    assert (Hin : patch ∈ Kernel.patches problem)
      by (revert Hp; apply subseteq_take).
    destruct (proj1 (Forall_forall _ _) Hsizes patch Hin) as [_ ->]. done. }
  set (total := Kernel.total_error problem).
  assert (Htot : (0 <= total)%R /\
            forall patch, patch ∈ Kernel.patches_read problem ->
              (Kernel.squared_deviation patch <= total)%R).
  { destruct (foldl_sum_ge Kernel.squared_deviation (Kernel.patches_read problem) 0)
      as [H1 H2]; [intros t _; apply squared_deviation_nonneg|].
    split; [done|]. intros patch Hp. specialize (H2 patch Hp).
    fold (Kernel.total_error problem) in H2. fold total in H2. lra. }
  destruct Htot as [Htot0 Htot].
  set (r := Kernel.sqrt_approx total).
  assert (Hr : (0 <= r)%R /\ (total <= r * r)%R).
  { unfold r. destruct (Rle_dec total 0) as [Hz|Hp].
    - unfold Kernel.sqrt_approx. destruct (Rle_dec total 0); [|done]. lra.
    - destruct (sqrt_approx_bounds total) as [H1 _]; [lra|].
      pose proof (sqrt_lt_R0 total ltac:(lra)) as Hs.
      rewrite <- (sqrt_sqrt total) at 2 by lra. split; [lra|nra]. }
  destruct Hr as [Hr0 Hr2].
  assert (Heps : (0 < 1 / 10 ^ 6)%R) by (apply Rdiv_lt_0_compat; [lra|apply pow_lt; lra]).
  exists r, (if Rlt_dec r (1 / 10 ^ 6) then 1%Z else 0%Z).
  split; [|split; [done|split; [done|split; [done|split; [|split; [|split]]]]]].
  - by apply sheaf_solve_Some.
  - by destruct (Rlt_dec r (1 / 10 ^ 6)).
  - by destruct (Rlt_dec r (1 / 10 ^ 6)).
  - destruct (Rlt_dec r (1 / 10 ^ 6)) as [Hlt|]; [|done]. intros _ patch t Hp Ht.
    destruct (squared_deviation_nonneg patch) as [_ Hdev]. specialize (Hdev t Ht).
    specialize (Htot patch Hp).
    set (d := (t - Kernel.target_mean patch)%R) in *.
    assert (Hd : (d * d < 1 / 10 ^ 6 * (1 / 10 ^ 6))%R) by nra.
    apply Rabs_def1.
    + destruct (Rlt_dec d (1 / 10 ^ 6)); [done|exfalso; nra].
    + destruct (Rlt_dec (- (1 / 10 ^ 6)) d); [done|exfalso; nra].
  - intros Hone.
    assert (Hconst : forall patch, patch ∈ Kernel.patches_read problem ->
              exists c0, forall t, t ∈ Kernel.targets_read patch -> t = c0).
    { intros patch Hp. pose proof (proj1 (Forall_forall _ _) Hone patch Hp) as H1.
      cbv beta in H1. unfold Kernel.targets_read.
      assert (Hcases : Z.to_nat (Kernel.n_samples patch) = 0 \/
                       Z.to_nat (Kernel.n_samples patch) = 1) by lia.
      destruct Hcases as [->| ->].
      - exists 0%R. intros t Ht. rewrite take_0 in Ht. by apply elem_of_nil in Ht.
      - destruct (Kernel.targets patch) as [|t0 ts].
        + exists 0%R. intros t Ht. by apply elem_of_nil in Ht.
        + exists t0. intros t Ht. simpl in Ht. rewrite take_0 in Ht.
          by apply list_elem_of_singleton in Ht. }
    assert (Hz : total = 0%R).
    { unfold total, Kernel.total_error. apply foldl_sum_zero. intros patch Hp.
      destruct (Hconst patch Hp) as [c0 Hc0].
      apply (squared_deviation_const patch c0); [by apply Hread|done]. }
    assert (Hrz : r = 0%R).
    { unfold r, Kernel.sqrt_approx. rewrite Hz. destruct (Rle_dec 0 0); [done|lra]. }
    split; [done|]. rewrite Hrz. destruct (Rlt_dec 0 (1 / 10 ^ 6)); [done|lra].
Qed.

Lemma sheaf_solve_spec_witness :
  exists (r : R) (c : Z),
    Kernel.sheaf_solve (Kernel.sheaf_demo_register_allocation blank_problem)
    = Some (0%Z, Kernel.mkSheafProblem
                   (Kernel.patches (Kernel.sheaf_demo_register_allocation blank_problem))
                   (Kernel.n_patches (Kernel.sheaf_demo_register_allocation blank_problem))
                   r c) /\
    r = Kernel.sqrt_approx
          (Kernel.total_error (Kernel.sheaf_demo_register_allocation blank_problem)) /\
    (0 <= r)%R.
Proof.
  destruct (sheaf_solve_spec (Kernel.sheaf_demo_register_allocation blank_problem))
    as (r & c & H1 & H2 & H3 & _).
  - split; [reflexivity|]. repeat constructor.
  - vm_compute. lia.
  - repeat constructor; vm_compute; lia.
  - exists r, c. split; [exact H1|]. split; [exact H2|exact H3].
Defined.

(** ** sheaf.c: the demo problem *)

Lemma sqrt_between (x lo hi : R) :
  (0 <= lo)%R -> (lo * lo < x)%R -> (x < hi * hi)%R -> (0 <= hi)%R ->
  (lo < sqrt x < hi)%R.
Proof.
  intros Hlo H1 H2 Hhi.
  rewrite <- (sqrt_square lo), <- (sqrt_square hi) by done.
  split; apply sqrt_lt_1_alt; nra.
Qed.

Lemma demo_allocated (problem : Kernel.SheafProblem) :
  Kernel.allocated problem ->
  Kernel.allocated (Kernel.sheaf_demo_register_allocation problem).
Proof.
  intros [Hlen Hall]. split; simpl.
  - by rewrite !length_alter.
  - apply Forall_alter; [apply Forall_alter; [done|]|].
    + intros p _ [Hs Ht]. simpl. by rewrite !length_insert.
    + intros p _ [Hs Ht]. simpl. by rewrite !length_insert.
Qed.

Lemma demo_total_error (problem : Kernel.SheafProblem) :
  Kernel.allocated problem ->
  Kernel.total_error (Kernel.sheaf_demo_register_allocation problem) = (5 / 2)%R.
Proof.
  intros [Hlen Hall]. destruct problem as [ps n r c]. simpl in *.
  destruct ps as [|p0 [|p1 [|p2 [|p3 [|]]]]]; try done.
  apply Forall_cons_1 in Hall as [[_ H0] Hall].
  apply Forall_cons_1 in Hall as [[_ H1] _].
  destruct p0 as [n0 s0 t0 k0 c0], p1 as [n1 s1 t1 k1 c1]. simpl in H0, H1.
  destruct t0 as [|a0 [|a1 [|a2 [|a3 [|a4 [|a5 [|a6 [|a7 [|]]]]]]]]]; try done.
  destruct t1 as [|b0 [|b1 [|b2 [|b3 [|b4 [|b5 [|b6 [|b7 [|]]]]]]]]]; try done.
  unfold Kernel.total_error, Kernel.patches_read, Kernel.sheaf_demo_register_allocation.
  cbn [Kernel.n_patches Kernel.patches].
  change (Z.to_nat 2) with 2. cbn [alter list_alter take foldl].
  unfold Kernel.squared_deviation, Kernel.target_mean, Kernel.targets_read.
  cbn [Kernel.n_samples Kernel.targets].
  change (Z.to_nat 3) with 3. change (Z.to_nat 2) with 2.
  cbn [insert list_insert take foldl]. field.
Qed.

Lemma demo_solve (problem : Kernel.SheafProblem) :
  Kernel.allocated problem ->
  exists problem',
    Kernel.sheaf_solve (Kernel.sheaf_demo_register_allocation problem)
    = Some (0%Z, problem') /\
    Kernel.converged problem' = 0%Z /\
    (1581 / 1000 <= Kernel.residual problem' < 1582 / 1000)%R.
Proof.
  intros Halloc.
  pose proof (demo_allocated _ Halloc) as Hd.
  eexists. split.
  - apply sheaf_solve_Some; [done|vm_compute; lia|].
    pose proof Halloc as [Hl _]. unfold Kernel.MAX_PATCHES in Hl.
    unfold Kernel.patches_read. simpl Kernel.n_patches. change (Z.to_nat 2) with 2.
    simpl Kernel.patches.
    destruct (Kernel.patches problem) as [|p0 [|p1 ps]]; [simpl in Hl; lia..|].
    cbn [alter list_alter take]. repeat constructor; vm_compute; lia.
  - rewrite (demo_total_error _ Halloc). cbn [Kernel.converged Kernel.residual].
    destruct (sqrt_approx_bounds (5 / 2)) as [H1 H2]; [lra|].
    destruct (sqrt_between (5 / 2) (1581 / 1000) (15812 / 10000)) as [Hs1 Hs2]; try lra.
    set (s := sqrt (5 / 2)) in *. set (r := Kernel.sqrt_approx (5 / 2)) in *.
    assert (Hq : ((s / 2 - 1) * (s / 2 - 1) <= 1 / 16)%R) by nra.
    split.
    + destruct (Rlt_dec r (1 / 10 ^ 6)) as [Hlt|]; [|done].
      exfalso. assert (1 / 10 ^ 6 < 1)%R; [|lra].
      apply (Rmult_lt_reg_r (10 ^ 6)); [apply pow_lt; lra|].
      unfold Rdiv. rewrite Rmult_assoc, Rinv_l by (apply pow_nonzero; lra). simpl. lra.
    + split; lra.
Qed.

(** X23. The demo of the console: whatever the memory of the problem held,
    [sheaf_solve] on the problem that [sheaf_demo_register_allocation] writes
    returns 0 with a residual between 1.581 and 1.582, the rounded-up root
    of the total deviation 5/2, and with [converged] 0. *)
Theorem sheaf_demo_residual (problem : Kernel.SheafProblem) :
  Kernel.allocated problem ->
  exists problem',
    Kernel.sheaf_solve (Kernel.sheaf_demo_register_allocation problem)
    = Some (0%Z, problem') /\
    Kernel.converged problem' = 0%Z /\
    (1581 / 1000 <= Kernel.residual problem' < 1582 / 1000)%R.
Proof. apply demo_solve. Qed.

Lemma sheaf_demo_residual_witness :
  exists problem',
    Kernel.sheaf_solve (Kernel.sheaf_demo_register_allocation blank_problem)
    = Some (0%Z, problem') /\
    Kernel.converged problem' = 0%Z /\
    (1581 / 1000 <= Kernel.residual problem' < 1582 / 1000)%R.
Proof.
  apply (sheaf_demo_residual blank_problem). split; [reflexivity|]. repeat constructor.
Defined.

(** ** kmain.c: strings *)

Lemma uchar_inj (a b : Ascii.ascii) : Kernel.uchar a = Kernel.uchar b -> a = b.
Proof.
  unfold Kernel.uchar. intros H. apply Nat2Z.inj in H.
  rewrite <- (Ascii.ascii_nat_embedding a), <- (Ascii.ascii_nat_embedding b). by rewrite H.
Qed.

Lemma uchar_diff_zero (a b : Ascii.ascii) :
  (Kernel.uchar a - Kernel.uchar b = 0)%Z <-> a = b.
Proof. split; [intros H; apply uchar_inj; lia|intros ->; lia]. Qed.

Lemma c_string_nil_iff (s : list Ascii.ascii) :
  Kernel.c_string s = [] <-> Kernel.deref s = Kernel.NUL.
Proof.
  destruct s as [|c s]; simpl; [done|].
  destruct (Ascii.eqb_spec c Kernel.NUL); split; done.
Qed.

Lemma str_cmp_c_string (s1 s2 : list Ascii.ascii) :
  Kernel.str_cmp s1 s2 = 0%Z <-> Kernel.c_string s1 = Kernel.c_string s2.
Proof.
  revert s2. induction s1 as [|c1 s1 IH]; intros s2.
  - simpl. rewrite uchar_diff_zero. split.
    + intros H. symmetry. by apply c_string_nil_iff.
    + intros H. symmetry. by apply c_string_nil_iff.
  - simpl. destruct (Ascii.eqb_spec c1 Kernel.NUL) as [->|Hc1]; simpl.
    + rewrite uchar_diff_zero. split; intros H; symmetry; by apply c_string_nil_iff.
    + destruct (Ascii.eqb_spec c1 (Kernel.deref s2)) as [E|E].
      * destruct s2 as [|c2 s2]; simpl in E; [done|]. subst c2. simpl.
        destruct (Ascii.eqb_spec c1 Kernel.NUL); [done|].
        rewrite IH. split; [by intros ->|by intros [= ->]].
      * rewrite uchar_diff_zero. split; [done|]. intros H. exfalso. apply E.
        destruct s2 as [|c2 s2]; simpl in *; [done|].
        destruct (Ascii.eqb_spec c2 Kernel.NUL); [done|]. by injection H.
Qed.

Lemma str_len_c_string (s : list Ascii.ascii) :
  Kernel.str_len s = Z.of_nat (length (Kernel.c_string s)).
Proof.
  induction s as [|c1 s1 IH]; simpl; [done|].
  destruct (Ascii.eqb_spec c1 Kernel.NUL); simpl; [done|]. rewrite IH. lia.
Qed.

(** X24. [str_cmp] returns 0 exactly when its arguments hold the same C
    string, that is the same characters before the first [NUL]; and
    [str_len] is the number of those characters. *)
Theorem str_cmp_zero_iff (s1 s2 : list Ascii.ascii) :
  (Kernel.str_cmp s1 s2 = 0%Z <-> Kernel.c_string s1 = Kernel.c_string s2) /\
  Kernel.str_len s1 = Z.of_nat (length (Kernel.c_string s1)).
Proof. split; [apply str_cmp_c_string|apply str_len_c_string]. Qed.

(** ** kmain.c: the decimal digits *)

Lemma print_digits_S room temp buf :
  Kernel.print_digits (S room) temp buf
  = if (0 <? temp)%Z
    then Kernel.print_digits room (temp ÷ 10)
           (buf ++ [Ascii.ascii_of_nat (48 + Z.to_nat (Z.rem temp 10))])
    else Some buf.
Proof. reflexivity. Qed.

Lemma print_digits_0 room temp buf :
  (temp <= 0)%Z -> Kernel.print_digits room temp buf = Some buf.
Proof.
  intros H. destruct room; simpl; destruct (Z.ltb_spec 0 temp); done || lia.
Qed.

Lemma print_digits_value (k : nat) : forall (room : nat) (n : Z) (buf : list Ascii.ascii),
  k <= room -> (0 <= n < 10 ^ Z.of_nat k)%Z ->
  exists ds, Kernel.print_digits room n buf = Some (buf ++ ds) /\
    length ds <= k /\ Kernel.decimal_value ds = n /\
    Forall (fun c => 48 <= Ascii.nat_of_ascii c <= 57) ds /\
    ((0 < n)%Z -> exists c, last ds = Some c /\ Ascii.nat_of_ascii c <> 48).
Proof.
  induction k as [|k IH]; intros room n buf Hk Hn.
  - assert (n = 0%Z) as -> by (simpl in Hn; lia).
    exists []. rewrite app_nil_r. split; [by apply print_digits_0|].
    split; [done|]. split; [done|]. split; [done|]. lia.
  - destruct room as [|room]; [lia|]. rewrite print_digits_S.
    destruct (Z.ltb_spec 0 n) as [Hpos|Hz].
    + pose proof (Z.rem_bound_pos n 10 ltac:(lia) ltac:(lia)) as Hr.
      pose proof (Z.quot_rem' n 10) as Hqr.
      assert (Hq : (0 <= n ÷ 10 < 10 ^ Z.of_nat k)%Z).
      { split; [apply Z.quot_pos; lia|].
        apply Z.quot_lt_upper_bound; [lia..|].
        rewrite Nat2Z.inj_succ, Z.pow_succ_r in Hn by lia. lia. }
      destruct (IH room (n ÷ 10)%Z
                  (buf ++ [Ascii.ascii_of_nat (48 + Z.to_nat (Z.rem n 10))]))
        as (ds & Hds & Hlen & Hval & Hdig & Hlast); [lia|done|].
      set (d := Ascii.ascii_of_nat (48 + Z.to_nat (Z.rem n 10))) in *.
      assert (Hd : Ascii.nat_of_ascii d = 48 + Z.to_nat (Z.rem n 10)).
      { unfold d. apply Ascii.nat_ascii_embedding. lia. }
      exists (d :: ds). rewrite Hds, <- app_assoc. split; [done|].
      split; [simpl; lia|]. split; [|split].
      * unfold Kernel.decimal_value in *. simpl. rewrite Hval, Hd. lia.
      * constructor; [lia|done].
      * intros _. destruct (Z.ltb_spec 0 (n ÷ 10)) as [Hq0|Hq0].
        -- destruct (Hlast Hq0) as (c & Hc & Hne). exists c. split; [|done].
           destruct ds; [done|]. done.
        -- assert (Hqz : (n ÷ 10 = 0)%Z) by lia.
           assert (ds = []) as ->.
           { destruct ds as [|c ds]; [done|]. exfalso.
             revert Hds. rewrite Hqz, print_digits_0 by lia. intros [= H].
             apply (f_equal length) in H. rewrite !length_app in H. simpl in H. lia. }
           exists d. split; [done|]. rewrite Hd. lia.
    + assert (n = 0%Z) as -> by lia.
      exists []. rewrite app_nil_r. split; [done|]. split; [simpl; lia|].
      split; [done|]. split; [done|]. lia.
Qed.

(** X25. For every [residual_int] from 1 to [INT_MAX] the digit loop of
    [process_command] stays inside [buf]: it writes at most 10 of the 16
    cells, decimal digits only, lowest digit first and without a leading
    zero, and their value is [residual_int].  For a value that is not
    positive the loop writes nothing. *)
Theorem print_digits_spec (n : Z) :
  ((0 < n <= Kernel.INT_MAX)%Z ->
   exists buf, Kernel.print_digits 16 n [] = Some buf /\
     0 < length buf <= 10 /\ Kernel.decimal_value buf = n /\
     Forall (fun c => 48 <= Ascii.nat_of_ascii c <= 57) buf /\
     exists c, last buf = Some c /\ Ascii.nat_of_ascii c <> 48) /\
  ((n <= 0)%Z -> Kernel.print_digits 16 n [] = Some []).
Proof.
  split.
  - intros Hn. destruct (print_digits_value 10 16 n []) as (ds & H & Hl & Hv & Hd & Hlast).
    + lia.
    + unfold Kernel.INT_MAX in Hn. simpl. lia.
    + exists ds. split; [done|]. destruct (Hlast ltac:(lia)) as (c & Hc & Hne).
      split; [|by eauto]. split; [|done]. destruct ds; [done|simpl; lia].
  - intros Hn. by apply print_digits_0.
Qed.

Lemma print_digits_spec_witness :
  exists buf, Kernel.print_digits 16 1581 [] = Some buf /\
    0 < length buf <= 10 /\ Kernel.decimal_value buf = 1581%Z /\
    Forall (fun c => 48 <= Ascii.nat_of_ascii c <= 57) buf /\
    exists c, last buf = Some c /\ Ascii.nat_of_ascii c <> 48.
Proof.
  apply (proj1 (print_digits_spec 1581)). unfold Kernel.INT_MAX. lia.
Defined.

(** ** kmain.c: the line editor *)

Lemma printable_not_NUL (c : Ascii.ascii) : Kernel.printable c -> c <> Kernel.NUL.
Proof. intros [H _] ->. vm_compute in H. lia. Qed.

Lemma c_string_insert_NUL (buf : list Ascii.ascii) (idx : nat) :
  idx < length buf -> Forall Kernel.printable (take idx buf) ->
  Kernel.c_string (<[idx := Kernel.NUL]> buf) = take idx buf.
Proof.
  revert idx. induction buf as [|c buf IH]; intros idx Hlen Hp; [simpl in Hlen; lia|].
  destruct idx as [|idx]; [done|].
  simpl in Hp. apply Forall_cons_1 in Hp as [Hc Hp].
  change (<[S idx := Kernel.NUL]> (c :: buf)) with (c :: <[idx := Kernel.NUL]> buf).
  simpl. destruct (Ascii.eqb_spec c Kernel.NUL) as [E|_];
    [by apply printable_not_NUL in Hc|].
  rewrite IH; [done|simpl in Hlen; lia|done].
Qed.

(** The line editor from any state with [cmd_idx <= 63] and printable
    characters before [cmd_idx]. *)
Lemma read_line_inv (input : list Ascii.ascii) :
  forall (buf : list Ascii.ascii) (idx : nat) (out : list Ascii.ascii),
  length buf = Kernel.CMD_BUFFER_SIZE -> idx <= 63 ->
  Forall Kernel.printable (take idx buf) ->
  exists r, Kernel.read_line input buf idx out = Some r /\
    match r with
    | Kernel.Line buf' rest out' =>
        length buf' = Kernel.CMD_BUFFER_SIZE /\
        Forall Kernel.printable (Kernel.c_string buf') /\
        length (Kernel.c_string buf') <= 63 /\
        length rest < length input /\ out `prefix_of` out'
    | Kernel.Waiting out' => out `prefix_of` out'
    end.
Proof.
  unfold Kernel.CMD_BUFFER_SIZE.
  induction input as [|c input IH]; intros buf idx out Hlen Hidx Hp.
  { eexists. split; [done|]. simpl. reflexivity. }
  cbn [Kernel.read_line]. unfold Kernel.CMD_BUFFER_SIZE.
  destruct (Ascii.eqb c Kernel.CR || Ascii.eqb c Kernel.LF).
  { destruct (Nat.ltb_spec idx 64); [|lia]. eexists. split; [done|]. cbv beta iota.
    rewrite c_string_insert_NUL by (done || lia).
    split; [by rewrite length_insert|]. split; [done|].
    split; [rewrite length_take; lia|]. split; [simpl; lia|]. by apply prefix_app_r. }
  destruct (Ascii.eqb c Kernel.DEL || Ascii.eqb c Kernel.BS).
  { destruct (Nat.ltb_spec 0 idx).
    - destruct (IH buf (idx - 1) (out ++ Kernel.uart_puts [Kernel.BS; Kernel.SPACE; Kernel.BS]))
        as (r & Hr & Hpost); [done|lia| |].
      + replace (take (idx - 1) buf) with (take (idx - 1) (take idx buf))
          by (rewrite take_take; f_equal; lia).
        by apply Forall_take.
      + exists r. split; [done|]. destruct r as [buf' rest out'|out'].
        * destruct Hpost as (? & ? & ? & ? & Hpre). repeat split; try done; [simpl; lia|].
          by eapply prefix_app_l.
        * by eapply prefix_app_l.
    - destruct (IH buf idx out) as (r & Hr & Hpost); [done..|].
      exists r. split; [done|]. destruct r as [buf' rest out'|out']; [|done].
      destruct Hpost as (? & ? & ? & ? & Hpre). repeat split; try done. simpl; lia. }
  destruct (Nat.leb_spec 32 (Ascii.nat_of_ascii c)) as [H32|H32]; simpl.
  2:{ destruct (IH buf idx out) as (r & Hr & Hpost); [done..|].
      exists r. split; [done|]. destruct r as [buf' rest out'|out']; [|done].
      destruct Hpost as (? & ? & ? & ? & Hpre). repeat split; try done. simpl; lia. }
  destruct (Nat.ltb_spec (Ascii.nat_of_ascii c) 127) as [H127|H127]; simpl.
  2:{ destruct (IH buf idx out) as (r & Hr & Hpost); [done..|].
      exists r. split; [done|]. destruct r as [buf' rest out'|out']; [|done].
      destruct Hpost as (? & ? & ? & ? & Hpre). repeat split; try done. simpl; lia. }
  destruct (Nat.ltb_spec idx 63) as [H63|H63]; simpl.
  2:{ destruct (IH buf idx out) as (r & Hr & Hpost); [done..|].
      exists r. split; [done|]. destruct r as [buf' rest out'|out']; [|done].
      destruct Hpost as (? & ? & ? & ? & Hpre). repeat split; try done. simpl; lia. }
  destruct (Nat.ltb_spec idx 64); [|lia].
  destruct (IH (<[idx := c]> buf) (S idx) (out ++ [c])) as (r & Hr & Hpost).
  - by rewrite length_insert.
  - lia.
  - rewrite (take_S_r _ _ c) by (apply list_lookup_insert_eq; lia).
    rewrite take_insert_ge by lia. apply Forall_app. split; [done|].
    constructor; [|done]. split; done.
  - exists r. split; [done|]. destruct r as [buf' rest out'|out'].
    + destruct Hpost as (? & ? & ? & ? & Hpre). repeat split; try done; [simpl; lia|].
      by eapply prefix_app_l.
    + by eapply prefix_app_l.
Qed.

(** X26. From [cmd_idx = 0] and for every sequence of characters received,
    the line editor of [kmain] never writes outside the 64 characters of
    [cmd_buffer]; when a line end arrives, [cmd_buffer] holds a C string of
    at most 63 characters, all of them printable, and at least one received
    character has been consumed; what was sent before stays sent. *)
Theorem read_line_safe (input buf out : list Ascii.ascii) :
  length buf = Kernel.CMD_BUFFER_SIZE ->
  exists r, Kernel.read_line input buf 0 out = Some r /\
    match r with
    | Kernel.Line buf' rest out' =>
        length buf' = Kernel.CMD_BUFFER_SIZE /\
        Forall Kernel.printable (Kernel.c_string buf') /\
        (Kernel.str_len buf' <= 63)%Z /\
        length rest < length input /\ out `prefix_of` out'
    | Kernel.Waiting out' => out `prefix_of` out'
    end.
Proof.
  intros Hlen.
  destruct (read_line_inv input buf 0 out Hlen) as (r & Hr & Hpost); [lia|done|].
  exists r. split; [done|]. destruct r as [buf' rest out'|out']; [|done].
  destruct Hpost as (? & ? & Hl & ? & ?). repeat split; try done.
  rewrite str_len_c_string. lia.
Qed.

Lemma read_line_safe_witness :
  exists r, Kernel.read_line (Kernel.lit "ab") (replicate 64 Kernel.NUL) 0 [] = Some r /\
    match r with
    | Kernel.Line buf' rest out' =>
        length buf' = Kernel.CMD_BUFFER_SIZE /\
        Forall Kernel.printable (Kernel.c_string buf') /\
        (Kernel.str_len buf' <= 63)%Z /\
        length rest < length (Kernel.lit "ab") /\ [] `prefix_of` out'
    | Kernel.Waiting out' => [] `prefix_of` out'
    end.
Proof.
  apply (read_line_safe (Kernel.lit "ab") (replicate 64 Kernel.NUL) []). reflexivity.
Defined.

(** ** kmain.c: [process_command] *)

Lemma uart_puts_c_string (s : list Ascii.ascii) :
  Kernel.uart_puts s = Kernel.uart_puts (Kernel.c_string s).
Proof.
  induction s as [|c s IH]; simpl; [done|].
  destruct (Ascii.eqb_spec c Kernel.NUL) as [->|Hc]; [done|].
  simpl. destruct (Ascii.eqb c Kernel.NUL) eqn:E; [by apply Ascii.eqb_eq in E|].
  destruct (Ascii.eqb c Kernel.LF); by rewrite IH.
Qed.

Lemma str_cmp_lit (cmd : list Ascii.ascii) (s : string) :
  Kernel.c_string (Kernel.lit s) = Kernel.lit s ->
  ((Kernel.str_cmp cmd (Kernel.lit s) =? 0)%Z = true
   <-> Kernel.c_string cmd = Kernel.lit s).
Proof. intros Hs. by rewrite Z.eqb_eq, str_cmp_c_string, Hs. Qed.

Lemma int_of_double_floor (x : R) (z : Z) :
  (0 <= z <= Kernel.INT_MAX)%Z -> (IZR z <= x < IZR z + 1)%R ->
  Kernel.int_of_double x = Some z.
Proof.
  intros Hz Hx. unfold Kernel.int_of_double.
  assert (0 <= IZR z)%R by (apply IZR_le; lia).
  destruct (Rle_dec 0 x); [|lra].
  rewrite <- (Int_part_spec x z) by lra.
  destruct (Z.leb_spec (- Kernel.INT_MAX - 1) z); [|lia].
  destruct (Z.leb_spec z Kernel.INT_MAX); [done|lia].
Qed.

(** The report of the [sheaf] command. *)
Lemma process_command_sheaf (memory : Kernel.SheafProblem) (cmd : list Ascii.ascii) :
  Kernel.allocated memory -> Kernel.c_string cmd = Kernel.lit "sheaf" ->
  Kernel.process_command memory cmd
  = Some (Kernel.uart_puts
            (Kernel.LF :: Kernel.ln "=== Sheaf Solver Demo: Register Allocation ==="
                          ++ [Kernel.LF]) ++
          Kernel.uart_puts (Kernel.ln "Problem: Allocate registers across 2 basic blocks") ++
          Kernel.uart_puts (Kernel.ln "  Patch 1 (block_a): 3 variables (x,y,z)") ++
          Kernel.uart_puts (Kernel.ln "  Patch 2 (block_b): 2 variables (y,w)") ++
          Kernel.uart_puts (Kernel.ln "  Gluing: Variable 'y' shared between blocks"
                            ++ [Kernel.LF]) ++
          Kernel.uart_puts (Kernel.ln "Running algebraic solver...") ++
          (Kernel.uart_puts (Kernel.ln "  [OK] Solver converged") ++
           Kernel.uart_puts (Kernel.lit "  Residual (obstruction): ") ++
           Kernel.lit "1581" ++
           Kernel.uart_puts (Kernel.ln "") ++
           Kernel.uart_puts (Kernel.ln "  [WARN] Non-optimal (constraints conflict)")) ++
          Kernel.uart_puts
            (Kernel.LF :: Kernel.ln "This demonstrates wreath-sheaf algebraic OS design.") ++
          Kernel.uart_puts (Kernel.ln "Future: GPU-accelerated scheduling & compilation.")).
Proof.
  intros Halloc Hcmd. unfold Kernel.process_command.
  destruct (Z.eqb_spec (Kernel.str_cmp cmd (Kernel.lit "help")) 0) as [E|_].
  { apply str_cmp_c_string in E. rewrite Hcmd in E. discriminate E. }
  destruct (Z.eqb_spec (Kernel.str_cmp cmd (Kernel.lit "echo")) 0) as [E|_].
  { apply str_cmp_c_string in E. rewrite Hcmd in E. discriminate E. }
  destruct (Z.eqb_spec (Kernel.str_cmp cmd (Kernel.lit "sheaf")) 0) as [_|E].
  2:{ exfalso. apply E. apply str_cmp_c_string. rewrite Hcmd. reflexivity. }
  destruct (demo_solve memory Halloc) as (problem' & -> & Hconv & Hres).
  cbn [mbind option_bind Z.eqb]. rewrite Hconv.
  rewrite (int_of_double_floor _ 1581); [reflexivity|unfold Kernel.INT_MAX; lia|lra].
Qed.

(** [process_command] never runs into undefined behaviour. *)
Lemma process_command_Some (memory : Kernel.SheafProblem) (cmd : list Ascii.ascii) :
  Kernel.allocated memory -> is_Some (Kernel.process_command memory cmd).
Proof.
  intros Halloc.
  destruct (decide (Kernel.c_string cmd = Kernel.lit "sheaf")) as [E|E].
  { rewrite (process_command_sheaf memory cmd Halloc E). eexists. reflexivity. }
  unfold Kernel.process_command.
  destruct (_ =? _)%Z; [eexists; reflexivity|].
  destruct (_ =? _)%Z; [eexists; reflexivity|].
  destruct (Z.eqb_spec (Kernel.str_cmp cmd (Kernel.lit "sheaf")) 0) as [E'|_].
  { apply str_cmp_c_string in E'. contradiction. }
  destruct (_ =? _)%Z; [eexists; reflexivity|].
  destruct (_ <? _)%Z; eexists; reflexivity.
Qed.

(** X27. For every command [process_command] stays within defined
    behaviour, and it selects by the C string of the command: [echo] sends
    nothing but the word [echo] after its label, since only that command
    reaches the branch; the empty command sends nothing; a command that is
    none of [help], [echo], [sheaf], [status] is answered as unknown. *)
Theorem process_command_dispatch (memory : Kernel.SheafProblem)
    (cmd : list Ascii.ascii) :
  Kernel.allocated memory ->
  is_Some (Kernel.process_command memory cmd) /\
  (Kernel.c_string cmd = Kernel.lit "echo" ->
   Kernel.process_command memory cmd
   = Some (Kernel.lit "Echo: echo" ++ [Kernel.CR; Kernel.LF])) /\
  (Kernel.c_string cmd = [] -> Kernel.process_command memory cmd = Some []) /\
  (Kernel.c_string cmd <> [] ->
   Kernel.c_string cmd
     ∉ [Kernel.lit "help"; Kernel.lit "echo"; Kernel.lit "sheaf"; Kernel.lit "status"] ->
   Kernel.process_command memory cmd
   = Some (Kernel.lit "Unknown command: '" ++ Kernel.uart_puts (Kernel.c_string cmd) ++
           Kernel.lit "'" ++ [Kernel.CR; Kernel.LF] ++
           Kernel.lit "Type 'help' for available commands." ++ [Kernel.CR; Kernel.LF])).
Proof.
  intros Halloc. split; [by apply process_command_Some|]. split; [|split].
  - intros Hcmd. unfold Kernel.process_command.
    destruct (Z.eqb_spec (Kernel.str_cmp cmd (Kernel.lit "help")) 0) as [E|_].
    { apply str_cmp_c_string in E. rewrite Hcmd in E. discriminate E. }
    destruct (Z.eqb_spec (Kernel.str_cmp cmd (Kernel.lit "echo")) 0) as [_|E].
    2:{ exfalso. apply E. apply str_cmp_c_string. rewrite Hcmd. reflexivity. }
    rewrite (uart_puts_c_string cmd), Hcmd. reflexivity.
  - intros Hcmd. unfold Kernel.process_command.
    destruct (Z.eqb_spec (Kernel.str_cmp cmd (Kernel.lit "help")) 0) as [E|_].
    { apply str_cmp_c_string in E. rewrite Hcmd in E. discriminate E. }
    destruct (Z.eqb_spec (Kernel.str_cmp cmd (Kernel.lit "echo")) 0) as [E|_].
    { apply str_cmp_c_string in E. rewrite Hcmd in E. discriminate E. }
    destruct (Z.eqb_spec (Kernel.str_cmp cmd (Kernel.lit "sheaf")) 0) as [E|_].
    { apply str_cmp_c_string in E. rewrite Hcmd in E. discriminate E. }
    destruct (Z.eqb_spec (Kernel.str_cmp cmd (Kernel.lit "status")) 0) as [E|_].
    { apply str_cmp_c_string in E. rewrite Hcmd in E. discriminate E. }
    rewrite str_len_c_string, Hcmd. reflexivity.
  - intros Hne Hnot. unfold Kernel.process_command.
    destruct (Z.eqb_spec (Kernel.str_cmp cmd (Kernel.lit "help")) 0) as [E|_].
    { apply str_cmp_c_string in E. exfalso. apply Hnot. rewrite E.
      repeat (first [by left | right]). }
    destruct (Z.eqb_spec (Kernel.str_cmp cmd (Kernel.lit "echo")) 0) as [E|_].
    { apply str_cmp_c_string in E. exfalso. apply Hnot. rewrite E.
      repeat (first [by left | right]). }
    destruct (Z.eqb_spec (Kernel.str_cmp cmd (Kernel.lit "sheaf")) 0) as [E|_].
    { apply str_cmp_c_string in E. exfalso. apply Hnot. rewrite E.
      repeat (first [by left | right]). }
    destruct (Z.eqb_spec (Kernel.str_cmp cmd (Kernel.lit "status")) 0) as [E|_].
    { apply str_cmp_c_string in E. exfalso. apply Hnot. rewrite E.
      repeat (first [by left | right]). }
    rewrite str_len_c_string.
    destruct (Z.ltb_spec 0 (Z.of_nat (length (Kernel.c_string cmd)))) as [_|Hl].
    + rewrite (uart_puts_c_string cmd). reflexivity.
    + destruct (Kernel.c_string cmd); [contradiction|simpl in Hl; lia].
Qed.

Lemma process_command_dispatch_witness :
  is_Some (Kernel.process_command blank_problem (Kernel.lit "echo hello")) /\
  (Kernel.c_string (Kernel.lit "echo hello") = Kernel.lit "echo" ->
   Kernel.process_command blank_problem (Kernel.lit "echo hello")
   = Some (Kernel.lit "Echo: echo" ++ [Kernel.CR; Kernel.LF])) /\
  (Kernel.c_string (Kernel.lit "echo hello") = [] ->
   Kernel.process_command blank_problem (Kernel.lit "echo hello") = Some []) /\
  (Kernel.c_string (Kernel.lit "echo hello") <> [] ->
   Kernel.c_string (Kernel.lit "echo hello")
     ∉ [Kernel.lit "help"; Kernel.lit "echo"; Kernel.lit "sheaf"; Kernel.lit "status"] ->
   Kernel.process_command blank_problem (Kernel.lit "echo hello")
   = Some (Kernel.lit "Unknown command: '" ++
           Kernel.uart_puts (Kernel.c_string (Kernel.lit "echo hello")) ++
           Kernel.lit "'" ++ [Kernel.CR; Kernel.LF] ++
           Kernel.lit "Type 'help' for available commands." ++ [Kernel.CR; Kernel.LF])).
Proof.
  apply (process_command_dispatch blank_problem (Kernel.lit "echo hello")).
  split; [reflexivity|]. repeat constructor.
Defined.

(** X28. The [sheaf] command, whatever the memory of its local problem
    held: after the header it reports that the solver converged, prints the
    residual as the integer 1581 (the residual times 1000, without a decimal
    point), and then warns that the allocation is not optimal, since
    [converged] is 0. *)
Theorem process_command_sheaf_report (memory : Kernel.SheafProblem)
    (cmd : list Ascii.ascii) :
  Kernel.allocated memory -> Kernel.c_string cmd = Kernel.lit "sheaf" ->
  exists before after,
    Kernel.process_command memory cmd
    = Some (before ++
            Kernel.lit "  [OK] Solver converged" ++ [Kernel.CR; Kernel.LF] ++
            Kernel.lit "  Residual (obstruction): 1581" ++ [Kernel.CR; Kernel.LF] ++
            Kernel.lit "  [WARN] Non-optimal (constraints conflict)"
              ++ [Kernel.CR; Kernel.LF] ++
            after).
Proof.
  intros Halloc Hcmd. rewrite (process_command_sheaf memory cmd Halloc Hcmd).
  exists (Kernel.uart_puts
            (Kernel.LF :: Kernel.ln "=== Sheaf Solver Demo: Register Allocation ==="
                          ++ [Kernel.LF]) ++
          Kernel.uart_puts (Kernel.ln "Problem: Allocate registers across 2 basic blocks") ++
          Kernel.uart_puts (Kernel.ln "  Patch 1 (block_a): 3 variables (x,y,z)") ++
          Kernel.uart_puts (Kernel.ln "  Patch 2 (block_b): 2 variables (y,w)") ++
          Kernel.uart_puts (Kernel.ln "  Gluing: Variable 'y' shared between blocks"
                            ++ [Kernel.LF]) ++
          Kernel.uart_puts (Kernel.ln "Running algebraic solver...")),
         (Kernel.uart_puts
            (Kernel.LF :: Kernel.ln "This demonstrates wreath-sheaf algebraic OS design.") ++
          Kernel.uart_puts (Kernel.ln "Future: GPU-accelerated scheduling & compilation.")).
  vm_compute. reflexivity.
Qed.

Lemma process_command_sheaf_report_witness :
  exists before after,
    Kernel.process_command blank_problem (Kernel.lit "sheaf")
    = Some (before ++
            Kernel.lit "  [OK] Solver converged" ++ [Kernel.CR; Kernel.LF] ++
            Kernel.lit "  Residual (obstruction): 1581" ++ [Kernel.CR; Kernel.LF] ++
            Kernel.lit "  [WARN] Non-optimal (constraints conflict)"
              ++ [Kernel.CR; Kernel.LF] ++
            after).
Proof.
  apply (process_command_sheaf_report blank_problem (Kernel.lit "sheaf")).
  - split; [reflexivity|]. repeat constructor.
  - reflexivity.
Defined.

(** ** kmain.c: the command loop *)

Lemma command_loop_safe (memory : Kernel.SheafProblem) (turns : nat) :
  Kernel.allocated memory ->
  forall (buf input out : list Ascii.ascii),
  length buf = Kernel.CMD_BUFFER_SIZE -> length input < turns ->
  exists out', Kernel.command_loop turns memory buf input out
               = Some (Kernel.WaitingForInput out') /\
    out `prefix_of` out'.
Proof.
  intros Halloc. induction turns as [|turns IH]; intros buf input out Hlen Hturns; [lia|].
  cbn [Kernel.command_loop].
  destruct (read_line_inv input buf 0
              (out ++ Kernel.uart_puts (Kernel.LF :: Kernel.lit "bonsai> ")) Hlen)
    as (r & -> & Hpost); [lia|done|].
  cbn [mbind option_bind]. destruct r as [buf' rest out'|out'].
  - destruct Hpost as (Hlen' & _ & _ & Hrest & Hpre).
    destruct (process_command_Some memory buf' Halloc) as [sent ->].
    cbn [mbind option_bind].
    destruct (IH buf' rest (out' ++ sent)) as (out'' & -> & Hpre'); [done|lia|].
    exists out''. split; [reflexivity|].
    etransitivity; [|exact Hpre']. apply prefix_app_r.
    eapply prefix_app_l. exact Hpre.
  - exists out'. split; [reflexivity|]. eapply prefix_app_l. exact Hpost.
Qed.

(** X29. The console of [kmain], for every sequence of characters received
    and whatever its buffers held at the start: it never runs into undefined
    behaviour, neither in the line editor nor in a command, it consumes the
    whole sequence, and what it has sent when it waits for the next
    character starts with the banner. *)
Theorem kmain_safe (memory : Kernel.SheafProblem) (buf input : list Ascii.ascii) :
  Kernel.allocated memory -> length buf = Kernel.CMD_BUFFER_SIZE ->
  exists out, Kernel.kmain memory buf input = Some (Kernel.WaitingForInput out) /\
    Kernel.banner `prefix_of` out.
Proof.
  intros Halloc Hlen. unfold Kernel.kmain.
  apply command_loop_safe; [done|done|lia].
Qed.

Lemma kmain_safe_witness :
  exists out,
    Kernel.kmain blank_problem (replicate 64 Kernel.NUL)
      (Kernel.ln "sheaf" ++ Kernel.ln "help") = Some (Kernel.WaitingForInput out) /\
    Kernel.banner `prefix_of` out.
Proof.
  apply (kmain_safe blank_problem (replicate 64 Kernel.NUL)
           (Kernel.ln "sheaf" ++ Kernel.ln "help")).
  - split; [reflexivity|]. repeat constructor.
  - reflexivity.
Defined.

(** ** The linear system of [learn_character_weights] *)

(** The element [i * d + k] of the concatenation of lists of length [d]. *)
Lemma lookup_concat_uniform {T} (d : nat) (ls : list (list T)) (i k : nat) (l : list T) :
  Forall (fun l => length l = d) ls -> ls !! i = Some l -> k < d ->
  concat ls !! (i * d + k) = l !! k.
Proof.
  revert i. induction ls as [|l0 ls IH]; intros i Hall Hi Hk; [by rewrite lookup_nil in Hi|].
  apply Forall_cons_1 in Hall as [Hl0 Hall]. simpl.
  destruct i as [|i]; simpl in Hi.
  - injection Hi as ->. rewrite lookup_app_l by lia. done.
  - rewrite lookup_app_r by lia.
    replace (S i * d + k - length l0) with (i * d + k) by lia. by apply IH.
Qed.

Lemma Vec_at_lookup {T} (v : list T) (i : nat) (x : T) :
  v !! i = Some x -> Vec_at v i = Ok x.
Proof. unfold Vec_at. by intros ->. Qed.

Lemma Vget_map_seq (f : nat -> complex_t) (d k : nat) :
  k < d -> Vget (map f (seq 0 d)) k = f k.
Proof. intros Hk. unfold Vget. by rewrite lookup_map_seq. Qed.

(** X30. For samples and targets that all have the same shape with at least
    as many rows as the group order and a column, [learn_character_weights]
    assembles a system [A c = b] with one row per sample and scalar: column
    [j] of [A] holds the flattened projection of the sample onto character
    [j] and [b] the flattened target; it then returns Eigen's solution of
    this system in the build with [USE_EIGEN3], and zeros without it. *)
Theorem learn_character_weights_system (n : nat) (g : CyclicGroupCharacters)
    (V_samples targets : list Matrix) (r c : nat) :
  new_CyclicGroupCharacters n = Ok g -> n <= r -> 0 < c ->
  0 < length V_samples -> length targets = length V_samples ->
  Forall (fun V => rows V = r /\ cols V = c) V_samples ->
  Forall (fun T => Mat_wf T /\ rows T = r /\ cols T = c) targets ->
  exists (A : Matrix) (b : Vector),
    design_system g V_samples targets = Ok (A, b) /\
    (forall USE_EIGEN3 bdcSvd_solve,
       learn_character_weights USE_EIGEN3 bdcSvd_solve g V_samples targets
       = Ok (if USE_EIGEN3 then bdcSvd_solve A b else replicate n C0)) /\
    rows A = length V_samples * (r * c) /\ cols A = n /\
    forall i V T k, V_samples !! i = Some V -> targets !! i = Some T -> k < r * c ->
      b !! (i * (r * c) + k) = Some (Mget T (k / c) (k mod c)) /\
      forall j P, j < n -> project_onto_character g V j = Ok P ->
        Mget A (i * (r * c) + k) j = Mget P (k / c) (k mod c).
Proof.
  intros Hg Hnr Hc Hlen Hlt HV HT.
  destruct (new_CyclicGroupCharacters_inv _ _ Hg) as [Hn Eg].
  assert (En : n_ g = n) by (by rewrite Eg).
  set (d := r * c).
  set (Vof := fun i => default (Mzero 0 0) (V_samples !! i)).
  set (Tof := fun i => default (Mzero 0 0) (targets !! i)).
  set (Pof := fun i j => match project_onto_character g (Vof i) j with
                         | Ok P => P | Err _ => Mzero 0 0 end).
  set (F := fun i =>
    (map (fun k => map (fun j => Mget (Pof i j) (k / c) (k mod c)) (seq 0 n)) (seq 0 d),
     map (fun k => Mget (Tof i) (k / c) (k mod c)) (seq 0 d))).
  assert (Hdiv : forall k, k < d -> k / c < r /\ k mod c < c).
  { intros k Hk. split; [apply Nat.Div0.div_lt_upper_bound; unfold d in Hk; lia|].
    apply Nat.mod_upper_bound. lia. }
  destruct (lookup_lt_is_Some_2 V_samples 0 Hlen) as [V0 HV0].
  assert (Hshape : forall i V, V_samples !! i = Some V -> rows V = r /\ cols V = c).
  { intros i V Hi. apply (proj1 (Forall_forall _ _) HV). by eapply list_elem_of_lookup_2. }
  assert (HTshape : forall i T, targets !! i = Some T ->
            Mat_wf T /\ rows T = r /\ cols T = c).
  { intros i T Hi. apply (proj1 (Forall_forall _ _) HT). by eapply list_elem_of_lookup_2. }
  destruct (Hshape 0 V0 HV0) as [Hr0 Hc0].
  assert (Hblocks :
    mapM (fun i =>
      Vi ← Vec_at V_samples i;
      projs ← decompose_into_characters g Vi;
      columns ← mapM (fun j =>
          mapM (fun k =>
                  if cols Vi =? 0 then Err (Undefined DivideByZero)
                  else P ← Vec_at projs j; Mat_at P (k / cols Vi) (k mod cols Vi))
               (seq 0 d))
        (seq 0 (n_ g));
      Ti ← Vec_at targets i;
      b_i ← mapM (flat_at Ti) (seq 0 d);
      Ok (map (fun k => map (fun col => Vget col k) columns) (seq 0 d), b_i))
    (seq 0 (length V_samples)) = Ok (map F (seq 0 (length V_samples)))).
  { apply mapM_seq_Ok. intros i [_ Hi]. simpl in Hi.
    destruct (lookup_lt_is_Some_2 V_samples i Hi) as [V EVi].
    destruct (lookup_lt_is_Some_2 targets i) as [T ETi]; [lia|].
    destruct (Hshape i V EVi) as [Hr Hcc].
    destruct (HTshape i T ETi) as (Hwf & HrT & HcT).
    destruct (decompose_into_characters_Ok n g V Hg) as (projs & Hdec & Hlp & HP).
    cbv beta. rewrite (Vec_at_lookup _ _ _ EVi), Result_bind_Ok. cbv beta.
    rewrite Hdec, Result_bind_Ok. cbv beta. rewrite En, Hcc.
    destruct (Nat.eqb_spec c 0); [lia|].
    rewrite (mapM_seq_Ok _ (fun j => map (fun k => Mget (Pof i j) (k / c) (k mod c))
                                       (seq 0 d))).
    2:{ intros j [_ Hj]. simpl in Hj. apply mapM_seq_Ok. intros k [_ Hk]. simpl in Hk.
        destruct (lookup_lt_is_Some_2 projs j) as [P EP]; [lia|].
        destruct (HP j P EP) as (Hproj & HPr & HPc & HPwf).
        rewrite (Vec_at_lookup _ _ _ EP), Result_bind_Ok.
        destruct (Hdiv k Hk) as [Hq Hm].
        rewrite Mat_at_wf by (done || lia). f_equal.
        unfold Pof, Vof. rewrite EVi. simpl. by rewrite Hproj. }
    rewrite Result_bind_Ok. cbv beta.
    rewrite (Vec_at_lookup _ _ _ ETi), Result_bind_Ok. cbv beta.
    rewrite (mapM_seq_Ok _ (fun k => Mget (Tof i) (k / c) (k mod c))).
    2:{ intros k [_ Hk]. simpl in Hk. unfold flat_at. rewrite HcT.
        destruct (Nat.eqb_spec c 0); [lia|]. destruct (Hdiv k Hk) as [Hq Hm].
        rewrite Mat_at_wf by (done || lia). unfold Tof. by rewrite ETi. }
    rewrite Result_bind_Ok. unfold F. do 2 f_equal.
    apply map_ext_in. intros k Hk%in_seq. rewrite map_map.
    apply map_ext_in. intros j Hj%in_seq.
    apply (Vget_map_seq (fun k' => Mget (Pof i j) (k' / c) (k' mod c))). lia. }
  set (A := mkMat (length V_samples * d) n (concat (map fst (map F (seq 0 (length V_samples)))))).
  set (b := concat (map snd (map F (seq 0 (length V_samples))))).
  assert (Hdesign : design_system g V_samples targets = Ok (A, b)).
  { unfold design_system. rewrite (Vec_at_lookup _ _ _ HV0), Result_bind_Ok. cbv beta.
    rewrite Hr0, Hc0. fold d. rewrite Hblocks, Result_bind_Ok. by rewrite En. }
  exists A, b. split; [done|]. split; [|split; [done|split; [done|]]].
  { intros USE solve. unfold learn_character_weights. rewrite Hlt, Nat.eqb_refl.
    destruct (Nat.eqb_spec (length V_samples) 0); [lia|]. simpl.
    rewrite Hdesign, Result_bind_Ok, En. by destruct USE. }
  intros i V T k Hi HTi Hk. fold d in Hk |- *.
  assert (Hil : i < length V_samples) by (by eapply lookup_lt_Some).
  assert (HFi : map F (seq 0 (length V_samples)) !! i = Some (F i))
    by (by apply lookup_map_seq).
  split.
  - unfold b. rewrite (lookup_concat_uniform d _ i k (F i).2).
    + simpl. rewrite lookup_map_seq by done. unfold Tof. by rewrite HTi.
    + apply Forall_forall. intros l Hl.
      apply list_elem_of_fmap in Hl as (x & -> & Hx).
      apply list_elem_of_fmap in Hx as (i' & -> & _). simpl.
      by rewrite length_map, length_seq.
    + change (map snd ?l) with (snd <$> l). by rewrite list_lookup_fmap, HFi.
    + done.
  - intros j P Hj HPj. unfold Mget, Mrow, A. cbn [coeffs].
    rewrite (lookup_concat_uniform d _ i k (F i).1).
    + simpl. rewrite lookup_map_seq by done. simpl. rewrite lookup_map_seq by done.
      simpl. unfold Pof, Vof. rewrite Hi. simpl. by rewrite HPj.
    + apply Forall_forall. intros l Hl.
      apply list_elem_of_fmap in Hl as (x & -> & Hx).
      apply list_elem_of_fmap in Hx as (i' & -> & _). simpl.
      by rewrite length_map, length_seq.
    + change (map fst ?l) with (fst <$> l). by rewrite list_lookup_fmap, HFi.
    + done.
Qed.

Lemma learn_character_weights_system_witness :
  exists (A : Matrix) (b : Vector),
    design_system (group_of_order 1) [signal_1] [signal_1] = Ok (A, b) /\
    (forall USE_EIGEN3 bdcSvd_solve,
       learn_character_weights USE_EIGEN3 bdcSvd_solve (group_of_order 1)
         [signal_1] [signal_1]
       = Ok (if USE_EIGEN3 then bdcSvd_solve A b else replicate 1 C0)) /\
    rows A = length [signal_1] * (1 * 1) /\ cols A = 1 /\
    forall i V T k, [signal_1] !! i = Some V -> [signal_1] !! i = Some T -> k < 1 * 1 ->
      b !! (i * (1 * 1) + k) = Some (Mget T (k / 1) (k mod 1)) /\
      forall j P, j < 1 -> project_onto_character (group_of_order 1) V j = Ok P ->
        Mget A (i * (1 * 1) + k) j = Mget P (k / 1) (k mod 1).
Proof.
  apply (learn_character_weights_system 1 (group_of_order 1) [signal_1] [signal_1] 1 1).
  - reflexivity.
  - lia.
  - lia.
  - simpl. lia.
  - reflexivity.
  - repeat constructor.
  - repeat constructor.
Defined.
